(** * Federate coordination core of reactor-c: a shallow embedding

    The development follows two source files:
    - [core/platform/lf_arduino_support.c]: the bare-metal clock, and
    - [lib/core/federate.c]: the federate side of the RTI protocol
      (time advance, message injection, peer readers, connection set-up).

    The first part holds the embedding, one module per component; the
    second part holds the properties proved about it. *)

From Stdlib Require Import ZArith List Bool Lia.
From stdpp Require Import base list.
Import ListNotations.
Local Open Scope Z_scope.

(* ===================================================================== *)
(** * Part I: the embedding                                               *)
(* ===================================================================== *)

(** ** Constants of [rti.h] *)

(** Modelled from the spec: [rti.h] is not among the sources.  The byte
    values of the message types and the retry constants are
    implementation choices there; the code below only compares bytes with
    these names, so they are taken as parameters. *)
Class rti_h : Set := {
  STARTING_PORT : Z;
  PORT_RANGE_LIMIT : Z;
  CONNECT_NUM_RETRIES : Z;
  CONNECT_RETRY_INTERVAL : Z;
  ADDRESS_QUERY_RETRY_INTERVAL : Z;
  REJECT : Z;
  ACK : Z;
  FED_ID : Z;
  NEXT_EVENT_TIME : Z;
  LOGICAL_TIME_COMPLETE : Z;
  STOP : Z;
  ADDRESS_QUERY : Z;
  P2P_SENDING_FED_ID : Z;
  P2P_TIMED_MESSAGE : Z;
  FEDERATION_ID_DOES_NOT_MATCH : Z;
  WRONG_SERVER : Z
}.

(** A small instance, used to run the model on concrete inputs. *)
Definition sample_rti_h : rti_h := {|
  STARTING_PORT := 15045;
  PORT_RANGE_LIMIT := 2;
  CONNECT_NUM_RETRIES := 1;
  CONNECT_RETRY_INTERVAL := 2;
  ADDRESS_QUERY_RETRY_INTERVAL := 100000000;
  REJECT := 0;
  ACK := 255;
  FED_ID := 1;
  NEXT_EVENT_TIME := 6;
  LOGICAL_TIME_COMPLETE := 8;
  STOP := 9;
  ADDRESS_QUERY := 13;
  P2P_SENDING_FED_ID := 15;
  P2P_TIMED_MESSAGE := 16;
  FEDERATION_ID_DOES_NOT_MATCH := 1;
  WRONG_SERVER := 4
|}.

(** ** Machine integers and the wire codec *)
Module Wire.

(** Bytes are 8-bit values held in [Z]. *)
Definition byte := Z.

(** Reinterpret an unsigned [w]-bit pattern as a two's complement value. *)
Definition to_signed (w : Z) (u : Z) : Z :=
  if u mod 2 ^ w <? 2 ^ (w - 1) then u mod 2 ^ w else u mod 2 ^ w - 2 ^ w.

(** Arithmetic of [long long] ([instant_t], [interval_t]): results are
    reduced to 64 bits. *)
Definition sub_ll (a b : Z) : Z := to_signed 64 (a - b).

Definition in_ll (v : Z) : Prop := - 2 ^ 63 <= v < 2 ^ 63.

(** Modelled from the spec: [util.c] ([encode_ll], [extract_ll],
    [encode_ushort], [extract_ushort], [extract_int], [extract_header]) is
    not among the sources.  All multi-byte integers on the wire are
    little-endian. *)
Fixpoint encode_le (n : nat) (v : Z) : list byte :=
  match n with
  | O => []
  | S k => v mod 256 :: encode_le k (v / 256)
  end.

Fixpoint decode_le (bs : list byte) : Z :=
  match bs with
  | [] => 0
  | b :: rest => b + 256 * decode_le rest
  end.

Definition encode_ushort (v : Z) : list byte := encode_le 2 v.
Definition encode_int (v : Z) : list byte := encode_le 4 v.
Definition encode_ll (v : Z) : list byte := encode_le 8 v.

Definition extract_ushort (bs : list byte) : Z := decode_le (firstn 2 bs).
Definition extract_uint (bs : list byte) : Z := decode_le (firstn 4 bs).
Definition extract_int (bs : list byte) : Z := to_signed 32 (decode_le (firstn 4 bs)).
Definition extract_ll (bs : list byte) : Z := to_signed 64 (decode_le (firstn 8 bs)).

(** Modelled from the spec: [extract_header(buffer, &port_id, &federate_id,
    &length)] of [util.c]; the layout is the one of the message table,
    which is also what [send_message_timed] writes after the type byte. *)
Definition extract_header (buffer : list byte) : Z * Z * Z :=
  (extract_ushort buffer, extract_ushort (skipn 2 buffer), extract_uint (skipn 4 buffer)).

End Wire.

(** ** The Arduino clock ([lf_arduino_support.c]) *)
Module Arduino.

(** The two [static volatile uint32_t] timing variables. *)
Record clock_state : Set := {
  _lf_time_us_high : Z;
  _lf_time_us_low_last : Z
}.

Definition clock_init : clock_state :=
  {| _lf_time_us_high := 0; _lf_time_us_low_last := 0 |}.

(** [#define COMBINE_HI_LO(hi,lo) ((((uint64_t) hi) << 32) | ((uint64_t) lo))] *)
Definition COMBINE_HI_LO (hi lo : Z) : Z :=
  Z.lor (Z.shiftl hi 32 mod 2 ^ 64) lo.

(** The 32-bit hardware counter [micros()] of [Arduino.h], read when the
    true elapsed time is [elapsed_us] microseconds. *)
Definition micros (elapsed_us : Z) : Z := elapsed_us mod 2 ^ 32.

(** [lf_clock_gettime(&t)], given the value [micros()] returns.  The
    function increments the high word and writes [*t]; it has no
    assignment to [_lf_time_us_low_last]. *)
Definition lf_clock_gettime (now_us_low : Z) (st : clock_state) : Z * clock_state :=
  let high :=
    if now_us_low <? _lf_time_us_low_last st
    then (_lf_time_us_high st + 1) mod 2 ^ 32
    else _lf_time_us_high st in
  (Wire.to_signed 64 (COMBINE_HI_LO high now_us_low * 1000),
   {| _lf_time_us_high := high;
      _lf_time_us_low_last := _lf_time_us_low_last st |}).

(** Successive calls, made when the true elapsed time has the listed
    values; the nanosecond values written to [*t], in order. *)
Fixpoint clock_reads (elapsed : list Z) (st : clock_state) : list Z :=
  match elapsed with
  | [] => []
  | e :: rest =>
      let '(t, st') := lf_clock_gettime (micros e) st in
      t :: clock_reads rest st'
  end.

(** The precondition of the reconstruction: the reads are in time order
    and less than one wraparound period apart, the first one less than a
    period after start-up. *)
Fixpoint read_each_period (last : Z) (elapsed : list Z) : Prop :=
  match elapsed with
  | [] => True
  | e :: rest => last <= e < last + 2 ^ 32 /\ read_each_period e rest
  end.

End Arduino.

(** ** The time-advance coordinator ([federate.c], lines 804-866 and 995-1100) *)
Module Coordinator.

Definition instant_t := Z.

(** Modelled from the spec: [reactor.h] is not among the sources.  [NEVER]
    is the sentinel that compares less than any valid time; it is taken
    as the least [long long]. *)
Definition NEVER : instant_t := - 2 ^ 63.

(** An event of the event queue; only its [time] field is read here. *)
Record event_t : Set := { time : instant_t }.

(** The globals guarded by the one [mutex], together with what has been
    written to [_lf_rti_socket] (oldest frame first). *)
Record fed_state : Set := {
  __fed_has_upstream : bool;
  __fed_has_downstream : bool;
  __tag : instant_t;
  __tag_pending : bool;
  stop_requested : bool;
  event_q : list event_t;
  rti_socket_out : list (list Wire.byte)
}.

(** The state at program start: [__tag = NEVER], [__tag_pending = false]. *)
Definition initial_state (upstream downstream : bool) : fed_state := {|
  __fed_has_upstream := upstream;
  __fed_has_downstream := downstream;
  __tag := NEVER;
  __tag_pending := false;
  stop_requested := false;
  event_q := [];
  rti_socket_out := []
|}.

Definition set_tag (g : instant_t) (pending : bool) (st : fed_state) : fed_state := {|
  __fed_has_upstream := __fed_has_upstream st;
  __fed_has_downstream := __fed_has_downstream st;
  __tag := g;
  __tag_pending := pending;
  stop_requested := stop_requested st;
  event_q := event_q st;
  rti_socket_out := rti_socket_out st
|}.

Definition set_stop_requested (st : fed_state) : fed_state := {|
  __fed_has_upstream := __fed_has_upstream st;
  __fed_has_downstream := __fed_has_downstream st;
  __tag := __tag st;
  __tag_pending := __tag_pending st;
  stop_requested := true;
  event_q := event_q st;
  rti_socket_out := rti_socket_out st
|}.

Definition set_event_q (q : list event_t) (st : fed_state) : fed_state := {|
  __fed_has_upstream := __fed_has_upstream st;
  __fed_has_downstream := __fed_has_downstream st;
  __tag := __tag st;
  __tag_pending := __tag_pending st;
  stop_requested := stop_requested st;
  event_q := q;
  rti_socket_out := rti_socket_out st
|}.

(** [write_to_socket(_lf_rti_socket, n, buffer, ...)] *)
Definition write_to_rti (frame : list Wire.byte) (st : fed_state) : fed_state := {|
  __fed_has_upstream := __fed_has_upstream st;
  __fed_has_downstream := __fed_has_downstream st;
  __tag := __tag st;
  __tag_pending := __tag_pending st;
  stop_requested := stop_requested st;
  event_q := event_q st;
  rti_socket_out := rti_socket_out st ++ [frame]
|}.

(** [send_time(type, time)]: a 9-byte frame, the type byte followed by
    [encode_ll(time)]. *)
Definition send_time (type : Wire.byte) (t : instant_t) (st : fed_state) : fed_state :=
  write_to_rti (type :: Wire.encode_ll t) st.

(** [handle_time_advance_grant()], given the [long long] read from the
    RTI socket: the value is stored as it is. *)
Definition handle_time_advance_grant (g : instant_t) (st : fed_state) : fed_state :=
  set_tag g false st.

(** [handle_incoming_stop_message()]: the stop time is read and ignored. *)
Definition handle_incoming_stop_message (stop_time : instant_t) (st : fed_state) : fed_state :=
  set_stop_requested st.

(** Modelled from the spec: [pqueue.c] is not among the sources.
    [pqueue_peek(event_q)] gives the head event, or [NULL] on an empty
    queue; the queue is kept as a list whose first element is its head. *)
Definition pqueue_peek (q : list event_t) : option event_t := head q.

(** What another thread does to the shared state while it holds the
    mutex; each of these ends with [pthread_cond_broadcast(&event_q_changed)]. *)
Inductive env_action : Set :=
| TagArrives (g : instant_t)
| StopArrives (stop_time : instant_t)
| QueueChanged (q : list event_t).

Definition run_action (st : fed_state) (a : env_action) : fed_state :=
  match a with
  | TagArrives g => handle_time_advance_grant g st
  | StopArrives t => handle_incoming_stop_message t st
  | QueueChanged q => set_event_q q st
  end.

(** One return of [pthread_cond_wait]: the actions other threads ran
    while the waiter had released the mutex (none for a spurious wake). *)
Definition wake := list env_action.

Definition run_wake (w : wake) (st : fed_state) : fed_state :=
  fold_left run_action w st.

(** The [while (__tag_pending)] loop of [__next_event_time].  The list
    holds the wake-ups still to come; [None] is a waiter that is still
    blocked when they are used up. *)
Fixpoint wait_for_tag (t : instant_t) (wakes : list wake) (st : fed_state)
  : option (instant_t * fed_state) :=
  if __tag_pending st then
    match wakes with
    | [] => None
    | w :: rest =>
        let st' := run_wake w st in
        if __tag_pending st' then
          match pqueue_peek (event_q st') with
          | Some head_event =>
              if time head_event <? t then Some (time head_event, st')
              else wait_for_tag t rest st'
          | None => wait_for_tag t rest st'
          end
        else wait_for_tag t rest st'
    end
  else Some (__tag st, st).

Section WithConstants.
Context `{rti_h}.

(** [__logical_time_complete(time)] *)
Definition __logical_time_complete (t : instant_t) (st : fed_state) : fed_state :=
  if __fed_has_downstream st then send_time LOGICAL_TIME_COMPLETE t st else st.

(** [__next_event_time(time)], called with the mutex held. *)
Definition __next_event_time (t : instant_t) (wakes : list wake) (st : fed_state)
  : option (instant_t * fed_state) :=
  if negb (__fed_has_downstream st) && negb (__fed_has_upstream st) then
    Some (t, st)
  else if __tag st >=? t then
    Some (t, st)
  else
    let st1 := send_time NEXT_EVENT_TIME t st in
    if negb (__fed_has_upstream st1) then Some (t, st1)
    else wait_for_tag t wakes (set_tag (__tag st1) true st1).

End WithConstants.

(** The grants carried by a sequence of actions, in order. *)
Fixpoint grants (acts : list env_action) : list instant_t :=
  match acts with
  | [] => []
  | TagArrives g :: rest => g :: grants rest
  | _ :: rest => grants rest
  end.

(** Every grant is at least its predecessor, the first at least [low]. *)
Fixpoint nondecreasing_from (low : Z) (gs : list Z) : Prop :=
  match gs with
  | [] => True
  | g :: rest => low <= g /\ nondecreasing_from g rest
  end.

End Coordinator.

(** ** Sockets, system calls and the globals of the connection code *)
Module Sys.

(** How the byte stream of a connection ends: the peer closes it (EOF) or
    the transport breaks. *)
Inductive stream_end : Set := PeerClosed | Broken.

(** One TCP connection as the descriptor's owner sees it: the bytes still
    to arrive, how the stream ends after them, whether writes succeed, and
    whether [close] has been called on the descriptor. *)
Record socket : Set := {
  incoming : list Wire.byte;
  at_end : stream_end;
  writable : bool;
  closed : bool
}.

Definition with_incoming (bs : list Wire.byte) (s : socket) : socket :=
  {| incoming := bs; at_end := at_end s; writable := writable s; closed := closed s |}.

(** [close(fd)] *)
Definition close (s : socket) : socket :=
  {| incoming := incoming s; at_end := at_end s; writable := writable s; closed := true |}.

(** Modelled from the spec: [read_from_socket2] of [util.c] is not among
    the sources.  It fills [n] bytes and returns [n], or returns 0 when
    the peer has closed the stream and a negative value on a transport
    error; reading a descriptor that has been closed is such an error. *)
Definition read_from_socket2 (n : nat) (s : socket) : Z * list Wire.byte * socket :=
  if closed s then (-1, [], s)
  else if (n <=? length (incoming s))%nat then
    (Z.of_nat n, firstn n (incoming s), with_incoming (skipn n (incoming s)) s)
  else
    match at_end s with
    | PeerClosed => (0, [], with_incoming [] s)
    | Broken => (-1, [], with_incoming [] s)
    end.

(** Modelled from the spec: [read_from_socket] of [util.c], the variant
    with an error message, does not return on failure (the callers carry
    the note "FIXME: Retry rather than exit"); [None] stands for that. *)
Definition read_from_socket (n : nat) (s : socket) : option (list Wire.byte * socket) :=
  let '(bytes_read, buffer, s') := read_from_socket2 n s in
  if bytes_read =? Z.of_nat n then Some (buffer, s') else None.

(** Whether [write_to_socket] gets its bytes out. *)
Definition can_write (s : socket) : bool := writable s && negb (closed s).

(** The thread bodies handed to [pthread_create]. *)
Inductive thread_fn : Set := listen_to_federates_fn | listen_to_rti_fn.

(** The calls into the operating system that the properties speak about,
    recorded in the order they are made. *)
Inductive sys_call : Set :=
| SysRead (fd : Z) (bytes_read : Z)
| SysWrite (fd : Z) (bytes : list Wire.byte)
| SysClose (fd : Z)
| SysConnect (fd : Z) (port : Z)
| SysSleep (seconds nanoseconds : Z)
| SysSpawn (body : thread_fn) (arg : Z).

(** The part of [trigger_t] (declared in [reactor.h]) that the file
    reads: [element_size].  [trigger_id] tells the triggers of a program
    apart, as their addresses do. *)
Record trigger_t : Set := { trigger_id : Z; element_size : Z }.

(** The call [__schedule(trigger, extra_delay, token)] that
    [schedule_value_already_locked] makes: the trigger, the delay, and the
    element size, value and length of the token. *)
Record schedule_call : Set := {
  sc_trigger : trigger_t;
  sc_extra_delay : Z;
  sc_element_size : Z;
  sc_value : list Wire.byte;
  sc_length : Z
}.

(** The globals of [federate.c] used outside the coordinator, with the
    log of system calls and of scheduler calls made so far. *)
Record process : Set := {
  _lf_my_fed_id : Z;
  federation_id : list Wire.byte;
  current_time : Z;
  _lf_rti_socket : Z;
  _lf_number_of_inbound_physical_connections : Z;
  _lf_federate_sockets_for_inbound_physical_connections : list Z;
  _lf_federate_sockets_for_outbound_physical_connections : list Z;
  scheduled : list schedule_call;
  calls : list sys_call
}.

Definition log (c : sys_call) (p : process) : process := {|
  _lf_my_fed_id := _lf_my_fed_id p;
  federation_id := federation_id p;
  current_time := current_time p;
  _lf_rti_socket := _lf_rti_socket p;
  _lf_number_of_inbound_physical_connections := _lf_number_of_inbound_physical_connections p;
  _lf_federate_sockets_for_inbound_physical_connections :=
    _lf_federate_sockets_for_inbound_physical_connections p;
  _lf_federate_sockets_for_outbound_physical_connections :=
    _lf_federate_sockets_for_outbound_physical_connections p;
  scheduled := scheduled p;
  calls := calls p ++ [c]
|}.

Definition add_scheduled (c : schedule_call) (p : process) : process := {|
  _lf_my_fed_id := _lf_my_fed_id p;
  federation_id := federation_id p;
  current_time := current_time p;
  _lf_rti_socket := _lf_rti_socket p;
  _lf_number_of_inbound_physical_connections := _lf_number_of_inbound_physical_connections p;
  _lf_federate_sockets_for_inbound_physical_connections :=
    _lf_federate_sockets_for_inbound_physical_connections p;
  _lf_federate_sockets_for_outbound_physical_connections :=
    _lf_federate_sockets_for_outbound_physical_connections p;
  scheduled := scheduled p ++ [c];
  calls := calls p
|}.

Definition set_rti_socket (fd : Z) (p : process) : process := {|
  _lf_my_fed_id := _lf_my_fed_id p;
  federation_id := federation_id p;
  current_time := current_time p;
  _lf_rti_socket := fd;
  _lf_number_of_inbound_physical_connections := _lf_number_of_inbound_physical_connections p;
  _lf_federate_sockets_for_inbound_physical_connections :=
    _lf_federate_sockets_for_inbound_physical_connections p;
  _lf_federate_sockets_for_outbound_physical_connections :=
    _lf_federate_sockets_for_outbound_physical_connections p;
  scheduled := scheduled p;
  calls := calls p
|}.

(** [_lf_federate_sockets_for_inbound_physical_connections[fed] = fd].
    The arrays have [NUMBER_OF_FEDERATES] entries and the code does not
    check the index; C leaves a store past the end undefined, the list
    update leaves the table as it is. *)
Definition set_inbound (fed : Z) (fd : Z) (p : process) : process := {|
  _lf_my_fed_id := _lf_my_fed_id p;
  federation_id := federation_id p;
  current_time := current_time p;
  _lf_rti_socket := _lf_rti_socket p;
  _lf_number_of_inbound_physical_connections := _lf_number_of_inbound_physical_connections p;
  _lf_federate_sockets_for_inbound_physical_connections :=
    <[Z.to_nat fed := fd]> (_lf_federate_sockets_for_inbound_physical_connections p);
  _lf_federate_sockets_for_outbound_physical_connections :=
    _lf_federate_sockets_for_outbound_physical_connections p;
  scheduled := scheduled p;
  calls := calls p
|}.

(** [_lf_federate_sockets_for_outbound_physical_connections[fed] = fd] *)
Definition set_outbound (fed : Z) (fd : Z) (p : process) : process := {|
  _lf_my_fed_id := _lf_my_fed_id p;
  federation_id := federation_id p;
  current_time := current_time p;
  _lf_rti_socket := _lf_rti_socket p;
  _lf_number_of_inbound_physical_connections := _lf_number_of_inbound_physical_connections p;
  _lf_federate_sockets_for_inbound_physical_connections :=
    _lf_federate_sockets_for_inbound_physical_connections p;
  _lf_federate_sockets_for_outbound_physical_connections :=
    <[Z.to_nat fed := fd]> (_lf_federate_sockets_for_outbound_physical_connections p);
  scheduled := scheduled p;
  calls := calls p
|}.

Definition inbound_socket (fed : Z) (p : process) : option Z :=
  _lf_federate_sockets_for_inbound_physical_connections p !! Z.to_nat fed.

Definition outbound_socket (fed : Z) (p : process) : option Z :=
  _lf_federate_sockets_for_outbound_physical_connections p !! Z.to_nat fed.

(** How a piece of code that may end the process comes back; the
    abnormal ends carry the state of the process at that point.  After the
    dereference of a null pointer C leaves the behaviour undefined, so
    nothing is said about what follows it. *)
Inductive run (A : Type) : Type :=
| Done (a : A)                    (* ran to its end *)
| Exit (p : process)              (* [exit(1)], [error_print_and_exit] *)
| AssertFailed (p : process)      (* a failed [assert] *)
| NullDereference (p : process).  (* a null pointer is dereferenced *)
Arguments Done {A} a.
Arguments Exit {A} p.
Arguments AssertFailed {A} p.
Arguments NullDereference {A} p.

(** The C string functions on byte lists; the end of a list reads as the
    terminating NUL. *)
Fixpoint c_strlen (s : list Wire.byte) : nat :=
  match s with
  | [] => O
  | c :: rest => if c =? 0 then O else S (c_strlen rest)
  end.

Definition strnlen (s : list Wire.byte) (maxlen : nat) : nat :=
  Nat.min (c_strlen s) maxlen.

Fixpoint strncmp (s1 s2 : list Wire.byte) (n : nat) : Z :=
  match n with
  | O => 0
  | S k =>
      let c1 := hd 0 s1 in
      let c2 := hd 0 s2 in
      if c1 =? c2 then (if c1 =? 0 then 0 else strncmp (tl s1) (tl s2) k)
      else c1 - c2
  end.

End Sys.

(** ** Message injection and the peer reader ([federate.c], lines 743-802 and 877-922) *)
Module Reader.
Import Sys.

(** [schedule_value_already_locked(trigger, extra_delay, value, length)].
    [trigger] is a pointer, [None] being the null pointer: the first
    statement reads [trigger->element_size].  The scheduler itself
    ([__schedule]) is outside this file; its call is recorded with the
    trigger, the delay and the token it is given. *)
Definition schedule_value_already_locked
    (trigger : option trigger_t) (extra_delay : Z) (value : list Wire.byte) (length : Z)
    (p : process) : run process :=
  match trigger with
  | None => NullDereference p
  | Some action =>
      Done (add_scheduled
              {| sc_trigger := action; sc_extra_delay := extra_delay;
                 sc_element_size := element_size action;
                 sc_value := value; sc_length := length |} p)
  end.

(** [handle_timed_message(socket, buffer)].  [__action_for_port] is the
    generated function mapping a port id to a pointer to its trigger, or
    to the null pointer ([None]) when the id is out of range; the logical
    time is the one read under the mutex, [current_time].  The
    [unsigned int length] is converted to the [int] parameter of
    [schedule_value_already_locked]. *)
Definition handle_timed_message
    (__action_for_port : Z -> option trigger_t) (s : socket) (p : process)
  : run (socket * process) :=
  match read_from_socket 16 s with
  | None => Exit p
  | Some (buffer, s1) =>
      let '(port_id, federate_id, length) := Wire.extract_header buffer in
      if negb (_lf_my_fed_id p =? federate_id) then AssertFailed p
      else
        let timestamp := Wire.extract_ll (skipn 8 buffer) in
        match read_from_socket (Z.to_nat length) s1 with
        | None => Exit p
        | Some (message_contents, s2) =>
            let delay := Wire.sub_ll timestamp (current_time p) in
            match schedule_value_already_locked (__action_for_port port_id) delay
                    message_contents (Wire.to_signed 32 length) p with
            | Done p2 => Done (s2, p2)
            | Exit p2 => Exit p2
            | AssertFailed p2 => AssertFailed p2
            | NullDereference p2 => NullDereference p2
            end
        end
  end.

Section WithConstants.
Context `{rti_h}.

(** The body of [listen_to_federates]: [close(socket_id)] followed by
    the reset of the table entry. *)
Definition close_and_reset (fed_id socket_id : Z) (s : socket) (p : process)
  : socket * process :=
  (close s, set_inbound fed_id (-1) (log (SysClose socket_id) p)).

(** The [while (1)] loop of [listen_to_federates].  The fuel bounds the
    number of iterations; [None] is a loop still running when it is
    used up.  In the [default] case the [break] leaves the [switch], so
    the loop goes round again. *)
Fixpoint listen_loop (fuel : nat) (__action_for_port : Z -> option trigger_t)
    (fed_id socket_id : Z) (s : socket) (p : process) : option (run (socket * process)) :=
  match fuel with
  | O => None
  | S fuel' =>
      let '(bytes_read, buffer, s1) := read_from_socket2 1 s in
      let p1 := log (SysRead socket_id bytes_read) p in
      if bytes_read =? 0 then
        Some (Done (close_and_reset fed_id socket_id s1 p1))
      else if bytes_read <? 0 then
        Some (Done (close_and_reset fed_id socket_id s1 p1))
      else if hd 0 buffer =? P2P_TIMED_MESSAGE then
        match handle_timed_message __action_for_port s1 p1 with
        | Done (s2, p2) => listen_loop fuel' __action_for_port fed_id socket_id s2 p2
        | Exit p2 => Some (Exit p2)
        | AssertFailed p2 => Some (AssertFailed p2)
        | NullDereference p2 => Some (NullDereference p2)
        end
      else
        let '(s2, p2) := close_and_reset fed_id socket_id s1 p1 in
        listen_loop fuel' __action_for_port fed_id socket_id s2 p2
  end.


End WithConstants.

End Reader.

(** ** Accepting peer connections ([federate.c], lines 320-406) *)
Module Accept.
Import Sys.

(** One return of [accept()]: the descriptor (negative on failure), the
    connection behind it, the bytes that lie in memory after the array
    [remote_federation_id], and whether [pthread_create] succeeds. *)
Record connection : Set := {
  socket_id : Z;
  peer : socket;
  stack_after : list Wire.byte;
  thread_created : bool
}.

Section WithConstants.
Context `{rti_h}.

(** The two rejection paths: the response is written with
    [write_to_socket2], whose errors are ignored, and the socket closed;
    nothing is done when the read itself failed. *)
Definition reject (fd : Z) (bytes_read : Z) (cause : Wire.byte) (p : process) : process :=
  if bytes_read >=? 0 then
    log (SysClose fd) (log (SysWrite fd [REJECT; cause]) p)
  else p.

(** The [while (received_federates < ...)] loop of
    [handle_p2p_connections_from_federates]; the list holds what
    [accept()] will return.  [None] is a thread still blocked in
    [accept()] when the list is used up. *)
Fixpoint accept_loop (conns : list connection) (received_federates : Z) (p : process)
  : option (run process) :=
  if received_federates <? _lf_number_of_inbound_physical_connections p then
    match conns with
    | [] => None
    | c :: rest =>
        if socket_id c <? 0 then Some (Done p)
        else
          let header_length := 4%nat in
          let '(bytes_read, buffer, s1) := read_from_socket2 header_length (peer c) in
          if negb (bytes_read =? Z.of_nat header_length)
             || negb (hd 0 buffer =? P2P_SENDING_FED_ID) then
            accept_loop rest received_federates (reject (socket_id c) bytes_read WRONG_SERVER p)
          else
            let federation_id_length := nth 3 buffer 0 in
            let '(bytes_read, remote_federation_id, s2) :=
              read_from_socket2 (Z.to_nat federation_id_length) s1 in
            if negb (bytes_read =? federation_id_length)
               || negb (strncmp (federation_id p) (remote_federation_id ++ stack_after c)
                                (strnlen (federation_id p) 255) =? 0) then
              accept_loop rest received_federates
                (reject (socket_id c) bytes_read FEDERATION_ID_DOES_NOT_MATCH p)
            else
              let remote_fed_id := Wire.extract_ushort (skipn 1 buffer) in
              let p1 := set_inbound remote_fed_id (socket_id c) p in
              if negb (can_write s2) then Some (Exit p1)
              else
                let p2 := log (SysWrite (socket_id c) [ACK]) p1 in
                if negb (thread_created c) then Some (Exit (log (SysClose (socket_id c)) p2))
                else
                  accept_loop rest (received_federates + 1)
                    (log (SysSpawn listen_to_federates_fn remote_fed_id) p2)
    end
  else Some (Done p).

(** [handle_p2p_connections_from_federates(ignored)], up to the point
    where it joins the reader threads it has started. *)
Definition handle_p2p_connections_from_federates (conns : list connection) (p : process)
  : option (run process) :=
  accept_loop conns 0 p.

End WithConstants.

End Accept.

(** ** Connecting to a peer and to the RTI ([federate.c], lines 420-680) *)
Module Connect.
Import Sys.

(** One iteration of a connect loop as the operating system and the
    remote side decide it: what [socket()] returns, whether the host name
    resolves ([connect_to_rti] only), whether [connect()] succeeds, and
    the connection obtained if it does. *)
Record attempt : Set := {
  socket_fd : Z;
  host_found : bool;
  connected : bool;
  remote : socket
}.

Section WithConstants.
Context `{rti_h}.

(** The address query loop of [connect_to_federate]; the list holds the
    ports the RTI replies with.  [count_tries++ >= CONNECT_NUM_RETRIES]
    compares the value before the increment. *)
Fixpoint query_address (id : Z) (replies : list Z) (count_tries : Z) (p : process)
  : option (run (Z * process)) :=
  match replies with
  | [] => None
  | port :: rest =>
      let p1 := log (SysWrite (_lf_rti_socket p) (ADDRESS_QUERY :: Wire.encode_ushort id)) p in
      if port =? -1 then
        if count_tries >=? CONNECT_NUM_RETRIES then Some (Exit p1)
        else query_address id rest (count_tries + 1)
               (log (SysSleep 0 ADDRESS_QUERY_RETRY_INTERVAL) p1)
      else if port <? 65536 then Some (Done (port, p1))
      else Some (AssertFailed p1)
  end.

(** The handshake after a successful [connect()] to a peer: the byte
    read back, or [None] when a read or write fails (the process exits). *)
Definition p2p_handshake (fd : Z) (s : socket) (p : process) : option (Wire.byte * process) :=
  if negb (can_write s) then None
  else
    let federation_id_length := Z.of_nat (strnlen (federation_id p) 255) in
    let p1 := log (SysWrite fd (P2P_SENDING_FED_ID :: Wire.encode_ushort (_lf_my_fed_id p)
                                  ++ [federation_id_length])) p in
    let p2 := log (SysWrite fd (firstn (Z.to_nat federation_id_length) (federation_id p))) p1 in
    match read_from_socket 1 s with
    | None => None
    | Some (buffer, s1) =>
        if negb (hd 0 buffer =? ACK) then
          match read_from_socket 1 s1 with
          | None => None
          | Some _ => Some (hd 0 buffer, p2)
          end
        else Some (hd 0 buffer, p2)
    end.

(** The [while (result < 0)] loop of [connect_to_federate]; the list
    holds the attempts still to come.  The entry of the table is
    written before [connect()] is tried and not touched afterwards. *)
Fixpoint connect_loop (id port : Z) (attempts : list attempt) (count_retries : Z) (p : process)
  : option (run process) :=
  match attempts with
  | [] => None
  | a :: rest =>
      let p1 := set_outbound id (socket_fd a) p in
      if socket_fd a <? 0 then Some (Exit p1)
      else
        let p2 := log (SysConnect (socket_fd a) port) p1 in
        if negb (connected a) then
          let count_retries := count_retries + 1 in
          if count_retries >? CONNECT_NUM_RETRIES then Some (Done p2)
          else connect_loop id port rest count_retries
                 (log (SysSleep 0 ADDRESS_QUERY_RETRY_INTERVAL) p2)
        else
          match p2p_handshake (socket_fd a) (remote a) p2 with
          | None => Some (Exit p2)
          | Some (response, p3) =>
              if negb (response =? ACK) then connect_loop id port rest count_retries p3
              else Some (Done p3)
          end
  end.

(** [connect_to_federate(id)] *)
Definition connect_to_federate (id : Z) (replies : list Z) (attempts : list attempt)
    (p : process) : option (run process) :=
  match query_address id replies 0 p with
  | None => None
  | Some (Exit p1) => Some (Exit p1)
  | Some (AssertFailed p1) => Some (AssertFailed p1)
  | Some (NullDereference p1) => Some (NullDereference p1)
  | Some (Done (port, p1)) => connect_loop id port attempts 0 p1
  end.

(** The handshake after a successful [connect()] to the RTI: the
    response byte and, after [REJECT], the cause. *)
Definition rti_handshake (id : Z) (fd : Z) (s : socket) (p : process)
  : option (Wire.byte * Wire.byte * process) :=
  if negb (can_write s) then None
  else
    let federation_id_length := Z.of_nat (strnlen (federation_id p) 255) in
    let p1 := log (SysWrite fd (FED_ID :: Wire.encode_ushort id
                                  ++ [Z.land federation_id_length 255])) p in
    let p2 := log (SysWrite fd (firstn (Z.to_nat federation_id_length) (federation_id p))) p1 in
    match read_from_socket 1 s with
    | None => None
    | Some (response, s1) =>
        if hd 0 response =? REJECT then
          match read_from_socket 1 s1 with
          | None => None
          | Some (cause, _) => Some (hd 0 response, hd 0 cause, p2)
          end
        else Some (hd 0 response, 0, p2)
    end.

(** The [while (result < 0)] loop of [connect_to_rti].  On success the
    port that was reached is returned with the state.  An interrupted
    [nanosleep] leads to [continue] at the end of the body, which
    changes nothing, so the result of the sleep is not recorded. *)
Fixpoint connect_rti_loop (id : Z) (specific_port_given : bool) (attempts : list attempt)
    (port count_retries : Z) (p : process) : option (run (Z * process)) :=
  match attempts with
  | [] => None
  | a :: rest =>
      let p1 := set_rti_socket (socket_fd a) p in
      if socket_fd a <? 0 then Some (Exit p1)
      else if negb (host_found a) then Some (Exit p1)
      else
        let p2 := log (SysConnect (socket_fd a) port) p1 in
        if negb (connected a) && negb specific_port_given
           && (port >=? STARTING_PORT) && (port <=? STARTING_PORT + PORT_RANGE_LIMIT) then
          connect_rti_loop id specific_port_given rest (port + 1) count_retries p2
        else if negb (connected a) then
          let port :=
            if negb specific_port_given && (port =? STARTING_PORT + PORT_RANGE_LIMIT + 1)
            then STARTING_PORT else port in
          let count_retries := count_retries + 1 in
          if count_retries >? CONNECT_NUM_RETRIES then Some (Exit p2)
          else connect_rti_loop id specific_port_given rest port count_retries
                 (log (SysSleep CONNECT_RETRY_INTERVAL 0) p2)
        else
          match rti_handshake id (socket_fd a) (remote a) p2 with
          | None => Some (Exit p2)
          | Some (response, cause, p3) =>
              if response =? REJECT then
                if (cause =? FEDERATION_ID_DOES_NOT_MATCH) || (cause =? WRONG_SERVER) then
                  connect_rti_loop id specific_port_given rest (port + 1) count_retries p3
                else Some (Exit p3)
              else Some (Done (port, p3))
          end
  end.

(** [connect_to_rti(id, hostname, port)]; a [port] of 0 stands for "no
    port specified". *)
Definition connect_to_rti (id : Z) (port : Z) (attempts : list attempt) (p : process)
  : option (run (Z * process)) :=
  if port =? 0 then connect_rti_loop id false attempts STARTING_PORT 0 p
  else connect_rti_loop id true attempts port 0 p.

End WithConstants.

(** The number of attempts in which [connect()] fails. *)
Fixpoint failed_connects (attempts : list attempt) : Z :=
  match attempts with
  | [] => 0
  | a :: rest => (if connected a then 0 else 1) + failed_connects rest
  end.

(** An attempt after which [connect_to_federate] tries again: [socket()]
    succeeds, and [connect()] fails or the peer answers with something
    other than [ack], followed by an error code. *)
Definition retried (ack : Wire.byte) (a : attempt) : Prop :=
  0 <= socket_fd a
  /\ (connected a = true ->
      can_write (remote a) = true
      /\ exists response code later,
           incoming (remote a) = response :: code :: later /\ response <> ack).

(** An attempt in which only [connect()] fails. *)
Definition connect_fails (a : attempt) : Prop :=
  0 <= socket_fd a /\ host_found a = true /\ connected a = false.

(** The port scan recorded in a log: the port of each [connect()] and
    [None] for each sleep, other calls left out. *)
Fixpoint scan_of (cs : list sys_call) : list (option Z) :=
  match cs with
  | [] => []
  | SysConnect _ port :: rest => Some port :: scan_of rest
  | SysSleep _ _ :: rest => None :: scan_of rest
  | _ :: rest => scan_of rest
  end.

(** A scan cut at its sleeps: the ports tried in each pass. *)
Fixpoint split_at_sleeps (scan : list (option Z)) : list (list Z) :=
  match scan with
  | [] => [[]]
  | Some port :: rest =>
      match split_at_sleeps rest with
      | pass :: later => (port :: pass) :: later
      | [] => [[port]]
      end
  | None :: rest => [] :: split_at_sleeps rest
  end.

(** The ports [first], [first + 1], ..., [n] of them. *)
Definition ports_from (first : Z) (n : nat) : list Z :=
  map (fun k => first + Z.of_nat k) (seq 0 n).

(** The scan made of [n + 1] passes with a sleep between them, each pass
    trying [width] ports from [first] on. *)
Fixpoint scan_passes (first : Z) (width : nat) (n : nat) : list (option Z) :=
  match n with
  | O => map Some (ports_from first width)
  | S m => map Some (ports_from first width) ++ None :: scan_passes first width m
  end.

End Connect.

(** ** Concrete inputs on which the model is run *)
Module Sample.
Import Sys.

(** Federate 1 of a federation named "abc", at logical time 1000, with no
    peer connected yet. *)
Definition federate : process := {|
  _lf_my_fed_id := 1;
  federation_id := [97; 98; 99];
  current_time := 1000;
  _lf_rti_socket := 3;
  _lf_number_of_inbound_physical_connections := 1;
  _lf_federate_sockets_for_inbound_physical_connections := [-1; -1; -1];
  _lf_federate_sockets_for_outbound_physical_connections := [-1; -1; -1];
  scheduled := [];
  calls := []
|}.

(** The same federate once federate 2 has connected on descriptor 7. *)
Definition federate_with_peer : process := set_inbound 2 7 federate.

(** A connection on which the given bytes arrive before the peer closes it. *)
Definition stream (bytes : list Wire.byte) : socket :=
  {| incoming := bytes; at_end := PeerClosed; writable := true; closed := false |}.


(** [__action_for_port] of a program with four ports. *)
Definition action_for_port (port_id : Z) : option Sys.trigger_t :=
  if (0 <=? port_id) && (port_id <? 4)
  then Some {| Sys.trigger_id := 4096 + 64 * port_id; Sys.element_size := 1 |}
  else None.

(** A [P2P_SENDING_FED_ID] frame from federate 2 announcing the
    federation "abcd". *)
Definition hello_abcd : list Wire.byte := [15; 2; 0; 4] ++ [97; 98; 99; 100].

(** An attempt in which [socket()] returns [fd] and [connect()] fails. *)
Definition refused (fd : Z) : Connect.attempt :=
  {| Connect.socket_fd := fd; Connect.host_found := true;
     Connect.connected := false; Connect.remote := stream [] |}.

End Sample.

(** ** Further constants of [rti.h] *)

(** Modelled from the spec: [rti.h] is not among the sources.  The type
    bytes of the messages handled by the RTI reader and written at
    start-up are taken as parameters, like the ones above. *)
Class rti_h_types : Set := {
  ADDRESS_AD : Z;
  TIMESTAMP : Z;
  TIMED_MESSAGE : Z;
  TIME_ADVANCE_GRANT : Z
}.

(** A small instance, used to run the model on concrete inputs. *)
Definition sample_rti_h_types : rti_h_types := {|
  ADDRESS_AD := 14;
  TIMESTAMP := 2;
  TIMED_MESSAGE := 5;
  TIME_ADVANCE_GRANT := 7
|}.

(** ** Critical sections and sleeping on Arduino ([lf_arduino_support.c],
    lines 43-103 and 132-176) *)
Module Platform.

(** The [static volatile] variables of the file, with the interrupt enable
    of the processor that [noInterrupts()] and [interrupts()] switch. *)
Record platform_state : Set := {
  _lf_async_event : bool;
  _lf_num_nested_critical_sections : Z;
  interrupts_on : bool;
  timer : Arduino.clock_state
}.

(** The state after reset: no event, no critical section, interrupts on. *)
Definition power_on : platform_state := {|
  _lf_async_event := false;
  _lf_num_nested_critical_sections := 0;
  interrupts_on := true;
  timer := Arduino.clock_init
|}.

Definition set_async_event (b : bool) (st : platform_state) : platform_state := {|
  _lf_async_event := b;
  _lf_num_nested_critical_sections := _lf_num_nested_critical_sections st;
  interrupts_on := interrupts_on st;
  timer := timer st
|}.

Definition set_timer (c : Arduino.clock_state) (st : platform_state) : platform_state := {|
  _lf_async_event := _lf_async_event st;
  _lf_num_nested_critical_sections := _lf_num_nested_critical_sections st;
  interrupts_on := interrupts_on st;
  timer := c
|}.

(** The state with another nesting count and interrupt enable. *)
Definition with_sections (n : Z) (enabled : bool) (st : platform_state) : platform_state := {|
  _lf_async_event := _lf_async_event st;
  _lf_num_nested_critical_sections := n;
  interrupts_on := enabled;
  timer := timer st
|}.

(** [lf_platform_enable_interrupts_nested()]: despite its name it enters a
    critical section.  The counter is an [int]; the post-increment is
    compared with 0 before it takes effect. *)
Definition lf_platform_enable_interrupts_nested (st : platform_state) : Z * platform_state :=
  let n := _lf_num_nested_critical_sections st in
  (0, {| _lf_async_event := _lf_async_event st;
         _lf_num_nested_critical_sections := Wire.to_signed 32 (n + 1);
         interrupts_on := if n =? 0 then false else interrupts_on st;
         timer := timer st |}).

(** [lf_platform_disable_interrupts_nested()]: leaves a critical section;
    returns 1 and does nothing when none is open. *)
Definition lf_platform_disable_interrupts_nested (st : platform_state) : Z * platform_state :=
  let n := _lf_num_nested_critical_sections st in
  if n <=? 0 then (1, st)
  else
    let n' := Wire.to_signed 32 (n - 1) in
    (0, {| _lf_async_event := _lf_async_event st;
           _lf_num_nested_critical_sections := n';
           interrupts_on := if n' =? 0 then true else interrupts_on st;
           timer := timer st |}).


(** A call of one of the two critical-section functions. *)
Inductive section_call : Set := EnterSection | LeaveSection.

Definition run_section_call (c : section_call) (st : platform_state) : Z * platform_state :=
  match c with
  | EnterSection => lf_platform_enable_interrupts_nested st
  | LeaveSection => lf_platform_disable_interrupts_nested st
  end.

(** A sequence of such calls: the values returned, in order, and the state
    after the last one. *)
Fixpoint run_section_calls (cs : list section_call) (st : platform_state)
  : list Z * platform_state :=
  match cs with
  | [] => ([], st)
  | c :: rest =>
      let '(r, st1) := run_section_call c st in
      let '(rs, st2) := run_section_calls rest st1 in
      (r :: rs, st2)
  end.

(** What the two functions keep true: the counter is not negative (and at
    most [bound]) and interrupts are off exactly while it is positive. *)
Definition sections_consistent (bound : Z) (st : platform_state) : Prop :=
  0 <= _lf_num_nested_critical_sections st <= bound
  /\ interrupts_on st = (_lf_num_nested_critical_sections st =? 0).

(** One round of the busy-wait loop as the hardware decides it: the elapsed
    time at which [micros()] is read, and whether an interrupt handler
    called [lf_platform_notify_of_event] before the loop condition is
    tested. *)
Record tick : Set := { elapsed_us : Z; notified : bool }.

(** The [do ... while ((now < wakeup) && !_lf_async_event)] loop of
    [lf_sleep_until_locked]: the last value of [now] and the state when
    the loop is left; [None] is a loop still running when the list of
    rounds is used up. *)
Fixpoint busy_wait (wakeup : Z) (ticks : list tick) (st : platform_state)
  : option (Z * platform_state) :=
  match ticks with
  | [] => None
  | k :: rest =>
      let '(now, clock) := Arduino.lf_clock_gettime (Arduino.micros (elapsed_us k)) (timer st) in
      let st1 := set_async_event (_lf_async_event st || notified k) (set_timer clock st) in
      if (now <? wakeup) && negb (_lf_async_event st1) then busy_wait wakeup rest st1
      else Some (now, st1)
  end.

(** [lf_sleep_until_locked(wakeup)].  [late] tells whether an interrupt
    notifies an event between the end of the loop and the re-entry into
    the critical section.  [lf_critical_section_exit] and
    [lf_critical_section_enter] belong to [platform.h]; what they let
    through is what [notified] and [late] record. *)
Definition lf_sleep_until_locked (wakeup : Z) (ticks : list tick) (late : bool)
    (st : platform_state) : option (Z * platform_state) :=
  match busy_wait wakeup ticks (set_async_event false st) with
  | None => None
  | Some (_, st1) =>
      let st2 := set_async_event (_lf_async_event st1 || late) st1 in
      if _lf_async_event st2 then Some (-1, set_async_event false st2)
      else Some (0, st2)
  end.

(** [lf_sleep(sleep_duration)]: one clock read, made when [first_us]
    microseconds have elapsed, then the sleep until [now + sleep_duration]. *)
Definition lf_sleep (sleep_duration : Z) (first_us : Z) (ticks : list tick) (late : bool)
    (st : platform_state) : option (Z * platform_state) :=
  let '(now, clock) := Arduino.lf_clock_gettime (Arduino.micros first_us) (timer st) in
  lf_sleep_until_locked (Wire.to_signed 64 (now + sleep_duration)) ticks late
    (set_timer clock st).


End Platform.

(** ** Sending timed messages ([federate.c], lines 258-288) *)
Module Send.
Import Sys.

(** The 17 bytes [send_message_timed] puts into [buffer]: the type byte,
    the port and the federate as 16-bit values, the length as a 32-bit
    value and the time stamp. *)
Definition timed_header (message_type port federate length timestamp : Z) : list Wire.byte :=
  [message_type mod 256] ++ Wire.encode_ushort port ++ Wire.encode_ushort federate
    ++ Wire.encode_int length ++ Wire.encode_ll timestamp.

(** [send_message_timed(socket, message_type, port, federate, length,
    message)], [length] being the length of [message]; [s] tells whether
    the socket takes the bytes.  The time stamp is the logical time of the
    sender. *)
Definition send_message_timed (socket_id : Z) (s : socket) (message_type port federate : Z)
    (message : list Wire.byte) (p : process) : run process :=
  if negb (port <? 65536) then AssertFailed p
  else if negb (federate <? 65536) then AssertFailed p
  else
    let buffer :=
      timed_header message_type port federate (Z.of_nat (length message)) (current_time p) in
    if can_write s then
      Done (log (SysWrite socket_id message) (log (SysWrite socket_id buffer) p))
    else Exit p.

(** A message as a sender hands it over: the port, the logical time of the
    sender at the call, and the payload. *)
Record timed_msg : Set := {
  msg_port : Z;
  msg_time : Z;
  msg_payload : list Wire.byte
}.

(** The bytes one call of [send_message_timed] puts on the socket. *)
Definition frame_of (message_type federate : Z) (m : timed_msg) : list Wire.byte :=
  timed_header message_type (msg_port m) federate (Z.of_nat (length (msg_payload m)))
    (msg_time m) ++ msg_payload m.

(** A message that fits the fields of the header. *)
Definition fits_header (m : timed_msg) : Prop :=
  0 <= msg_port m < 65536
  /\ Z.of_nat (length (msg_payload m)) < 2 ^ 32
  /\ Wire.in_ll (msg_time m).

(** The scheduler call a receiver at logical time [now] makes for a
    message whose port has the action [action]. *)
Definition scheduled_for (now : Z) (action : trigger_t) (m : timed_msg) : schedule_call :=
  {| sc_trigger := action;
     sc_extra_delay := Wire.sub_ll (msg_time m) now;
     sc_element_size := element_size action;
     sc_value := msg_payload m;
     sc_length := Wire.to_signed 32 (Z.of_nat (length (msg_payload m))) |}.

End Send.

(** ** The RTI reader and the start time ([federate.c], lines 690-722,
    816-866 and 927-952) *)
Module Rti.
Import Sys.

(** How the thread of [listen_to_rti] ends: its loop has no [break], so it
    ends with the process, or in the undefined behaviour of a null
    dereference. *)
Inductive rti_end : Set :=
| RtiExit (p : process) (st : Coordinator.fed_state)
| RtiAssertFailed (p : process) (st : Coordinator.fed_state)
| RtiNullDereference (p : process) (st : Coordinator.fed_state).

(** The whole of [handle_time_advance_grant()]: the eight bytes are read
    from the RTI socket and decoded, then the value is stored. *)
Definition handle_time_advance_grant_from (s : socket) (st : Coordinator.fed_state)
  : option (socket * Coordinator.fed_state) :=
  match read_from_socket 8 s with
  | None => None
  | Some (c, s1) => Some (s1, Coordinator.handle_time_advance_grant (Wire.extract_ll c) st)
  end.

(** The whole of [handle_incoming_stop_message()]. *)
Definition handle_incoming_stop_message_from (s : socket) (st : Coordinator.fed_state)
  : option (socket * Coordinator.fed_state) :=
  match read_from_socket 8 s with
  | None => None
  | Some (c, s1) => Some (s1, Coordinator.handle_incoming_stop_message (Wire.extract_ll c) st)
  end.

Section WithConstants.
Context `{rti_h} `{rti_h_types}.

(** The [while (1)] loop of [listen_to_rti]; the [case] labels are tried
    in the order of the [switch].  [None] is a loop still running when the
    fuel is used up. *)
Fixpoint listen_to_rti (fuel : nat) (__action_for_port : Z -> option trigger_t) (s : socket)
    (p : process) (st : Coordinator.fed_state) : option rti_end :=
  match fuel with
  | O => None
  | S fuel' =>
      match read_from_socket 1 s with
      | None => Some (RtiExit p st)
      | Some (buffer, s1) =>
          if hd 0 buffer =? TIMED_MESSAGE then
            match Reader.handle_timed_message __action_for_port s1 p with
            | Done (s2, p2) => listen_to_rti fuel' __action_for_port s2 p2 st
            | Exit p2 => Some (RtiExit p2 st)
            | AssertFailed p2 => Some (RtiAssertFailed p2 st)
            | NullDereference p2 => Some (RtiNullDereference p2 st)
            end
          else if hd 0 buffer =? TIME_ADVANCE_GRANT then
            match handle_time_advance_grant_from s1 st with
            | Some (s2, st2) => listen_to_rti fuel' __action_for_port s2 p st2
            | None => Some (RtiExit p st)
            end
          else if hd 0 buffer =? STOP then
            match handle_incoming_stop_message_from s1 st with
            | Some (s2, st2) => listen_to_rti fuel' __action_for_port s2 p st2
            | None => Some (RtiExit p st)
            end
          else Some (RtiExit p st)
      end
  end.

(** [get_start_time_from_rti(my_physical_time)]; [s] is the connection to
    the RTI. *)
Definition get_start_time_from_rti (my_physical_time : Z) (s : socket) (p : process)
  : run (Z * process) :=
  if negb (can_write s) then Exit p
  else
    let p1 := log (SysWrite (_lf_rti_socket p) [TIMESTAMP]) p in
    let p2 := log (SysWrite (_lf_rti_socket p) (Wire.encode_ll my_physical_time)) p1 in
    match read_from_socket 9 s with
    | None => Exit p2
    | Some (buffer, _) =>
        if negb (hd 0 buffer =? TIMESTAMP) then Exit p2
        else Done (Wire.extract_ll (tl buffer), p2)
    end.

(** The bytes the RTI writes for an action of the coordinator's
    environment: a grant or a stop request with its time. *)
Definition frame_of_action (a : Coordinator.env_action) : list Wire.byte :=
  match a with
  | Coordinator.TagArrives g => TIME_ADVANCE_GRANT :: Wire.encode_ll g
  | Coordinator.StopArrives t => STOP :: Wire.encode_ll t
  | Coordinator.QueueChanged _ => []
  end.

End WithConstants.

(** An action that the RTI causes with one frame. *)
Definition from_rti (a : Coordinator.env_action) : Prop :=
  match a with
  | Coordinator.TagArrives g => Wire.in_ll g
  | Coordinator.StopArrives t => True
  | Coordinator.QueueChanged _ => False
  end.

End Rti.

(** ** The server socket for peers ([federate.c], lines 166-237) *)
Module Server.
Import Sys.

(** The calls [create_server] makes, in order. *)
Inductive server_call : Set :=
| SrvBind (fd : Z) (port : Z)
| SrvListen (fd : Z) (backlog : Z)
| SrvWriteRti (bytes : list Wire.byte).

(** The two globals [create_server] sets, and its calls. *)
Record server_state : Set := {
  _lf_server_port : Z;
  _lf_server_socket : Z;
  server_calls : list server_call
}.

Definition server_log (c : server_call) (st : server_state) : server_state := {|
  _lf_server_port := _lf_server_port st;
  _lf_server_socket := _lf_server_socket st;
  server_calls := server_calls st ++ [c]
|}.

(** How [create_server] ends: with the server listening, or with the process. *)
Inductive server_end : Set :=
| ServerUp (st : server_state)
| ServerExit (st : server_state).

Section WithConstants.
Context `{rti_h} `{rti_h_types}.

(** The [while (result != 0 && ...)] loop of [create_server], entered after
    a failed [bind()]: the list holds the results of the [bind()] calls
    still to come ([true] for success).  It gives the last result and the
    last port tried; [None] when the list is used up. *)
Fixpoint bind_next (specified_port fd : Z) (binds : list bool) (port : Z) (st : server_state)
  : option (bool * Z * server_state) :=
  if (specified_port =? 0) && (port >=? STARTING_PORT)
     && (port <=? STARTING_PORT + PORT_RANGE_LIMIT) then
    match binds with
    | [] => None
    | ok :: rest =>
        let st1 := server_log (SrvBind fd (port + 1)) st in
        if ok then Some (true, port + 1, st1)
        else bind_next specified_port fd rest (port + 1) st1
    end
  else Some (false, port, st).

(** [create_server(specified_port)]: [socket_descriptor] is what
    [socket()] returns, [rti] the connection to the RTI. *)
Definition create_server (specified_port socket_descriptor : Z) (binds : list bool)
    (rti : socket) (st : server_state) : option server_end :=
  let port := if specified_port =? 0 then STARTING_PORT else specified_port in
  if socket_descriptor <? 0 then Some (ServerExit st)
  else
    match binds with
    | [] => None
    | ok :: rest =>
        let st1 := server_log (SrvBind socket_descriptor port) st in
        match (if ok then Some (true, port, st1)
               else bind_next specified_port socket_descriptor rest port st1) with
        | None => None
        | Some (false, _, st2) => Some (ServerExit st2)
        | Some (true, port, st2) =>
            let st3 := server_log (SrvListen socket_descriptor 128) st2 in
            let st4 := {| _lf_server_port := port;
                          _lf_server_socket := _lf_server_socket st3;
                          server_calls := server_calls st3 |} in
            if negb (can_write rti) then Some (ServerExit st4)
            else
              let st5 := server_log (SrvWriteRti (ADDRESS_AD :: Wire.encode_int port)) st4 in
              Some (ServerUp {| _lf_server_port := _lf_server_port st5;
                                _lf_server_socket := socket_descriptor;
                                server_calls := server_calls st5 |})
        end
    end.

End WithConstants.

(** The ports of the [bind()] calls in a log, in order. *)
Fixpoint binds_of (cs : list server_call) : list Z :=
  match cs with
  | [] => []
  | SrvBind _ port :: rest => port :: binds_of rest
  | _ :: rest => binds_of rest
  end.

(** Before [create_server] is called: [_lf_server_port] is -1. *)
Definition no_server : server_state :=
  {| _lf_server_port := -1; _lf_server_socket := 0; server_calls := [] |}.

End Server.

(** ** Reading the logs of system calls *)
Module Trace.
Import Sys.

(** The process state in which a run ends, however it ends. *)
Definition end_state (r : run process) : process :=
  match r with
  | Done p => p
  | Exit p => p
  | AssertFailed p => p
  | NullDereference p => p
  end.

(** The same for a run that hands back a value with the state. *)
Definition end_state_with {A : Type} (state_of : A -> process) (r : run A) : process :=
  match r with
  | Done a => state_of a
  | Exit p => p
  | AssertFailed p => p
  | NullDereference p => p
  end.

(** The descriptors closed in a log, in order. *)
Fixpoint closes_of (cs : list sys_call) : list Z :=
  match cs with
  | [] => []
  | SysClose fd :: rest => fd :: closes_of rest
  | _ :: rest => closes_of rest
  end.

(** The number of threads started in a log. *)
Fixpoint spawns_of (cs : list sys_call) : Z :=
  match cs with
  | [] => 0
  | SysSpawn _ _ :: rest => 1 + spawns_of rest
  | _ :: rest => spawns_of rest
  end.

(** A C string without a NUL byte inside. *)
Definition nul_free (s : list Wire.byte) : Prop := Forall (fun c => c <> 0) s.

End Trace.

(** ** Inputs for concrete runs of the further functions *)
Module Scenario.
Import Sys.

(** Federate 2 of the federation "abc", at logical time 400: a sender of
    messages to [Sample.federate]. *)
Definition upstream_federate : process := {|
  _lf_my_fed_id := 2;
  federation_id := [97; 98; 99];
  current_time := 400;
  _lf_rti_socket := 3;
  _lf_number_of_inbound_physical_connections := 0;
  _lf_federate_sockets_for_inbound_physical_connections := [-1; -1; -1];
  _lf_federate_sockets_for_outbound_physical_connections := [-1; -1; -1];
  scheduled := [];
  calls := []
|}.

(** Two messages for federate 1: two bytes for port 3 stamped 400, and an
    empty one for port 0 stamped 2000. *)
Definition two_messages : list Send.timed_msg :=
  [ {| Send.msg_port := 3; Send.msg_time := 400; Send.msg_payload := [7; 9] |};
    {| Send.msg_port := 0; Send.msg_time := 2000; Send.msg_payload := [] |} ].

(** An attempt in which [connect()] succeeds on descriptor [fd] and the
    other side answers with [bytes]. *)
Definition answered (fd : Z) (bytes : list Wire.byte) : Connect.attempt :=
  {| Connect.socket_fd := fd; Connect.host_found := true;
     Connect.connected := true; Connect.remote := Sample.stream bytes |}.

(** A peer connecting on descriptor [fd] that sends [bytes]. *)
Definition caller (fd : Z) (bytes : list Wire.byte) : Accept.connection :=
  {| Accept.socket_id := fd; Accept.peer := Sample.stream bytes;
     Accept.stack_after := []; Accept.thread_created := true |}.

(** A [P2P_SENDING_FED_ID] frame from federate 2 announcing the
    federation "abd", and one announcing "abc". *)
Definition hello_abd : list Wire.byte := [15; 2; 0; 3] ++ [97; 98; 100].

Definition hello_abc : list Wire.byte := [15; 2; 0; 3] ++ [97; 98; 99].

(** What the RTI does while a federate waits: a grant of 10, a stop
    request for 50, a grant of 25. *)
Definition rti_actions : list Coordinator.env_action :=
  [Coordinator.TagArrives 10; Coordinator.StopArrives 50; Coordinator.TagArrives 25].

(** Calls entering and leaving critical sections, one of them unmatched. *)
Definition section_calls : list Platform.section_call :=
  [Platform.EnterSection; Platform.EnterSection; Platform.LeaveSection;
   Platform.LeaveSection; Platform.LeaveSection; Platform.EnterSection].


End Scenario.

(* ===================================================================== *)
(** * Part II: properties                                                 *)
(* ===================================================================== *)

(** ** Machine integers *)
Section WireFacts.
Import Wire.

Lemma to_signed_in_range (v : Z) : in_ll v -> to_signed 64 v = v.
Proof.
  unfold in_ll, to_signed. intros Hv.
  destruct (Z.neg_nonneg_cases v) as [Hneg | Hpos].
  - replace (v mod 2 ^ 64) with (v + 2 ^ 64).
    + destruct (Z.ltb_spec (v + 2 ^ 64) (2 ^ (64 - 1))); lia.
    + apply (Z.mod_unique _ _ (-1)); lia.
  - rewrite Z.mod_small by lia.
    destruct (Z.ltb_spec v (2 ^ (64 - 1))); lia.
Qed.


(** The frame of the downstream-only scenario: 1_000_000 is 0x0F4240. *)
Example encode_ll_million : encode_ll 1000000 = [64; 66; 15; 0; 0; 0; 0; 0].
Proof. reflexivity. Qed.

Example extract_ll_negative : extract_ll [255; 255; 255; 255; 255; 255; 255; 255] = -1.
Proof. reflexivity. Qed.

End WireFacts.

(** ** The Arduino clock *)
Section ArduinoFacts.
Import Arduino.

(** No call changes [_lf_time_us_low_last]. *)
Lemma lf_clock_gettime_keeps_low_last (now_us_low : Z) (st : clock_state) :
  _lf_time_us_low_last (snd (lf_clock_gettime now_us_low st)) = _lf_time_us_low_last st.
Proof. reflexivity. Qed.

(** With [_lf_time_us_low_last] at its initial 0 the comparison never
    succeeds on a counter value, so the high word stays where it is. *)
Lemma lf_clock_gettime_keeps_high (e : Z) (st : clock_state) :
  _lf_time_us_low_last st = 0 ->
  snd (lf_clock_gettime (micros e) st) = st.
Proof.
  intros Hlast. unfold lf_clock_gettime, micros. rewrite Hlast. simpl snd.
  pose proof (Z.mod_pos_bound e (2 ^ 32) ltac:(lia)) as Hrange.
  destruct (Z.ltb_spec (e mod 2 ^ 32) 0); [lia |].
  destruct st as [high last]; simpl in *. now subst.
Qed.

Lemma lf_clock_gettime_low_word_only (e : Z) :
  fst (lf_clock_gettime (micros e) clock_init) = (e mod 2 ^ 32) * 1000.
Proof.
  unfold lf_clock_gettime, micros, clock_init, COMBINE_HI_LO.
  cbn [fst _lf_time_us_low_last _lf_time_us_high].
  pose proof (Z.mod_pos_bound e (2 ^ 32) ltac:(lia)) as Hrange.
  destruct (Z.ltb_spec (e mod 2 ^ 32) 0); [lia |].
  rewrite Z.shiftl_0_l, Z.mod_0_l, Z.lor_0_l by lia.
  apply to_signed_in_range. unfold Wire.in_ll. lia.
Qed.

(** From start-up on, every call returns 1000 times the low 32 bits of
    the elapsed time: wraparounds are not counted. *)
Lemma clock_reads_low_word_only (elapsed : list Z) :
  clock_reads elapsed clock_init = map (fun e => (e mod 2 ^ 32) * 1000) elapsed.
Proof.
  induction elapsed as [| e rest IH]; [reflexivity |].
  cbn [clock_reads map].
  pose proof (lf_clock_gettime_keeps_high e clock_init eq_refl) as Hst.
  pose proof (lf_clock_gettime_low_word_only e) as Ht.
  destruct (lf_clock_gettime (micros e) clock_init) as [t st'].
  simpl in Hst, Ht. subst. now rewrite IH.
Qed.

(** C6: the claim that reads made at least once per wraparound period
    return non-decreasing times equal to 1000 times the elapsed
    microseconds fails on the code.  Two reads, 6 microseconds apart, the
    second just after the 32-bit counter has wrapped: the first returns
    4294967295000, the second 5000 instead of 4294967301000. *)
Theorem lf_clock_gettime_misses_wraparound :
  let elapsed := [4294967295; 4294967301] in
  read_each_period 0 elapsed /\
  clock_reads elapsed clock_init = [4294967295000; 5000] /\
  map (fun e => e * 1000) elapsed = [4294967295000; 4294967301000].
Proof.
  cbv zeta. split; [| split]; [| reflexivity | reflexivity].
  simpl. lia.
Qed.

End ArduinoFacts.

(** ** The time-advance coordinator *)
Section CoordinatorFacts.
Import Coordinator.
Context `{rti_h}.

Lemma wait_for_tag_not_pending (t : instant_t) (wakes : list wake) (st : fed_state) :
  __tag_pending st = false -> wait_for_tag t wakes st = Some (__tag st, st).
Proof. intros Hp. destruct wakes; simpl; now rewrite Hp. Qed.

Lemma wait_for_tag_blocked (t : instant_t) (st : fed_state) :
  __tag_pending st = true -> wait_for_tag t [] st = None.
Proof. intros Hp. simpl. now rewrite Hp. Qed.

Lemma wait_for_tag_wake (t : instant_t) (w : wake) (rest : list wake) (st : fed_state) :
  __tag_pending st = true ->
  wait_for_tag t (w :: rest) st =
    let st' := run_wake w st in
    if __tag_pending st' then
      match pqueue_peek (event_q st') with
      | Some head_event =>
          if time head_event <? t then Some (time head_event, st')
          else wait_for_tag t rest st'
      | None => wait_for_tag t rest st'
      end
    else wait_for_tag t rest st'.
Proof. intros Hp. simpl. now rewrite Hp. Qed.

(** Only a grant clears [__tag_pending], and the grant that cleared it
    last is the value of [__tag]. *)
Lemma run_wake_pending_cleared (w : wake) (st : fed_state) :
  __tag_pending (run_wake w st) = false ->
  (__tag_pending st = false /\ __tag (run_wake w st) = __tag st /\ grants w = [])
  \/ exists g, In (TagArrives g) w /\ __tag (run_wake w st) = g.
Proof.
  revert st. induction w as [| a w IH]; intros st Hp.
  - left. auto.
  - unfold run_wake in *. simpl in Hp |- *.
    destruct (IH _ Hp) as [(Hp' & Htag & Hnone) | (g & Hin & Htag)].
    + destruct a as [g | s | q]; simpl in *.
      * right. exists g. split; [now left | exact Htag].
      * left. auto.
      * left. auto.
    + right. exists g. split; [now right | exact Htag].
Qed.

(** Without a grant, a wake leaves both [__tag] and [__tag_pending] alone. *)
Lemma run_wake_without_grant (w : wake) (st : fed_state) :
  grants w = [] ->
  __tag (run_wake w st) = __tag st /\ __tag_pending (run_wake w st) = __tag_pending st.
Proof.
  revert st. induction w as [| a w IH]; intros st Hg; [auto |].
  unfold run_wake in *. simpl.
  destruct a as [g | s | q]; simpl in Hg; [discriminate | |].
  - destruct (IH (run_action st (StopArrives s)) Hg) as [Htag Hpending].
    now rewrite Htag, Hpending.
  - destruct (IH (run_action st (QueueChanged q)) Hg) as [Htag Hpending].
    now rewrite Htag, Hpending.
Qed.

(** What the wait loop can return. *)
Lemma wait_for_tag_result (t : instant_t) (wakes : list wake) (st st' : fed_state) (r : instant_t) :
  __tag_pending st = true ->
  wait_for_tag t wakes st = Some (r, st') ->
  (exists h, pqueue_peek (event_q st') = Some h /\ r = time h /\ r < t
             /\ __tag_pending st' = true)
  \/ (__tag_pending st' = false /\ r = __tag st'
      /\ exists w g, In w wakes /\ In (TagArrives g) w /\ r = g).
Proof.
  revert st. induction wakes as [| w rest IH]; intros st Hp Hres.
  - rewrite wait_for_tag_blocked in Hres by assumption. discriminate.
  - rewrite wait_for_tag_wake in Hres by assumption. cbv zeta in Hres.
    destruct (__tag_pending (run_wake w st)) eqn:Hp'.
    + assert (Hrec : wait_for_tag t rest (run_wake w st) = Some (r, st') ->
                     (exists h, pqueue_peek (event_q st') = Some h /\ r = time h /\ r < t
                                /\ __tag_pending st' = true)
                     \/ (__tag_pending st' = false /\ r = __tag st'
                         /\ exists w0 g, In w0 (w :: rest) /\ In (TagArrives g) w0 /\ r = g)).
      { intros Hrest. destruct (IH _ Hp' Hrest) as [Hl | (Hq & Hr & w0 & g & Hin & Hg & Heq)].
        - now left.
        - right. repeat split; try assumption. exists w0, g. simpl. auto. }
      destruct (pqueue_peek (event_q (run_wake w st))) as [h |] eqn:Hpeek; [| auto].
      destruct (Z.ltb_spec (time h) t) as [Hlt | Hge]; [| auto].
      injection Hres as <- <-. left. exists h. auto.
    + rewrite wait_for_tag_not_pending in Hres by assumption.
      injection Hres as <- <-.
      destruct (run_wake_pending_cleared w st Hp') as [(Hcontra & _) | (g & Hin & Htag)];
        [congruence |].
      right. repeat split; try assumption. exists w, g. simpl. auto.
Qed.

Lemma next_event_time_waits (t : instant_t) (wakes : list wake) (st : fed_state) :
  __fed_has_upstream st = true -> __tag st < t ->
  __next_event_time t wakes st =
    wait_for_tag t wakes (set_tag (__tag st) true (send_time NEXT_EVENT_TIME t st)).
Proof.
  intros Hup Hlt. unfold __next_event_time. simpl. rewrite Hup. simpl.
  rewrite andb_false_r.
  destruct (Z.geb_spec (__tag st) t); [lia | reflexivity].
Qed.

(** Along any sequence of actions whose grants do not decrease, [__tag]
    does not decrease. *)
Lemma run_wake_grants_split (acts1 acts2 : list env_action) (st : fed_state) :
  nondecreasing_from (__tag st) (grants (acts1 ++ acts2)) ->
  nondecreasing_from (__tag st) (grants acts1)
  /\ nondecreasing_from (__tag (run_wake acts1 st)) (grants acts2).
Proof.
  revert st. induction acts1 as [| a acts1 IH]; intros st Hnd.
  - simpl. auto.
  - unfold run_wake in *. destruct a as [g | s | q]; simpl in *.
    + destruct Hnd as [Hle Hnd]. destruct (IH (handle_time_advance_grant g st) Hnd). auto.
    + apply (IH (handle_incoming_stop_message s st) Hnd).
    + apply (IH (set_event_q q st) Hnd).
Qed.

Lemma run_wake_tag_lower_bound (acts : list env_action) (st : fed_state) :
  nondecreasing_from (__tag st) (grants acts) ->
  __tag st <= __tag (run_wake acts st).
Proof.
  revert st. induction acts as [| a acts IH]; intros st Hnd.
  - simpl. lia.
  - unfold run_wake in *. destruct a as [g | s | q]; simpl in *.
    + destruct Hnd as [Hle Hnd].
      specialize (IH (handle_time_advance_grant g st) Hnd). simpl in IH. lia.
    + apply (IH (handle_incoming_stop_message s st) Hnd).
    + apply (IH (set_event_q q st) Hnd).
Qed.

(** What no action of another thread changes, and what it only sets. *)
Lemma run_wake_keeps (w : wake) (st : fed_state) :
  __fed_has_upstream (run_wake w st) = __fed_has_upstream st
  /\ __fed_has_downstream (run_wake w st) = __fed_has_downstream st
  /\ rti_socket_out (run_wake w st) = rti_socket_out st
  /\ (stop_requested st = true -> stop_requested (run_wake w st) = true).
Proof.
  revert st. induction w as [| a w IH]; intros st; [auto |].
  unfold run_wake in *. cbn [fold_left].
  destruct (IH (run_action st a)) as (Hup & Hdown & Hout & Hstop).
  rewrite Hup, Hdown, Hout.
  destruct a; simpl in *; auto.
Qed.

(** The state in which the wait loop returns is the one left by the
    wake-ups it has gone through. *)
Lemma wait_for_tag_keeps (t : instant_t) (wakes : list wake) :
  forall (st st' : fed_state) (r : instant_t),
    wait_for_tag t wakes st = Some (r, st') ->
    __fed_has_upstream st' = __fed_has_upstream st
    /\ __fed_has_downstream st' = __fed_has_downstream st
    /\ rti_socket_out st' = rti_socket_out st
    /\ (stop_requested st = true -> stop_requested st' = true).
Proof.
  induction wakes as [| w rest IH]; intros st st' r Hrun.
  - simpl in Hrun. destruct (__tag_pending st); [discriminate |].
    injection Hrun as _ <-. auto.
  - destruct (__tag_pending st) eqn:Hp.
    + rewrite wait_for_tag_wake in Hrun by assumption. cbv zeta in Hrun.
      destruct (run_wake_keeps w st) as (Hup & Hdown & Hout & Hstop).
      assert (Hrec : wait_for_tag t rest (run_wake w st) = Some (r, st') ->
                     __fed_has_upstream st' = __fed_has_upstream st
                     /\ __fed_has_downstream st' = __fed_has_downstream st
                     /\ rti_socket_out st' = rti_socket_out st
                     /\ (stop_requested st = true -> stop_requested st' = true)).
      { intros Hrest. destruct (IH _ _ _ Hrest) as (Hup' & Hdown' & Hout' & Hstop').
        rewrite Hup', Hdown', Hout'. repeat split; auto. }
      destruct (__tag_pending (run_wake w st)); [| auto].
      destruct (pqueue_peek (event_q (run_wake w st))) as [h |]; [| auto].
      destruct (time h <? t); [| auto].
      injection Hrun as _ <-. repeat split; auto.
    + rewrite wait_for_tag_not_pending in Hrun by assumption.
      injection Hrun as _ <-. auto.
Qed.

(** After a wake in which grants arrived, [__tag] holds the last of them
    and no grant is pending. *)
Lemma run_wake_last_grant (w : wake) :
  forall (st : fed_state) (earlier : list instant_t) (g : instant_t),
    grants w = earlier ++ [g] ->
    __tag (run_wake w st) = g /\ __tag_pending (run_wake w st) = false.
Proof.
  induction w as [| a w IH]; intros st earlier g Hg.
  - destruct earlier; discriminate.
  - unfold run_wake in *. cbn [fold_left].
    destruct a as [g0 | s | q]; cbn [grants] in Hg.
    + destruct earlier as [| e earlier].
      * injection Hg as -> Hnone.
        destruct (run_wake_without_grant w (run_action st (TagArrives g)) Hnone)
          as [Htag Hpending].
        unfold run_wake in Htag, Hpending. now rewrite Htag, Hpending.
      * injection Hg as _ Hrest. now apply (IH _ earlier).
    + now apply (IH _ earlier).
    + now apply (IH _ earlier).
Qed.

(** C1 (as amended): a call of [__next_event_time(t)] that returns
    gives back [t] itself, or the time of the head event seen at the wake
    that caused the return, which is then earlier than [t], or the value
    of a TIME_ADVANCE_GRANT handled during the wait, which [__tag] still
    holds at the return.  The result is therefore at most [t] whenever
    that grant is. *)
Theorem next_event_time_returned_value
    (t : instant_t) (wakes : list wake) (st st' : fed_state) (r : instant_t) :
  __next_event_time t wakes st = Some (r, st') ->
  r = t
  \/ (exists h, pqueue_peek (event_q st') = Some h /\ r = time h /\ r < t
                /\ __tag_pending st' = true)
  \/ (__tag_pending st' = false /\ r = __tag st'
      /\ exists w g, In w wakes /\ In (TagArrives g) w /\ r = g /\ (g <= t -> r <= t)).
Proof.
  unfold __next_event_time.
  destruct (negb (__fed_has_downstream st) && negb (__fed_has_upstream st)).
  { intros [= <- <-]. now left. }
  destruct (__tag st >=? t).
  { intros [= <- <-]. now left. }
  destruct (negb (__fed_has_upstream (send_time NEXT_EVENT_TIME t st))).
  { intros [= <- <-]. now left. }
  intros Hres. right.
  apply wait_for_tag_result in Hres; [| reflexivity].
  destruct Hres as [Hhead | (Hp & Hr & w & g & Hw & Hg & Heq)]; [now left | right].
  repeat split; try assumption. exists w, g. repeat split; try assumption. lia.
Qed.

(** C2 (as amended): [__tag] starts at [NEVER] and holds the grant
    received last: [handle_time_advance_grant] stores the value it is
    given, whatever the previous one, and clears [__tag_pending]; actions
    of other kinds leave [__tag] alone.  So [__tag] never decreases over
    an execution in which the grants sent by the RTI do not decrease, and
    a grant that is at least the previous value leaves [__tag] at least
    that value. *)
Theorem tag_nondecreasing_with_grants
    (upstream downstream : bool) (earlier later : list env_action) :
  let st0 := initial_state upstream downstream in
  __tag st0 = NEVER
  /\ (forall g st,
        __tag (handle_time_advance_grant g st) = g
        /\ __tag_pending (handle_time_advance_grant g st) = false)
  /\ (forall acts st,
        (grants acts = [] -> __tag (run_wake acts st) = __tag st)
        /\ (forall before g, grants acts = before ++ [g] -> __tag (run_wake acts st) = g))
  /\ (nondecreasing_from NEVER (grants (earlier ++ later)) ->
      __tag (run_wake earlier st0) <= __tag (run_wake (earlier ++ later) st0))
  /\ (forall g st, __tag st <= g -> __tag st <= __tag (handle_time_advance_grant g st)).
Proof.
  intros st0. split; [reflexivity | split; [| split; [| split]]].
  - intros g st. split; reflexivity.
  - intros acts st. split.
    + intros Hnone. now apply run_wake_without_grant.
    + intros before g Hlast. now apply (run_wake_last_grant acts st before g).
  - intros Hnd.
    apply (run_wake_grants_split earlier later st0) in Hnd.
    destruct Hnd as [_ Hlater].
    unfold run_wake at 2. rewrite fold_left_app.
    now apply run_wake_tag_lower_bound.
  - intros g st Hle. exact Hle.
Qed.

(** C3: the fast paths of [__next_event_time(t)].  A federate with
    neither upstream nor downstream federates gets [t] back and nothing
    is sent; so does any federate when [__tag >= t]; otherwise one
    NEXT_EVENT_TIME frame carrying [t] is written to the RTI socket,
    whether the federate has upstream federates or not; a federate
    without upstream federates then gets [t] back at once, whatever
    wake-ups might follow, and one with upstream federates goes on to
    wait for the grant, the frame sent. *)
Theorem next_event_time_fast_paths (t : instant_t) (wakes : list wake) (st : fed_state) :
  (__fed_has_upstream st = false -> __fed_has_downstream st = false ->
     __next_event_time t wakes st = Some (t, st))
  /\ (t <= __tag st -> __next_event_time t wakes st = Some (t, st))
  /\ (__tag st < t -> __fed_has_upstream st = false -> __fed_has_downstream st = true ->
      __next_event_time t wakes st = Some (t, send_time NEXT_EVENT_TIME t st)
      /\ rti_socket_out (send_time NEXT_EVENT_TIME t st)
         = rti_socket_out st ++ [NEXT_EVENT_TIME :: Wire.encode_ll t]
      /\ __tag (send_time NEXT_EVENT_TIME t st) = __tag st
      /\ __tag_pending (send_time NEXT_EVENT_TIME t st) = __tag_pending st)
  /\ (__tag st < t -> __fed_has_upstream st = true ->
      let waiting := set_tag (__tag st) true (send_time NEXT_EVENT_TIME t st) in
      __next_event_time t wakes st = wait_for_tag t wakes waiting
      /\ rti_socket_out waiting = rti_socket_out st ++ [NEXT_EVENT_TIME :: Wire.encode_ll t]
      /\ __tag_pending waiting = true
      /\ forall r st',
           __next_event_time t wakes st = Some (r, st') ->
           rti_socket_out st' = rti_socket_out st ++ [NEXT_EVENT_TIME :: Wire.encode_ll t]).
Proof.
  split; [| split; [| split]].
  - unfold __next_event_time. intros -> ->. reflexivity.
  - unfold __next_event_time. intros Hle.
    destruct (negb (__fed_has_downstream st) && negb (__fed_has_upstream st)); [reflexivity |].
    destruct (Z.geb_spec (__tag st) t); [reflexivity | lia].
  - unfold __next_event_time. intros Hlt Hup Hdown. simpl. rewrite Hup, Hdown. simpl.
    destruct (Z.geb_spec (__tag st) t); [lia | auto].
  - intros Hlt Hup waiting.
    assert (Hwait : __next_event_time t wakes st = wait_for_tag t wakes waiting)
      by now apply next_event_time_waits.
    split; [exact Hwait | split; [reflexivity | split; [reflexivity |]]].
    intros r st' Hrun. rewrite Hwait in Hrun.
    apply wait_for_tag_keeps in Hrun. destruct Hrun as (_ & _ & Hout & _).
    rewrite Hout. reflexivity.
Qed.

(** C4: [wait_for_tag] is the loop that [__next_event_time(t)] enters
    with [__tag_pending] set.  When the waiter is woken without a grant
    having arrived, [__tag_pending] is still set and [__tag] unchanged;
    if the head event of the queue is then earlier than [t], the call
    returns its time in that state; if the queue is empty or its head is
    not earlier than [t], the loop waits again, and stays blocked if no
    other wake-up comes. *)
Theorem wait_interrupted_by_earlier_event
    (t : instant_t) (w : wake) (rest : list wake) (st : fed_state) :
  __tag_pending st = true -> grants w = [] ->
  let woken := run_wake w st in
  __tag_pending woken = true /\ __tag woken = __tag st
  /\ (forall h, pqueue_peek (event_q woken) = Some h -> time h < t ->
        wait_for_tag t (w :: rest) st = Some (time h, woken))
  /\ (pqueue_peek (event_q woken) = None
       \/ (exists h, pqueue_peek (event_q woken) = Some h /\ t <= time h) ->
      wait_for_tag t (w :: rest) st = wait_for_tag t rest woken
      /\ wait_for_tag t [w] st = None).
Proof.
  intros Hp Hg woken.
  destruct (run_wake_without_grant w st Hg) as [Htag Hpending].
  rewrite Hp in Hpending. fold woken in Htag, Hpending.
  split; [exact Hpending | split; [exact Htag | split]].
  - intros h Hpeek Hlt. rewrite wait_for_tag_wake by assumption. cbv zeta.
    fold woken. rewrite Hpending, Hpeek.
    destruct (Z.ltb_spec (time h) t); [reflexivity | lia].
  - intros Hq.
    assert (Hstep : forall l, wait_for_tag t (w :: l) st = wait_for_tag t l woken).
    { intros l. rewrite wait_for_tag_wake by assumption. cbv zeta.
      fold woken. rewrite Hpending.
      destruct Hq as [-> | (h & -> & Hge)]; [reflexivity |].
      destruct (Z.ltb_spec (time h) t); [lia | reflexivity]. }
    split; [apply Hstep |].
    rewrite Hstep. now apply wait_for_tag_blocked.
Qed.

End CoordinatorFacts.

(** Scenario 1 and 2 of the specification: an isolated federate, and a
    federate with downstream federates only, asking for 1_000_000. *)
Lemma next_event_time_fast_paths_witness :
  Coordinator.__next_event_time (H := sample_rti_h) 1000000 [] (Coordinator.initial_state false false)
    = Some (1000000, Coordinator.initial_state false false)
  /\ Coordinator.rti_socket_out
       (Coordinator.send_time 6 1000000 (Coordinator.initial_state false true))
     = [[6; 64; 66; 15; 0; 0; 0; 0; 0]].
Proof.
  pose proof (next_event_time_fast_paths (H := sample_rti_h) 1000000 []
                (Coordinator.initial_state false false)) as (Hisolated & _ & _).
  pose proof (next_event_time_fast_paths (H := sample_rti_h) 1000000 []
                (Coordinator.initial_state false true)) as (_ & _ & Hdown & _).
  split.
  - apply Hisolated; reflexivity.
  - destruct Hdown as (_ & Hout & _); [reflexivity.. |].
    exact Hout.
Defined.

(** Scenario 4 of the specification: a federate with upstream federates
    asks for 1000 and waits for the grant; an event at 500 is scheduled
    meanwhile. *)
Lemma wait_interrupted_by_earlier_event_witness :
  let st0 := Coordinator.initial_state true false in
  let st := Coordinator.set_tag Coordinator.NEVER true (Coordinator.send_time 6 1000 st0) in
  let w := [Coordinator.QueueChanged [{| Coordinator.time := 500 |}]] in
  Coordinator.__next_event_time (H := sample_rti_h) 1000 [w] st0
    = Some (500, Coordinator.run_wake w st)
  /\ Coordinator.__tag_pending (Coordinator.run_wake w st) = true
  /\ Coordinator.__tag (Coordinator.run_wake w st) = Coordinator.NEVER.
Proof.
  intros st0 st w.
  pose proof (wait_interrupted_by_earlier_event 1000 w [] st eq_refl eq_refl)
    as (Hpending & Htag & Hearlier & _).
  split; [| split; [exact Hpending | exact Htag]].
  rewrite (next_event_time_waits (H := sample_rti_h) 1000 [w] st0 eq_refl eq_refl).
  apply (Hearlier {| Coordinator.time := 500 |}); [reflexivity | simpl; lia].
Defined.

Lemma next_event_time_returned_value_witness :
  exists st', Coordinator.__next_event_time (H := sample_rti_h) 100 [[Coordinator.TagArrives 100]]
                (Coordinator.initial_state true false) = Some (100, st')
              /\ Coordinator.__tag st' = 100.
Proof.
  eexists. split; [reflexivity |].
  destruct (next_event_time_returned_value (H := sample_rti_h) 100 [[Coordinator.TagArrives 100]]
              (Coordinator.initial_state true false) _ 100 eq_refl)
    as [_ | [(h & Hpeek & _) | (_ & Htag & _)]].
  - reflexivity.
  - discriminate Hpeek.
  - symmetry. exact Htag.
Defined.

Lemma tag_nondecreasing_with_grants_witness :
  Coordinator.__tag (Coordinator.run_wake [Coordinator.TagArrives 10]
                       (Coordinator.initial_state true false))
  <= Coordinator.__tag (Coordinator.run_wake
                          ([Coordinator.TagArrives 10]
                             ++ [Coordinator.StopArrives 0; Coordinator.TagArrives 25])
                          (Coordinator.initial_state true false))
  /\ Coordinator.__tag (Coordinator.run_wake
                          ([Coordinator.TagArrives 10]
                             ++ [Coordinator.StopArrives 0; Coordinator.TagArrives 25])
                          (Coordinator.initial_state true false))
     = 25.
Proof.
  pose proof (tag_nondecreasing_with_grants true false [Coordinator.TagArrives 10]
                [Coordinator.StopArrives 0; Coordinator.TagArrives 25])
    as (_ & _ & Hlast & Hmonotone & _).
  split.
  - apply Hmonotone. simpl. unfold Coordinator.NEVER. lia.
  - apply (Hlast _ _) with (before := [10]). reflexivity.
Defined.

(** C1, as stated, fails: a federate with upstream federates asks for 100,
    the time of the head of its event queue, and the RTI grants 50.  The
    call returns 50, which is neither the requested time nor the head time. *)
Lemma next_event_time_lesser_grant :
  exists st' h,
    Coordinator.__next_event_time (H := sample_rti_h) 100 [[Coordinator.TagArrives 50]]
      (Coordinator.set_event_q [{| Coordinator.time := 100 |}] (Coordinator.initial_state true false))
    = Some (50, st')
    /\ Coordinator.pqueue_peek (Coordinator.event_q st') = Some h
    /\ ~ (50 <= 100 /\ (50 = 100 \/ 50 = Coordinator.time h)).
Proof.
  eexists. exists {| Coordinator.time := 100 |}.
  split; [reflexivity | split; [reflexivity |]].
  simpl. lia.
Qed.

(** C2, as stated, fails: after a grant of 100, a TIME_ADVANCE_GRANT
    carrying 50 is handled and leaves [__tag] at 50. *)
Lemma handle_time_advance_grant_lowers_tag :
  let st := Coordinator.handle_time_advance_grant 100 (Coordinator.initial_state true false) in
  Coordinator.__tag st = 100
  /\ Coordinator.__tag (Coordinator.handle_time_advance_grant 50 st) = 50
  /\ ~ (Coordinator.__tag st <= Coordinator.__tag (Coordinator.handle_time_advance_grant 50 st)).
Proof.
  simpl. repeat split. lia.
Qed.

(** ** Message injection and the peer reader *)
Section ReaderFacts.
Import Sys Reader.
Context `{rti_h}.


(** The two ends of the loop that the code reaches with [break]. *)
Lemma listen_loop_eof (fuel : nat) (afp : Z -> option trigger_t) (fed_id socket_id : Z) (s : socket) (p : process) :
  closed s = false -> incoming s = [] -> at_end s = PeerClosed ->
  listen_loop (S fuel) afp fed_id socket_id s p =
    Some (Done (close s, set_inbound fed_id (-1)
                           (log (SysClose socket_id) (log (SysRead socket_id 0) p)))).
Proof.
  intros Hopen Hempty Hend. simpl. unfold read_from_socket2.
  rewrite Hopen, Hempty, Hend. simpl.
  unfold close_and_reset, with_incoming, close. simpl. now rewrite Hempty.
Qed.

Lemma listen_loop_broken (fuel : nat) (afp : Z -> option trigger_t) (fed_id socket_id : Z) (s : socket) (p : process) :
  closed s = false -> incoming s = [] -> at_end s = Broken ->
  listen_loop (S fuel) afp fed_id socket_id s p =
    Some (Done (close s, set_inbound fed_id (-1)
                           (log (SysClose socket_id) (log (SysRead socket_id (-1)) p)))).
Proof.
  intros Hopen Hempty Hend. simpl. unfold read_from_socket2.
  rewrite Hopen, Hempty, Hend. simpl.
  unfold close_and_reset, with_incoming, close. simpl. now rewrite Hempty.
Qed.

(** A read from the descriptor after [close] fails, which ends the loop. *)
Lemma listen_loop_closed (fuel : nat) (afp : Z -> option trigger_t) (fed_id socket_id : Z) (s : socket) (p : process) :
  closed s = true ->
  listen_loop (S fuel) afp fed_id socket_id s p =
    Some (Done (close s, set_inbound fed_id (-1)
                           (log (SysClose socket_id) (log (SysRead socket_id (-1)) p)))).
Proof.
  intros Hclosed. simpl. unfold read_from_socket2. rewrite Hclosed. reflexivity.
Qed.




End ReaderFacts.



(** ** Accepting peer connections *)
Section AcceptFacts.
Import Sys Accept.
Context `{rti_h}.

Lemma c_strlen_le_length (s : list Wire.byte) : (c_strlen s <= length s)%nat.
Proof.
  induction s as [| c rest IH]; simpl; [lia |].
  destruct (c =? 0); lia.
Qed.

(** [strncmp] over the first [n] bytes does not see what follows them. *)
Lemma strncmp_prefix (id longer : list Wire.byte) (n : nat) :
  (n <= length id)%nat -> strncmp id (id ++ longer) n = 0.
Proof.
  revert n. induction id as [| c rest IH]; intros n Hn.
  - simpl in Hn. now replace n with O by lia.
  - destruct n as [| k]; [reflexivity |].
    simpl in Hn |- *. rewrite Z.eqb_refl.
    destruct (c =? 0); [reflexivity |]. apply IH. lia.
Qed.

(** The comparison made by the accept loop succeeds for every remote
    identifier that starts with the local one. *)
Lemma strncmp_own_length (id longer : list Wire.byte) :
  strncmp id (id ++ longer) (strnlen id 255) = 0.
Proof.
  apply strncmp_prefix. unfold strnlen.
  pose proof (c_strlen_le_length id). lia.
Qed.

(** A first message of the right length with another type byte is
    answered with REJECT and WRONG_SERVER, and the socket is closed. *)
Lemma accept_rejects_wrong_type (c : connection) (rest : list connection)
    (received : Z) (p : process) (buffer : list Wire.byte) (s1 : socket) :
  received < _lf_number_of_inbound_physical_connections p ->
  0 <= socket_id c ->
  read_from_socket2 4 (peer c) = (4, buffer, s1) ->
  hd 0 buffer <> P2P_SENDING_FED_ID ->
  accept_loop (c :: rest) received p =
    accept_loop rest received
      (log (SysClose (socket_id c)) (log (SysWrite (socket_id c) [REJECT; WRONG_SERVER]) p)).
Proof.
  intros Hmore Hfd Hread Htype. cbn [accept_loop].
  destruct (Z.ltb_spec received (_lf_number_of_inbound_physical_connections p)); [| lia].
  destruct (Z.ltb_spec (socket_id c) 0); [lia |].
  rewrite Hread. simpl.
  destruct (Z.eqb_spec (hd 0 buffer) P2P_SENDING_FED_ID); [contradiction | reflexivity].
Qed.

End AcceptFacts.

(** C9: the claim that every connection whose federation identifier
    differs from the local one is rejected fails on the code.  The local
    federation is "abc"; federate 2 connects and announces "abcd".  The
    comparison runs over the three bytes of the local identifier only, so
    the connection is taken: the socket is stored for federate 2, ACK is
    sent and a reader thread is started; no REJECT is written. *)
Theorem accept_takes_longer_federation_id :
  let c := {| Accept.socket_id := 9; Accept.peer := Sample.stream Sample.hello_abcd;
              Accept.stack_after := []; Accept.thread_created := true |} in
  Sys.federation_id Sample.federate = [97; 98; 99]
  /\ skipn 4 Sample.hello_abcd = [97; 98; 99; 100]
  /\ exists p',
      Accept.handle_p2p_connections_from_federates (H := sample_rti_h) [c] Sample.federate
        = Some (Sys.Done p')
      /\ Sys.calls p' = [Sys.SysWrite 9 [ACK (rti_h := sample_rti_h)];
                         Sys.SysSpawn Sys.listen_to_federates_fn 2]
      /\ Sys.inbound_socket 2 p' = Some 9.
Proof.
  cbv zeta. split; [reflexivity | split; [reflexivity |]].
  eexists. split; [reflexivity | split; reflexivity].
Qed.

(** ** Connecting to a peer *)
Section ConnectFederateFacts.
Import Sys Connect.
Context `{rti_h}.

Lemma failed_connects_nonneg (attempts : list attempt) : 0 <= failed_connects attempts.
Proof.
  induction attempts as [| a rest IH]; simpl; [lia |].
  destruct (connected a); lia.
Qed.

Lemma failed_connects_app (l1 l2 : list attempt) :
  failed_connects (l1 ++ l2) = failed_connects l1 + failed_connects l2.
Proof.
  induction l1 as [| a rest IH]; simpl; [lia |]. rewrite IH. lia.
Qed.

(** The address query loop writes to the RTI socket and sleeps; it leaves
    the table of outbound sockets alone. *)
Lemma query_address_keeps_outbound (id : Z) (replies : list Z) (count_tries : Z)
    (p p1 : process) (port : Z) :
  query_address id replies count_tries p = Some (Done (port, p1)) ->
  _lf_federate_sockets_for_outbound_physical_connections p1
  = _lf_federate_sockets_for_outbound_physical_connections p.
Proof.
  revert count_tries p. induction replies as [| reply rest IH]; intros c p Hq.
  - discriminate.
  - simpl in Hq. destruct (reply =? -1).
    + destruct (c >=? CONNECT_NUM_RETRIES); [discriminate |].
      apply IH in Hq. exact Hq.
    + destruct (reply <? 65536); [| discriminate].
      injection Hq as _ <-. reflexivity.
Qed.

(** A peer that answers the handshake with another byte than ACK. *)
Lemma p2p_handshake_rejected (a : attempt) (p : process) :
  retried ACK a -> connected a = true ->
  exists response p3,
    p2p_handshake (socket_fd a) (remote a) p = Some (response, p3)
    /\ response <> ACK
    /\ _lf_federate_sockets_for_outbound_physical_connections p3
       = _lf_federate_sockets_for_outbound_physical_connections p.
Proof.
  intros [_ Hrej] Hconn.
  destruct (Hrej Hconn) as (Hw & response & code & later & Hbytes & Hne).
  exists response. eexists. unfold p2p_handshake. rewrite Hw. simpl negb. cbv iota.
  assert (Hopen : closed (remote a) = false).
  { unfold can_write in Hw. destruct (closed (remote a)); [| reflexivity].
    now rewrite andb_false_r in Hw. }
  unfold read_from_socket, read_from_socket2. rewrite Hopen, Hbytes. simpl.
  destruct (Z.eqb_spec response ACK); [contradiction |]. simpl.
  rewrite Hopen. simpl. split; [reflexivity | split; [assumption | reflexivity]].
Qed.

(** The loop gives up at the attempt in which [connect()] fails for the
    [CONNECT_NUM_RETRIES + 1]-th time, with the descriptor of that
    attempt in the table. *)
Lemma connect_loop_gives_up (id port : Z) (attempts : list attempt) (a_last : attempt) :
  forall (count_retries : Z) (p : process),
    (Z.to_nat id < length (_lf_federate_sockets_for_outbound_physical_connections p))%nat ->
    Forall (retried ACK) (attempts ++ [a_last]) ->
    connected a_last = false ->
    count_retries + failed_connects (attempts ++ [a_last]) = CONNECT_NUM_RETRIES + 1 ->
    exists p',
      connect_loop id port (attempts ++ [a_last]) count_retries p = Some (Done p')
      /\ outbound_socket id p' = Some (socket_fd a_last).
Proof.
  induction attempts as [| a rest IH]; intros c p Hid Hall Hlast Hcount.
  - simpl in Hcount |- *. rewrite Hlast in Hcount |- *.
    apply Forall_inv in Hall. destruct Hall as [Hfd _].
    destruct (Z.ltb_spec (socket_fd a_last) 0); [lia |]. simpl.
    destruct (Z.gtb_spec (c + 1) CONNECT_NUM_RETRIES); [| lia].
    eexists. split; [reflexivity |].
    unfold outbound_socket. simpl. now apply list_lookup_insert_eq.
  - rewrite <- app_comm_cons in Hall, Hcount |- *.
    pose proof (Forall_inv Hall) as Ha. apply Forall_inv_tail in Hall.
    cbn [connect_loop failed_connects] in Hcount |- *.
    destruct Ha as [Hfd Hrej].
    destruct (Z.ltb_spec (socket_fd a) 0); [lia |].
    assert (Hrest : 1 <= failed_connects (rest ++ [a_last])).
    { rewrite failed_connects_app. simpl. rewrite Hlast.
      pose proof (failed_connects_nonneg rest). lia. }
    pose proof (p2p_handshake_rejected a
                  (log (SysConnect (socket_fd a) port) (set_outbound id (socket_fd a) p))
                  (conj Hfd Hrej)) as Hhandshake.
    destruct (connected a) eqn:Hconn; simpl negb; cbv iota.
    + destruct (Hhandshake eq_refl) as (response & p3 & -> & Hne & Htable).
      destruct (Z.eqb_spec response ACK); [contradiction |]. simpl.
      apply IH; try assumption; try lia.
      rewrite Htable. simpl. now rewrite length_insert.
    + destruct (Z.gtb_spec (c + 1) CONNECT_NUM_RETRIES); [lia |].
      apply IH; try assumption; try lia.
      simpl. now rewrite length_insert.
Qed.

(** C10: when [connect()] fails for the [CONNECT_NUM_RETRIES + 1]-th time
    (every other attempt having been refused by the peer at the
    handshake), [connect_to_federate(id)] returns to its caller: the
    process is not ended.  The entry of the outbound table for [id] then
    holds the descriptor of that last, unconnected socket, which is not
    the unset value -1. *)
Theorem connect_to_federate_gives_up
    (id port : Z) (replies : list Z) (attempts : list attempt) (a_last : attempt)
    (p p1 : process) :
  (Z.to_nat id < length (_lf_federate_sockets_for_outbound_physical_connections p))%nat ->
  query_address id replies 0 p = Some (Done (port, p1)) ->
  Forall (retried ACK) (attempts ++ [a_last]) ->
  connected a_last = false ->
  failed_connects (attempts ++ [a_last]) = CONNECT_NUM_RETRIES + 1 ->
  exists p',
    connect_to_federate id replies (attempts ++ [a_last]) p = Some (Done p')
    /\ outbound_socket id p' = Some (socket_fd a_last)
    /\ socket_fd a_last <> -1.
Proof.
  intros Hid Hquery Hall Hlast Hcount.
  unfold connect_to_federate. rewrite Hquery.
  destruct (connect_loop_gives_up id port attempts a_last 0 p1) as (p' & Hrun & Hentry);
    try assumption.
  - now rewrite (query_address_keeps_outbound _ _ _ _ _ _ Hquery).
  - exists p'. split; [exact Hrun | split; [exact Hentry |]].
    rewrite Forall_app in Hall. destruct Hall as [_ Hl].
    apply Forall_inv in Hl. destruct Hl as [Hfd _]. lia.
Qed.

End ConnectFederateFacts.

(** With [CONNECT_NUM_RETRIES = 1]: the RTI knows the peer's port, and
    [connect()] fails on descriptors 5 and 6. *)
Lemma connect_to_federate_gives_up_witness :
  exists p',
    Connect.connect_to_federate (H := sample_rti_h) 2 [15046]
      ([Sample.refused 5] ++ [Sample.refused 6]) Sample.federate = Some (Sys.Done p')
    /\ Sys.outbound_socket 2 p' = Some 6.
Proof.
  destruct (connect_to_federate_gives_up (H := sample_rti_h) 2 15046 [15046]
              [Sample.refused 5] (Sample.refused 6) Sample.federate _
              ltac:(simpl; lia) eq_refl) as (p' & Hrun & Hentry & _).
  - repeat constructor; simpl; try lia; discriminate.
  - reflexivity.
  - reflexivity.
  - exists p'. split; [exact Hrun | exact Hentry].
Defined.

(** ** Connecting to the RTI *)
Section ConnectRtiFacts.
Import Sys Connect.
Context `{rti_h}.

Lemma scan_of_app (l1 l2 : list sys_call) : scan_of (l1 ++ l2) = scan_of l1 ++ scan_of l2.
Proof.
  induction l1 as [| c rest IH]; [reflexivity |].
  destruct c; simpl; now rewrite ?IH.
Qed.

Lemma ports_from_cons (first : Z) (n : nat) :
  ports_from first (S n) = first :: ports_from (first + 1) n.
Proof.
  unfold ports_from. cbn [seq map]. f_equal; [lia |].
  rewrite <- seq_shift, map_map. apply map_ext. intros k. lia.
Qed.

Lemma ports_from_snoc (first : Z) (n : nat) :
  ports_from first (S n) = ports_from first n ++ [first + Z.of_nat n].
Proof. unfold ports_from. now rewrite seq_S, map_app. Qed.

Lemma firstn_ports_from (first : Z) (n m : nat) :
  (n <= m)%nat -> firstn n (ports_from first m) = ports_from first n.
Proof.
  revert first m. induction n as [| n IH]; intros first m Hle; [reflexivity |].
  destruct m as [| m]; [lia |].
  rewrite !ports_from_cons. cbn [firstn]. f_equal. apply IH. lia.
Qed.

Lemma split_at_sleeps_pass (ports : list Z) : split_at_sleeps (map Some ports) = [ports].
Proof. induction ports as [| x rest IH]; simpl; [reflexivity | now rewrite IH]. Qed.

Lemma split_at_sleeps_sleep (ports : list Z) (later : list (option Z)) :
  split_at_sleeps (map Some ports ++ None :: later) = ports :: split_at_sleeps later.
Proof. induction ports as [| x rest IH]; simpl; [reflexivity | now rewrite IH]. Qed.

Lemma split_at_sleeps_passes (first : Z) (width n : nat) :
  split_at_sleeps (scan_passes first width n) = repeat (ports_from first width) (S n).
Proof.
  induction n as [| m IH]; cbn [scan_passes].
  - apply split_at_sleeps_pass.
  - rewrite split_at_sleeps_sleep, IH. reflexivity.
Qed.

(** Failed attempts on ports inside the range: the port moves on, without
    a sleep and without counting a retry. *)
Lemma connect_rti_loop_scan (id : Z) (firsts : list attempt) :
  forall (rest : list attempt) (port c : Z) (p : process),
    Forall connect_fails firsts ->
    STARTING_PORT <= port ->
    port + Z.of_nat (length firsts) <= STARTING_PORT + PORT_RANGE_LIMIT + 1 ->
    exists p' trace,
      connect_rti_loop id false (firsts ++ rest) port c p
      = connect_rti_loop id false rest (port + Z.of_nat (length firsts)) c p'
      /\ calls p' = calls p ++ trace
      /\ scan_of trace = map Some (ports_from port (length firsts)).
Proof.
  induction firsts as [| a firsts IH]; intros rest port c p Hall Hlow Hhigh.
  - exists p, []. simpl. rewrite Z.add_0_r, app_nil_r. auto.
  - pose proof (Forall_inv Hall) as (Hfd & Hhost & Hconn). apply Forall_inv_tail in Hall.
    cbn [length] in Hhigh. rewrite Nat2Z.inj_succ in Hhigh.
    destruct (IH rest (port + 1) c
                (log (SysConnect (socket_fd a) port) (set_rti_socket (socket_fd a) p))
                Hall ltac:(lia) ltac:(lia)) as (p' & trace & Hrun & Hcalls & Hscan).
    exists p', (SysConnect (socket_fd a) port :: trace).
    split; [| split].
    + rewrite <- app_comm_cons. cbn [connect_rti_loop length].
      rewrite Hhost, Hconn.
      destruct (Z.ltb_spec (socket_fd a) 0); [lia |].
      destruct (Z.geb_spec port STARTING_PORT); [| lia].
      destruct (Z.leb_spec port (STARTING_PORT + PORT_RANGE_LIMIT)); [| lia].
      simpl. rewrite Hrun. f_equal. lia.
    + rewrite Hcalls. simpl. now rewrite <- app_assoc.
    + cbn [scan_of length]. rewrite Hscan, ports_from_cons. reflexivity.
Qed.

(** One full pass of failed attempts, from [STARTING_PORT] on: it ends
    with a sleep and the port back at [STARTING_PORT] while retries are
    left, and with the end of the process when they are not. *)
Lemma connect_rti_loop_pass (id : Z) (pass rest : list attempt) (c : Z) (p : process) :
  0 <= PORT_RANGE_LIMIT ->
  Forall connect_fails pass ->
  length pass = Z.to_nat (PORT_RANGE_LIMIT + 2) ->
  exists p' trace,
    calls p' = calls p ++ trace
    /\ (c + 1 > CONNECT_NUM_RETRIES ->
        connect_rti_loop id false (pass ++ rest) STARTING_PORT c p = Some (Exit p')
        /\ scan_of trace = map Some (ports_from STARTING_PORT (length pass)))
    /\ (c + 1 <= CONNECT_NUM_RETRIES ->
        connect_rti_loop id false (pass ++ rest) STARTING_PORT c p
        = connect_rti_loop id false rest STARTING_PORT (c + 1) p'
        /\ scan_of trace = map Some (ports_from STARTING_PORT (length pass)) ++ [None]).
Proof.
  intros Hrange Hall Hlen.
  destruct (exists_last (l := pass)) as (firsts & a & ->).
  { intros ->. simpl in Hlen. lia. }
  rewrite Forall_app in Hall. destruct Hall as [Hfirsts Ha].
  apply Forall_inv in Ha. destruct Ha as (Hfd & Hhost & Hconn).
  rewrite length_app in Hlen |- *. cbn [length] in Hlen |- *.
  assert (Hn : Z.of_nat (length firsts) = PORT_RANGE_LIMIT + 1) by lia.
  destruct (connect_rti_loop_scan id firsts (a :: rest) STARTING_PORT c p Hfirsts)
    as (p1 & trace & Hrun & Hcalls & Hscan); [lia | lia |].
  rewrite Hn in Hrun.
  set (p2 := log (SysConnect (socket_fd a) (STARTING_PORT + (PORT_RANGE_LIMIT + 1)))
               (set_rti_socket (socket_fd a) p1)).
  assert (Hstep : connect_rti_loop id false (a :: rest)
                    (STARTING_PORT + (PORT_RANGE_LIMIT + 1)) c p1
                  = if c + 1 >? CONNECT_NUM_RETRIES then Some (Exit p2)
                    else connect_rti_loop id false rest STARTING_PORT (c + 1)
                           (log (SysSleep CONNECT_RETRY_INTERVAL 0) p2)).
  { cbn [connect_rti_loop]. rewrite Hhost, Hconn.
    destruct (Z.ltb_spec (socket_fd a) 0); [lia |].
    destruct (Z.leb_spec (STARTING_PORT + (PORT_RANGE_LIMIT + 1))
                (STARTING_PORT + PORT_RANGE_LIMIT)); [lia |].
    rewrite andb_false_r. simpl.
    destruct (Z.eqb_spec (STARTING_PORT + (PORT_RANGE_LIMIT + 1))
                (STARTING_PORT + PORT_RANGE_LIMIT + 1)); [reflexivity | lia]. }
  assert (Hports : map Some (ports_from STARTING_PORT (length firsts + 1))
                   = scan_of (trace ++ [SysConnect (socket_fd a)
                                          (STARTING_PORT + (PORT_RANGE_LIMIT + 1))])).
  { rewrite scan_of_app, Hscan. simpl.
    replace (length firsts + 1)%nat with (S (length firsts)) by lia.
    rewrite ports_from_snoc, map_app, Hn. reflexivity. }
  destruct (Z.gtb_spec (c + 1) CONNECT_NUM_RETRIES) as [Hout | Hleft].
  - exists p2, (trace ++ [SysConnect (socket_fd a) (STARTING_PORT + (PORT_RANGE_LIMIT + 1))]).
    split; [| split].
    + unfold p2. simpl. rewrite Hcalls. now rewrite <- app_assoc.
    + intros _. rewrite <- app_assoc. simpl. rewrite Hrun, Hstep.
      split; [reflexivity | now rewrite Hports].
    + intros Hle. lia.
  - exists (log (SysSleep CONNECT_RETRY_INTERVAL 0) p2),
      ((trace ++ [SysConnect (socket_fd a) (STARTING_PORT + (PORT_RANGE_LIMIT + 1))])
         ++ [SysSleep CONNECT_RETRY_INTERVAL 0]).
    split; [| split].
    + unfold p2. simpl. rewrite Hcalls. now rewrite <- !app_assoc.
    + intros Hgt. lia.
    + intros _. rewrite <- app_assoc. simpl. rewrite Hrun, Hstep.
      split; [reflexivity |].
      rewrite scan_of_app, <- Hports. reflexivity.
Qed.

(** With no port given and every [connect()] failing, the scan is
    repeated until the retries are used up and then the process ends. *)
Lemma connect_rti_loop_all_fail (id : Z) (n : nat) :
  forall (attempts : list attempt) (c : Z) (p : process),
    0 <= PORT_RANGE_LIMIT ->
    c + Z.of_nat n = CONNECT_NUM_RETRIES ->
    Forall connect_fails attempts ->
    (S n * Z.to_nat (PORT_RANGE_LIMIT + 2) <= length attempts)%nat ->
    exists p' trace,
      connect_rti_loop id false attempts STARTING_PORT c p = Some (Exit p')
      /\ calls p' = calls p ++ trace
      /\ scan_of trace
         = scan_passes STARTING_PORT (Z.to_nat (PORT_RANGE_LIMIT + 2)) n.
Proof.
  induction n as [| m IH]; intros attempts c p Hrange Hc Hall Hlen;
    rewrite !Nat.mul_succ_l in Hlen.
  - rewrite <- (firstn_skipn (Z.to_nat (PORT_RANGE_LIMIT + 2)) attempts) in Hall |- *.
    rewrite Forall_app in Hall. destruct Hall as [Hpass _].
    assert (Hwidth : length (firstn (Z.to_nat (PORT_RANGE_LIMIT + 2)) attempts)
                     = Z.to_nat (PORT_RANGE_LIMIT + 2)).
    { rewrite length_firstn. revert Hlen.
      generalize (Z.to_nat (PORT_RANGE_LIMIT + 2)). intros width Hlen. lia. }
    destruct (connect_rti_loop_pass id _ (skipn (Z.to_nat (PORT_RANGE_LIMIT + 2)) attempts)
                c p Hrange Hpass Hwidth) as (p' & trace & Hcalls & Hout & _).
    destruct Hout as [Hrun Hscan]; [lia |].
    exists p', trace. rewrite Hwidth in Hscan. auto.
  - rewrite <- (firstn_skipn (Z.to_nat (PORT_RANGE_LIMIT + 2)) attempts) in Hall |- *.
    rewrite Forall_app in Hall. destruct Hall as [Hpass Hrest].
    assert (Hwidth : length (firstn (Z.to_nat (PORT_RANGE_LIMIT + 2)) attempts)
                     = Z.to_nat (PORT_RANGE_LIMIT + 2)).
    { rewrite length_firstn. revert Hlen.
      generalize (Z.to_nat (PORT_RANGE_LIMIT + 2)). intros width Hlen. lia. }
    destruct (connect_rti_loop_pass id _ (skipn (Z.to_nat (PORT_RANGE_LIMIT + 2)) attempts)
                c p Hrange Hpass Hwidth) as (p1 & trace1 & Hcalls1 & _ & Hleft).
    destruct Hleft as [Hrun1 Hscan1]; [lia |].
    destruct (IH (skipn (Z.to_nat (PORT_RANGE_LIMIT + 2)) attempts) (c + 1) p1
                Hrange ltac:(lia) Hrest) as (p' & trace & Hrun & Hcalls & Hscan).
    { rewrite length_skipn, Nat.mul_succ_l. revert Hlen.
      generalize (Z.to_nat (PORT_RANGE_LIMIT + 2)). intros width Hlen. lia. }
    exists p', (trace1 ++ trace). split; [| split].
    + now rewrite Hrun1, Hrun.
    + rewrite Hcalls, Hcalls1. now rewrite <- app_assoc.
    + rewrite scan_of_app, Hscan1, Hscan, Hwidth. cbn [scan_passes].
      now rewrite <- app_assoc.
Qed.

(** C5 (as amended): [connect_to_rti] called with no port, every
    [connect()] failing (and the list of attempts long enough for the run
    not to stop for want of one).  The attempts fall into passes separated by the
    [CONNECT_RETRY_INTERVAL] sleeps; every pass starts again at
    [STARTING_PORT] and tries the consecutive ports up to
    [STARTING_PORT + PORT_RANGE_LIMIT] with no sleep between them; and
    the process is ended when the pass numbered [CONNECT_NUM_RETRIES + 1]
    has failed, that is after [CONNECT_NUM_RETRIES] retries. *)
Theorem connect_to_rti_scan_passes (id : Z) (attempts : list attempt) (p : process) :
  0 <= PORT_RANGE_LIMIT -> 0 <= CONNECT_NUM_RETRIES ->
  Forall connect_fails attempts ->
  (Z.to_nat ((CONNECT_NUM_RETRIES + 1) * (PORT_RANGE_LIMIT + 2)) <= length attempts)%nat ->
  exists p' trace,
    connect_to_rti id 0 attempts p = Some (Exit p')
    /\ calls p' = calls p ++ trace
    /\ Z.of_nat (length (split_at_sleeps (scan_of trace))) = CONNECT_NUM_RETRIES + 1
    /\ Forall (fun pass => firstn (Z.to_nat (PORT_RANGE_LIMIT + 1)) pass
                           = ports_from STARTING_PORT (Z.to_nat (PORT_RANGE_LIMIT + 1)))
         (split_at_sleeps (scan_of trace)).
Proof.
  intros Hrange Hretries Hall Hlen.
  destruct (connect_rti_loop_all_fail id (Z.to_nat CONNECT_NUM_RETRIES) attempts 0 p)
    as (p' & trace & Hrun & Hcalls & Hscan); try assumption; [lia | |].
  { rewrite <- Z2Nat.inj_succ, <- Z2Nat.inj_mul by lia.
    replace (Z.succ CONNECT_NUM_RETRIES * (PORT_RANGE_LIMIT + 2))
      with ((CONNECT_NUM_RETRIES + 1) * (PORT_RANGE_LIMIT + 2)) by lia.
    exact Hlen. }
  exists p', trace. unfold connect_to_rti. simpl.
  rewrite Hscan, split_at_sleeps_passes.
  split; [exact Hrun | split; [exact Hcalls | split]].
  - rewrite repeat_length. lia.
  - generalize (S (Z.to_nat CONNECT_NUM_RETRIES)). intros k.
    induction k as [| k IH]; simpl; constructor; [| exact IH].
    apply firstn_ports_from. lia.
Qed.

End ConnectRtiFacts.

(** With [PORT_RANGE_LIMIT = 2] and [CONNECT_NUM_RETRIES = 1]: eight
    failed attempts end the process. *)
Lemma connect_to_rti_scan_passes_witness :
  exists p' trace,
    Connect.connect_to_rti (H := sample_rti_h) 1 0
      (map Sample.refused [4; 5; 6; 7; 8; 9; 10; 11]) Sample.federate = Some (Sys.Exit p')
    /\ Sys.calls p' = trace
    /\ Z.of_nat (length (Connect.split_at_sleeps (Connect.scan_of trace))) = 2.
Proof.
  destruct (connect_to_rti_scan_passes (H := sample_rti_h) 1
              (map Sample.refused [4; 5; 6; 7; 8; 9; 10; 11]) Sample.federate)
    as (p' & trace & Hrun & Hcalls & Hpasses & _).
  - simpl. lia.
  - simpl. lia.
  - repeat constructor; simpl; lia.
  - simpl. lia.
  - exists p', trace. split; [exact Hrun | split; [exact Hcalls | exact Hpasses]].
Defined.

(** C5, as stated, fails.  With [PORT_RANGE_LIMIT = 2] and
    [CONNECT_NUM_RETRIES = 1] and every [connect()] failing, the fourth
    event of the scan is another [connect()], not the sleep that the claim
    places after [PORT_RANGE_LIMIT + 1 = 3] failed attempts, and the
    process ends after two passes, not after one. *)
Lemma connect_to_rti_scan_counts :
  exists p',
    Connect.connect_to_rti (H := sample_rti_h) 1 0
      (map Sample.refused [4; 5; 6; 7; 8; 9; 10; 11]) Sample.federate = Some (Sys.Exit p')
    /\ Connect.scan_of (Sys.calls p')
       = [Some 15045; Some 15046; Some 15047; Some 15048; None;
          Some 15045; Some 15046; Some 15047; Some 15048]
    /\ nth_error (Connect.scan_of (Sys.calls p')) 3 <> Some None
    /\ Z.of_nat (length (Connect.split_at_sleeps (Connect.scan_of (Sys.calls p'))))
       <> CONNECT_NUM_RETRIES (rti_h := sample_rti_h).
Proof.
  eexists. split; [reflexivity | split; [reflexivity | split]]; simpl; discriminate.
Qed.

(* ===================================================================== *)
(** * Part III: further properties of the two files                       *)
(* ===================================================================== *)

(** ** Critical sections and sleeping on Arduino *)
Section PlatformFacts.
Import Platform.

Lemma to_signed_32_in_range (v : Z) : - 2 ^ 31 <= v < 2 ^ 31 -> Wire.to_signed 32 v = v.
Proof.
  unfold Wire.to_signed. intros Hv.
  destruct (Z.neg_nonneg_cases v) as [Hneg | Hpos].
  - replace (v mod 2 ^ 32) with (v + 2 ^ 32).
    + destruct (Z.ltb_spec (v + 2 ^ 32) (2 ^ (32 - 1))); lia.
    + apply (Z.mod_unique _ _ (-1)); lia.
  - rewrite Z.mod_small by lia.
    destruct (Z.ltb_spec v (2 ^ (32 - 1))); lia.
Qed.

Lemma run_section_call_consistent (c : section_call) (bound : Z) (st : platform_state) :
  bound + 1 < 2 ^ 31 -> sections_consistent bound st ->
  sections_consistent (bound + 1) (snd (run_section_call c st)).
Proof.
  intros Hbound [Hn Hirq]. unfold sections_consistent.
  destruct c; simpl.
  - rewrite to_signed_32_in_range by lia. split; [lia |].
    destruct (Z.eqb_spec (_lf_num_nested_critical_sections st) 0) as [-> | Hne].
    + reflexivity.
    + rewrite Hirq. destruct (Z.eqb_spec (_lf_num_nested_critical_sections st + 1) 0);
        destruct (Z.eqb_spec (_lf_num_nested_critical_sections st) 0); lia || reflexivity.
  - unfold lf_platform_disable_interrupts_nested.
    destruct (Z.leb_spec (_lf_num_nested_critical_sections st) 0) as [Hle | Hgt]; simpl.
    + split; [lia | exact Hirq].
    + rewrite to_signed_32_in_range by lia. split; [lia |].
      destruct (Z.eqb_spec (_lf_num_nested_critical_sections st - 1) 0); [reflexivity |].
      rewrite Hirq. destruct (Z.eqb_spec (_lf_num_nested_critical_sections st) 0); lia || reflexivity.
Qed.

Lemma run_section_calls_consistent (cs : list section_call) :
  forall (bound : Z) (st : platform_state),
    bound + Z.of_nat (length cs) < 2 ^ 31 -> sections_consistent bound st ->
    sections_consistent (bound + Z.of_nat (length cs)) (snd (run_section_calls cs st)).
Proof.
  induction cs as [| c rest IH]; intros bound st Hbound Hst.
  - simpl. now rewrite Z.add_0_r.
  - cbn [run_section_calls length] in *. rewrite Nat2Z.inj_succ in *.
    pose proof (run_section_call_consistent c bound st ltac:(lia) Hst) as Hstep.
    destruct (run_section_call c st) as [r st1]. simpl in Hstep.
    specialize (IH (bound + 1) st1 ltac:(lia) Hstep).
    destruct (run_section_calls rest st1) as [rs st2]. simpl in IH |- *.
    now replace (bound + Z.succ (Z.of_nat (length rest)))
      with (bound + 1 + Z.of_nat (length rest)) by lia.
Qed.

Lemma run_section_calls_app (cs1 cs2 : list section_call) (st : platform_state) :
  run_section_calls (cs1 ++ cs2) st =
    (fst (run_section_calls cs1 st)
       ++ fst (run_section_calls cs2 (snd (run_section_calls cs1 st))),
     snd (run_section_calls cs2 (snd (run_section_calls cs1 st)))).
Proof.
  revert st. induction cs1 as [| c rest IH]; intros st.
  - simpl. now destruct (run_section_calls cs2 st).
  - cbn [app run_section_calls]. destruct (run_section_call c st) as [r st1].
    rewrite IH. destruct (run_section_calls rest st1) as [rs st2]. reflexivity.
Qed.

(** X1: from reset on, whatever calls of the two critical-section
    functions are made (fewer than 2^31 of them), the nesting counter is
    never negative and interrupts are off exactly while it is positive. *)
Theorem critical_sections_mask_interrupts (cs : list section_call) :
  Z.of_nat (length cs) < 2 ^ 31 ->
  let st := snd (run_section_calls cs power_on) in
  0 <= _lf_num_nested_critical_sections st
  /\ interrupts_on st = (_lf_num_nested_critical_sections st =? 0).
Proof.
  intros Hlen st.
  destruct (run_section_calls_consistent cs 0 power_on) as [Hn Hirq].
  - lia.
  - split; simpl; [lia | reflexivity].
  - split; [apply Hn | exact Hirq].
Qed.

(** [n] entries in a row. *)
Lemma enter_sections (n : nat) :
  forall st : platform_state,
    0 <= _lf_num_nested_critical_sections st ->
    _lf_num_nested_critical_sections st + Z.of_nat n < 2 ^ 31 ->
    run_section_calls (repeat EnterSection n) st
    = (repeat 0 n,
       with_sections (_lf_num_nested_critical_sections st + Z.of_nat n)
         (if (_lf_num_nested_critical_sections st =? 0) && negb (Nat.eqb n 0)
          then false else interrupts_on st) st).
Proof.
  induction n as [| n IH]; intros st Hpos Hbound.
  - cbn [repeat run_section_calls Nat.eqb negb]. rewrite andb_false_r, Z.add_0_r.
    now destruct st.
  - rewrite Nat2Z.inj_succ in Hbound.
    cbn [repeat run_section_calls run_section_call lf_platform_enable_interrupts_nested].
    rewrite to_signed_32_in_range by lia.
    rewrite IH by (cbn; lia).
    cbn [_lf_num_nested_critical_sections interrupts_on Nat.eqb negb].
    rewrite andb_true_r. unfold with_sections. cbn. f_equal. f_equal.
    + lia.
    + destruct (Z.eqb_spec (_lf_num_nested_critical_sections st + 1) 0); [lia |].
      reflexivity.
Qed.

(** [n] exits in a row from a state with at least [n] sections open. *)
Lemma leave_sections (n : nat) :
  forall st : platform_state,
    Z.of_nat n <= _lf_num_nested_critical_sections st < 2 ^ 31 ->
    run_section_calls (repeat LeaveSection n) st
    = (repeat 0 n,
       with_sections (_lf_num_nested_critical_sections st - Z.of_nat n)
         (if (_lf_num_nested_critical_sections st - Z.of_nat n =? 0) && negb (Nat.eqb n 0)
          then true else interrupts_on st) st).
Proof.
  induction n as [| n IH]; intros st Hopen.
  - cbn [repeat run_section_calls Nat.eqb negb]. rewrite andb_false_r, Z.sub_0_r.
    now destruct st.
  - rewrite Nat2Z.inj_succ in Hopen |- *.
    cbn [repeat run_section_calls run_section_call].
    unfold lf_platform_disable_interrupts_nested at 1.
    destruct (Z.leb_spec (_lf_num_nested_critical_sections st) 0); [lia |].
    rewrite to_signed_32_in_range by lia.
    rewrite IH by (cbn; lia).
    cbn [_lf_num_nested_critical_sections interrupts_on Nat.eqb negb].
    rewrite andb_true_r. unfold with_sections. cbn. f_equal. f_equal.
    + lia.
    + replace (_lf_num_nested_critical_sections st - 1 - Z.of_nat n)
        with (_lf_num_nested_critical_sections st - Z.succ (Z.of_nat n)) by lia.
      destruct (Z.eqb_spec (_lf_num_nested_critical_sections st - Z.succ (Z.of_nat n)) 0)
        as [Hlast | Hmore]; cbn [andb].
      * destruct n as [| m]; cbn [Nat.eqb negb]; [| reflexivity].
        destruct (Z.eqb_spec (_lf_num_nested_critical_sections st - 1) 0); [reflexivity |].
        simpl in Hlast. lia.
      * destruct (Z.eqb_spec (_lf_num_nested_critical_sections st - 1) 0); [lia |].
        reflexivity.
Qed.

(** X2: from a state whose nesting counter is not negative, [n]
    nested entries followed by [n] exits all return 0 and put the counter
    back.  When the entries open the outermost section (the counter was
    0 and [n] is not) interrupts are off in between and on afterwards,
    also when they were off before the first entry; otherwise the
    interrupt enable is not touched.  So the state is put back as it
    was, interrupts included, whenever interrupts were on exactly when
    the counter was 0, as in every state reached from reset. *)
Theorem nested_sections_restore (n : nat) (st : platform_state) :
  0 <= _lf_num_nested_critical_sections st ->
  _lf_num_nested_critical_sections st + Z.of_nat n < 2 ^ 31 ->
  let outermost := (_lf_num_nested_critical_sections st =? 0) && negb (Nat.eqb n 0) in
  run_section_calls (repeat EnterSection n) st
  = (repeat 0 n,
     with_sections (_lf_num_nested_critical_sections st + Z.of_nat n)
       (if outermost then false else interrupts_on st) st)
  /\ run_section_calls (repeat EnterSection n ++ repeat LeaveSection n) st
     = (repeat 0 (n + n),
        with_sections (_lf_num_nested_critical_sections st)
          (if outermost then true else interrupts_on st) st)
  /\ (interrupts_on st = (_lf_num_nested_critical_sections st =? 0) ->
      run_section_calls (repeat EnterSection n ++ repeat LeaveSection n) st
      = (repeat 0 (n + n), st)).
Proof.
  intros Hpos Hbound outermost.
  pose proof (enter_sections n st Hpos Hbound) as Henter. fold outermost in Henter.
  assert (Hboth : run_section_calls (repeat EnterSection n ++ repeat LeaveSection n) st
                  = (repeat 0 (n + n),
                     with_sections (_lf_num_nested_critical_sections st)
                       (if outermost then true else interrupts_on st) st)).
  { rewrite run_section_calls_app, Henter. cbn [fst snd].
    rewrite leave_sections by (cbn; lia). cbn [fst snd].
    rewrite repeat_app. f_equal.
    unfold with_sections.
    cbn [_lf_num_nested_critical_sections interrupts_on _lf_async_event timer].
    replace (_lf_num_nested_critical_sections st + Z.of_nat n - Z.of_nat n)
      with (_lf_num_nested_critical_sections st) by lia.
    f_equal. unfold outermost.
    destruct (_lf_num_nested_critical_sections st =? 0); destruct (negb (Nat.eqb n 0));
      reflexivity. }
  split; [exact Henter | split; [exact Hboth |]].
  intros Hconsistent. rewrite Hboth. f_equal. unfold outermost.
  destruct st as [ev c irq tm]. unfold with_sections. cbn in *. subst irq.
  destruct (c =? 0); destruct (negb (Nat.eqb n 0)); reflexivity.
Qed.



(** With the timer variables as they are at start-up, the clock stays
    below 2^32 microseconds, so a later wake-up time is never seen. *)
Lemma busy_wait_past_first_period (wakeup : Z) (ticks : list tick) :
  forall (st st1 : platform_state) (now : Z),
    timer st = Arduino.clock_init -> 2 ^ 32 * 1000 <= wakeup ->
    (busy_wait wakeup ticks st = Some (now, st1) -> _lf_async_event st1 = true)
    /\ (_lf_async_event st = false -> Forall (fun k => notified k = false) ticks ->
        busy_wait wakeup ticks st = None).
Proof.
  induction ticks as [| k rest IH]; intros st st1 now Htimer Hfar.
  - split; [discriminate | reflexivity].
  - cbn [busy_wait]. rewrite Htimer.
    pose proof (lf_clock_gettime_low_word_only (elapsed_us k)) as Hnow.
    pose proof (lf_clock_gettime_keeps_high (elapsed_us k) Arduino.clock_init eq_refl) as Hclock.
    destruct (Arduino.lf_clock_gettime (Arduino.micros (elapsed_us k)) Arduino.clock_init)
      as [now1 clock].
    simpl in Hnow, Hclock. subst now1 clock.
    pose proof (Z.mod_pos_bound (elapsed_us k) (2 ^ 32) ltac:(lia)) as Hlow.
    destruct (Z.ltb_spec (elapsed_us k mod 2 ^ 32 * 1000) wakeup); [| lia].
    cbn [_lf_async_event set_async_event andb].
    split.
    + destruct (_lf_async_event st || notified k) eqn:Hev; simpl.
      * intros [= _ <-]. reflexivity.
      * intros Hrun.
        now apply (IH (set_async_event false (set_timer Arduino.clock_init st)) st1 now).
    + intros Hclear Hquiet. pose proof (Forall_inv Hquiet) as Hk. simpl in Hk.
      apply Forall_inv_tail in Hquiet.
      rewrite Hclear, Hk. simpl.
      now apply (IH (set_async_event false (set_timer Arduino.clock_init st)) st1 now).
Qed.

(** X4: on a freshly started board, a sleep whose wake-up time lies
    at or beyond 2^32 microseconds (4294967296000 ns) never ends by the
    clock: [lf_sleep_until_locked] returns -1 if it returns at all, and
    does not return as long as no event is notified; [lf_sleep] does the
    same, in both respects, for every duration from 2^32 microseconds up
    to 2^63 - 2^32 * 1000 nanoseconds, for which the wake-up time
    [now + sleep_duration] does not overflow. *)
Theorem sleep_past_first_period_never_expires
    (wakeup : Z) (ticks : list tick) (late : bool) (st : platform_state) :
  timer st = Arduino.clock_init -> 2 ^ 32 * 1000 <= wakeup ->
  (forall r st', lf_sleep_until_locked wakeup ticks late st = Some (r, st') -> r = -1)
  /\ (Forall (fun k => notified k = false) ticks ->
      lf_sleep_until_locked wakeup ticks late st = None)
  /\ (forall duration first_us,
        2 ^ 32 * 1000 <= duration <= 2 ^ 63 - 2 ^ 32 * 1000 ->
        (forall r st', lf_sleep duration first_us ticks late st = Some (r, st') -> r = -1)
        /\ (Forall (fun k => notified k = false) ticks ->
            lf_sleep duration first_us ticks late st = None)).
Proof.
  intros Htimer Hfar.
  assert (Huntil : forall w s r st',
             timer s = Arduino.clock_init -> 2 ^ 32 * 1000 <= w ->
             lf_sleep_until_locked w ticks late s = Some (r, st') -> r = -1).
  { intros w s r st' Hs Hw. unfold lf_sleep_until_locked.
    destruct (busy_wait w ticks (set_async_event false s)) as [[now st1] |] eqn:Hwait;
      [| discriminate].
    destruct (busy_wait_past_first_period w ticks (set_async_event false s) st1 now Hs Hw)
      as [Hleft _].
    cbn [_lf_async_event set_async_event]. rewrite (Hleft Hwait). simpl.
    now intros [= <- _]. }
  assert (Hblocked : forall w s,
             timer s = Arduino.clock_init -> 2 ^ 32 * 1000 <= w ->
             Forall (fun k => notified k = false) ticks ->
             lf_sleep_until_locked w ticks late s = None).
  { intros w s Hs Hw Hquiet. unfold lf_sleep_until_locked.
    destruct (busy_wait_past_first_period w ticks (set_async_event false s) s 0 Hs Hw)
      as [_ Hnone].
    now rewrite Hnone. }
  split; [| split].
  - intros r st'. now apply Huntil.
  - now apply Hblocked.
  - intros duration first_us Hduration. unfold lf_sleep. rewrite Htimer.
    pose proof (lf_clock_gettime_low_word_only first_us) as Hnow.
    pose proof (lf_clock_gettime_keeps_high first_us Arduino.clock_init eq_refl) as Hclock.
    destruct (Arduino.lf_clock_gettime (Arduino.micros first_us) Arduino.clock_init)
      as [now clock].
    simpl in Hnow, Hclock. subst now clock.
    pose proof (Z.mod_pos_bound first_us (2 ^ 32) ltac:(lia)) as Hlow.
    assert (Hwake : 2 ^ 32 * 1000
                    <= Wire.to_signed 64 (first_us mod 2 ^ 32 * 1000 + duration)).
    { rewrite to_signed_in_range; [lia | unfold Wire.in_ll; lia]. }
    split.
    + intros r st'. now apply Huntil.
    + now apply Hblocked.
Qed.

(** X5: until 2^32 microseconds have elapsed since start-up the clock
    is exact: reads made at elapsed times in that range return 1000 times
    the elapsed microseconds, and so never go back when those do not. *)
Theorem clock_exact_in_first_period (earlier later : Z) (between : list Z) :
  0 <= earlier -> earlier <= later -> later < 2 ^ 32 ->
  exists t1 t2 ts,
    Arduino.clock_reads (earlier :: between ++ [later]) Arduino.clock_init = t1 :: ts ++ [t2]
    /\ t1 = earlier * 1000 /\ t2 = later * 1000 /\ t1 <= t2.
Proof.
  intros Hpos Hle Hlt.
  exists (earlier * 1000), (later * 1000), (map (fun e => (e mod 2 ^ 32) * 1000) between).
  rewrite clock_reads_low_word_only. cbn [map]. rewrite map_app. cbn [map].
  rewrite !Z.mod_small by lia. repeat split; lia.
Qed.

End PlatformFacts.

(** ** The wire codec *)
Section CodecFacts.
Import Wire.

Lemma length_encode_le (n : nat) (v : Z) : length (encode_le n v) = n.
Proof. revert v. induction n as [| k IH]; intros v; simpl; [reflexivity | now rewrite IH]. Qed.

Lemma decode_encode_le (n : nat) (v : Z) :
  decode_le (encode_le n v) = v mod 2 ^ (8 * Z.of_nat n).
Proof.
  revert v. induction n as [| k IH]; intros v.
  - simpl. now rewrite Z.mod_1_r.
  - cbn [encode_le decode_le]. rewrite IH.
    assert (Hpow : 2 ^ (8 * Z.of_nat (S k)) = 256 * 2 ^ (8 * Z.of_nat k)).
    { rewrite Nat2Z.inj_succ.
      replace (8 * Z.succ (Z.of_nat k)) with (8 + 8 * Z.of_nat k) by lia.
      rewrite Z.pow_add_r by lia. reflexivity. }
    rewrite Hpow, Z.rem_mul_r by lia. reflexivity.
Qed.

Lemma firstn_exact {A : Type} (pre rest : list A) (n : nat) :
  length pre = n -> firstn n (pre ++ rest) = pre.
Proof.
  intros <-. induction pre as [| x pre IH]; simpl; [now destruct rest | now rewrite IH].
Qed.

Lemma skipn_exact {A : Type} (pre rest : list A) (n : nat) :
  length pre = n -> skipn n (pre ++ rest) = rest.
Proof. intros <-. induction pre as [| x pre IH]; simpl; [reflexivity | exact IH]. Qed.

Lemma extract_ushort_encode (v : Z) (rest : list byte) :
  0 <= v < 65536 -> extract_ushort (encode_ushort v ++ rest) = v.
Proof.
  intros Hv. unfold extract_ushort, encode_ushort.
  rewrite firstn_exact by apply length_encode_le.
  rewrite decode_encode_le. apply Z.mod_small. simpl. lia.
Qed.

Lemma extract_uint_encode (v : Z) (rest : list byte) :
  0 <= v < 2 ^ 32 -> extract_uint (encode_int v ++ rest) = v.
Proof.
  intros Hv. unfold extract_uint, encode_int.
  rewrite firstn_exact by apply length_encode_le.
  rewrite decode_encode_le. apply Z.mod_small. simpl. lia.
Qed.

Lemma to_signed_mod (v : Z) : to_signed 64 (v mod 2 ^ 64) = to_signed 64 v.
Proof. unfold to_signed. now rewrite Z.mod_mod by lia. Qed.

Lemma extract_ll_encode (v : Z) (rest : list byte) :
  in_ll v -> extract_ll (encode_ll v ++ rest) = v.
Proof.
  intros Hv. unfold extract_ll, encode_ll.
  rewrite firstn_exact by apply length_encode_le.
  rewrite decode_encode_le.
  change (2 ^ (8 * Z.of_nat 8)) with (2 ^ 64).
  rewrite to_signed_mod. now apply to_signed_in_range.
Qed.

(** The fields of a header come back from the 16 bytes after its type byte. *)
Lemma extract_header_fields (port federate length timestamp : Z) (rest : list byte) :
  0 <= port < 65536 -> 0 <= federate < 65536 -> 0 <= length < 2 ^ 32 -> in_ll timestamp ->
  let buffer := encode_ushort port ++ encode_ushort federate ++ encode_int length
                  ++ encode_ll timestamp ++ rest in
  extract_header buffer = (port, federate, length)
  /\ extract_ll (skipn 8 buffer) = timestamp.
Proof.
  intros Hport Hfed Hlen Hts buffer. unfold extract_header, buffer. split.
  - rewrite extract_ushort_encode by assumption.
    rewrite (skipn_exact (encode_ushort port)) by apply length_encode_le.
    rewrite extract_ushort_encode by assumption.
    rewrite (app_assoc (encode_ushort port)).
    rewrite (skipn_exact (encode_ushort port ++ encode_ushort federate)).
    + now rewrite extract_uint_encode.
    + rewrite length_app. unfold encode_ushort. now rewrite !length_encode_le.
  - rewrite (app_assoc (encode_ushort port)), (app_assoc (_ ++ _) (encode_int length)).
    rewrite (skipn_exact ((encode_ushort port ++ encode_ushort federate) ++ encode_int length)).
    + now apply extract_ll_encode.
    + rewrite !length_app. unfold encode_ushort, encode_int. now rewrite !length_encode_le.
Qed.

End CodecFacts.

(** ** Timed messages from sender to receiver *)
Section MessageFacts.
Import Sys Send Reader.
Context `{rti_h}.

Lemma read_from_socket_exact (n : nat) (s : socket) (pre rest : list Wire.byte) :
  closed s = false -> incoming s = pre ++ rest -> length pre = n ->
  read_from_socket n s = Some (pre, with_incoming rest s).
Proof.
  intros Hopen Hbytes Hlen. unfold read_from_socket, read_from_socket2.
  rewrite Hopen, Hbytes.
  destruct (Nat.leb_spec n (length (pre ++ rest))) as [_ | Hshort].
  - rewrite Z.eqb_refl, firstn_exact, skipn_exact by assumption. reflexivity.
  - rewrite length_app in Hshort. lia.
Qed.

Lemma length_timed_header (message_type port federate length timestamp : Z) :
  List.length (timed_header message_type port federate length timestamp) = 17%nat.
Proof.
  unfold timed_header, Wire.encode_ushort, Wire.encode_int, Wire.encode_ll.
  rewrite !length_app, !length_encode_le. reflexivity.
Qed.

(** The receiver's side for the bytes of one message, the type byte taken
    off: one scheduler call, and the rest of the stream left, when the
    port has an action. *)
Lemma handle_timed_message_frame (afp : Z -> option trigger_t) (s : socket) (p : process)
    (message_type : Z) (m : timed_msg) (later : list Wire.byte) :
  fits_header m -> 0 <= _lf_my_fed_id p < 65536 ->
  closed s = false ->
  incoming s = tl (frame_of message_type (_lf_my_fed_id p) m) ++ later ->
  handle_timed_message afp s p
  = match afp (msg_port m) with
    | Some action =>
        Done (with_incoming later s,
              add_scheduled (scheduled_for (current_time p) action m) p)
    | None => NullDereference p
    end.
Proof.
  intros (Hport & Hlen & Htime) Hid Hopen Hbytes.
  unfold frame_of, timed_header in Hbytes. cbn [app tl] in Hbytes.
  rewrite <- !app_assoc in Hbytes.
  set (header := Wire.encode_ushort (msg_port m) ++ Wire.encode_ushort (_lf_my_fed_id p)
                   ++ Wire.encode_int (Z.of_nat (length (msg_payload m)))
                   ++ Wire.encode_ll (msg_time m)).
  assert (Hheader : read_from_socket 16 s
                    = Some (header, with_incoming (msg_payload m ++ later) s)).
  { apply read_from_socket_exact; [assumption | |].
    - unfold header. now rewrite <- !app_assoc.
    - unfold header, Wire.encode_ushort, Wire.encode_int, Wire.encode_ll.
      rewrite !length_app, !length_encode_le. reflexivity. }
  destruct (extract_header_fields (msg_port m) (_lf_my_fed_id p)
              (Z.of_nat (length (msg_payload m))) (msg_time m) [] Hport Hid
              ltac:(lia) Htime) as [Hfields Hstamp].
  rewrite !app_nil_r in Hfields, Hstamp. fold header in Hfields, Hstamp.
  unfold handle_timed_message. rewrite Hheader, Hfields, Z.eqb_refl. simpl negb. cbv iota.
  rewrite Nat2Z.id.
  rewrite (read_from_socket_exact _ _ (msg_payload m) later) by (auto; reflexivity).
  rewrite Hstamp. destruct (afp (msg_port m)); reflexivity.
Qed.

(** X6: what [send_message_timed] writes, [handle_timed_message]
    takes apart again.  The sender makes two writes, a header of 17 bytes
    and the payload (of fewer than 2^32 bytes); a receiver whose id is the
    destination and whose stream holds these bytes after the type byte is
    left with the bytes that follow and, when [__action_for_port] gives an
    action for the port, schedules the same payload on that action, with
    the delay "logical time of the sender minus logical time of the
    receiver", the element size of the action and the length converted
    to [int].  When the port has no action the receiver dereferences the
    null pointer. *)
Theorem timed_message_round_trip
    (afp : Z -> option trigger_t) (socket_id : Z) (out : socket) (message_type port : Z)
    (message : list Wire.byte) (sender receiver : process) :
  0 <= port < 65536 -> 0 <= _lf_my_fed_id receiver < 65536 ->
  Z.of_nat (length message) < 2 ^ 32 -> Wire.in_ll (current_time sender) ->
  can_write out = true ->
  exists header,
    send_message_timed socket_id out message_type port (_lf_my_fed_id receiver) message sender
    = Done (log (SysWrite socket_id message) (log (SysWrite socket_id header) sender))
    /\ length header = 17%nat
    /\ hd 0 header = message_type mod 256
    /\ forall (s : socket) (later : list Wire.byte),
         closed s = false -> incoming s = tl header ++ message ++ later ->
         (forall action,
             afp port = Some action ->
             exists receiver',
               handle_timed_message afp s receiver = Done (with_incoming later s, receiver')
               /\ scheduled receiver' = scheduled receiver ++
                    [{| sc_trigger := action;
                        sc_extra_delay :=
                          Wire.sub_ll (current_time sender) (current_time receiver);
                        sc_element_size := element_size action;
                        sc_value := message;
                        sc_length := Wire.to_signed 32 (Z.of_nat (length message)) |}])
         /\ (afp port = None ->
             handle_timed_message afp s receiver = NullDereference receiver).
Proof.
  intros Hport Hid Hlen Htime Hout.
  exists (timed_header message_type port (_lf_my_fed_id receiver)
            (Z.of_nat (length message)) (current_time sender)).
  unfold send_message_timed. rewrite Hout.
  destruct (Z.ltb_spec port 65536); [| lia].
  destruct (Z.ltb_spec (_lf_my_fed_id receiver) 65536); [| lia].
  split; [reflexivity | split; [apply length_timed_header | split; [reflexivity |]]].
  intros s later Hopen Hbytes.
  pose (m := {| msg_port := port; msg_time := current_time sender; msg_payload := message |}).
  assert (Hframe : handle_timed_message afp s receiver
                   = match afp port with
                     | Some action =>
                         Done (with_incoming later s,
                               add_scheduled (scheduled_for (current_time receiver) action m)
                                 receiver)
                     | None => NullDereference receiver
                     end).
  { apply (handle_timed_message_frame afp s receiver message_type m later); try assumption.
    repeat split; simpl; try lia; apply Htime. }
  rewrite Hframe. split.
  - intros action ->. eexists. split; reflexivity.
  - intros ->. reflexivity.
Qed.

End MessageFacts.

(** ** The peer reader on whole streams *)
Section ReaderStreamFacts.
Import Sys Send Reader.
Context `{rti_h}.

Lemma read_from_socket_shorter (n : nat) (s s' : socket) (buffer : list Wire.byte) :
  read_from_socket n s = Some (buffer, s') ->
  closed s' = false /\ (length (incoming s') + n = length (incoming s))%nat.
Proof.
  unfold read_from_socket, read_from_socket2.
  destruct (closed s) eqn:Hclosed.
  - destruct (Z.eqb_spec (-1) (Z.of_nat n)); [lia | discriminate].
  - destruct (Nat.leb_spec n (length (incoming s))) as [Hle | Hgt].
    + rewrite Z.eqb_refl. intros [= _ <-]. simpl. split; [assumption |].
      rewrite length_skipn. lia.
    + destruct (at_end s).
      * destruct (Z.eqb_spec 0 (Z.of_nat n)); [lia | discriminate].
      * destruct (Z.eqb_spec (-1) (Z.of_nat n)); [lia | discriminate].
Qed.

Lemma handle_timed_message_shorter (afp : Z -> option trigger_t) (s s' : socket) (p p' : process) :
  handle_timed_message afp s p = Done (s', p') ->
  closed s' = false /\ (length (incoming s') <= length (incoming s))%nat.
Proof.
  unfold handle_timed_message.
  destruct (read_from_socket 16 s) as [[buffer s1] |] eqn:Hheader; [| discriminate].
  destruct (Wire.extract_header buffer) as [[port_id federate_id] len].
  destruct (negb (_lf_my_fed_id p =? federate_id)); [discriminate |].
  destruct (read_from_socket (Z.to_nat len) s1) as [[payload s2] |] eqn:Hpayload;
    [| discriminate].
  destruct (afp port_id); [| discriminate].
  cbn [schedule_value_already_locked]. intros [= <- _].
  apply read_from_socket_shorter in Hheader, Hpayload. split; [apply Hpayload | lia].
Qed.

Lemma read_from_socket2_byte (s : socket) (b : Wire.byte) (later : list Wire.byte) :
  closed s = false -> incoming s = b :: later ->
  read_from_socket2 1 s = (1, [b], with_incoming later s).
Proof. intros Hopen Hbytes. unfold read_from_socket2. now rewrite Hopen, Hbytes. Qed.

(** One iteration of the loop on a stream that has a byte to deliver. *)
Lemma listen_loop_byte (fuel : nat) (afp : Z -> option trigger_t) (fed_id socket_id : Z)
    (s : socket) (p : process) (b : Wire.byte) (later : list Wire.byte) :
  closed s = false -> incoming s = b :: later ->
  listen_loop (S fuel) afp fed_id socket_id s p =
    if b =? P2P_TIMED_MESSAGE then
      match handle_timed_message afp (with_incoming later s) (log (SysRead socket_id 1) p) with
      | Done (s2, p2) => listen_loop fuel afp fed_id socket_id s2 p2
      | Exit p2 => Some (Exit p2)
      | AssertFailed p2 => Some (AssertFailed p2)
      | NullDereference p2 => Some (NullDereference p2)
      end
    else
      listen_loop fuel afp fed_id socket_id (close (with_incoming later s))
        (set_inbound fed_id (-1) (log (SysClose socket_id) (log (SysRead socket_id 1) p))).
Proof.
  intros Hopen Hbytes. cbn [listen_loop].
  rewrite (read_from_socket2_byte s b later Hopen Hbytes). reflexivity.
Qed.

(** X7: a peer reader whose stream is made of whole messages for this
    federate, as [send_message_timed] frames them with the type
    P2P_TIMED_MESSAGE, each for a port that has an action, followed by
    the end of the stream, makes one scheduler call per message, on the
    action of its port, in the order of the messages on the socket, and
    then returns with the socket closed. *)
Theorem reader_schedules_in_order
    (afp : Z -> option trigger_t) (fed_id socket_id : Z) (msgs : list timed_msg) :
  forall (actions : list trigger_t) (fuel : nat) (s : socket) (p : process),
    0 <= P2P_TIMED_MESSAGE < 256 -> Forall fits_header msgs ->
    Forall2 (fun m action => afp (msg_port m) = Some action) msgs actions ->
    0 <= _lf_my_fed_id p < 65536 ->
    closed s = false -> at_end s = PeerClosed ->
    incoming s = concat (map (frame_of P2P_TIMED_MESSAGE (_lf_my_fed_id p)) msgs) ->
    (length msgs < fuel)%nat ->
    exists s' p',
      listen_loop fuel afp fed_id socket_id s p = Some (Done (s', p'))
      /\ scheduled p'
         = scheduled p ++ zip_with (scheduled_for (current_time p)) actions msgs
      /\ closed s' = true.
Proof.
  induction msgs as [| m rest IH];
    intros actions fuel s p Htype Hfit Hacts Hid Hopen Hend Hbytes Hfuel.
  - destruct fuel as [| fuel]; [simpl in Hfuel; lia |].
    rewrite (listen_loop_eof fuel afp fed_id socket_id s p Hopen Hbytes Hend).
    eexists. eexists. split; [reflexivity | split; [| reflexivity]].
    inversion Hacts; subst. simpl. now rewrite app_nil_r.
  - destruct fuel as [| fuel]; [simpl in Hfuel; lia |].
    pose proof (Forall_inv Hfit) as Hm. apply Forall_inv_tail in Hfit.
    inversion Hacts as [| m0 action rest0 others Haction Hothers]; subst.
    cbn [map concat] in Hbytes.
    assert (Hframe : frame_of P2P_TIMED_MESSAGE (_lf_my_fed_id p) m
                     = P2P_TIMED_MESSAGE
                         :: tl (frame_of P2P_TIMED_MESSAGE (_lf_my_fed_id p) m)).
    { unfold frame_of, timed_header. cbn [app tl]. now rewrite Z.mod_small by lia. }
    rewrite Hframe in Hbytes. cbn [app] in Hbytes.
    set (later := concat (map (frame_of P2P_TIMED_MESSAGE (_lf_my_fed_id p)) rest)) in *.
    set (p1 := log (SysRead socket_id 1) p).
    assert (Hhandled :
              handle_timed_message afp
                (with_incoming (tl (frame_of P2P_TIMED_MESSAGE (_lf_my_fed_id p) m) ++ later) s) p1
              = Done (with_incoming later s,
                      add_scheduled (scheduled_for (current_time p) action m) p1)).
    { rewrite (handle_timed_message_frame afp _ p1 P2P_TIMED_MESSAGE m later)
        by (try assumption; reflexivity).
      now rewrite Haction. }
    destruct (IH others fuel (with_incoming later s)
                (add_scheduled (scheduled_for (current_time p) action m) p1))
      as (s' & p' & Hrun & Hsched & Hclosed); try assumption; try reflexivity.
    { simpl in Hfuel. lia. }
    exists s', p'. split; [| split; [| exact Hclosed]].
    + rewrite (listen_loop_byte fuel afp fed_id socket_id s p _ _ Hopen Hbytes).
      rewrite Z.eqb_refl. fold p1. rewrite Hhandled. exact Hrun.
    + rewrite Hsched. simpl. now rewrite <- app_assoc.
Qed.

(** X8: the peer reader always ends.  Whatever bytes the socket
    delivers and however the stream ends, the loop is left (by returning,
    or with the process) within as many iterations as there are bytes to
    come, plus two. *)
Theorem listen_loop_terminates (afp : Z -> option trigger_t) (fed_id socket_id : Z) (fuel : nat) :
  forall (s : socket) (p : process),
    (length (incoming s) + 2 <= fuel)%nat ->
    exists r, listen_loop fuel afp fed_id socket_id s p = Some r.
Proof.
  induction fuel as [| fuel IH]; intros s p Hfuel; [lia |].
  destruct (closed s) eqn:Hclosed.
  { rewrite listen_loop_closed by assumption. eauto. }
  destruct (incoming s) as [| b later] eqn:Hbytes.
  - destruct (at_end s) eqn:Hend.
    + rewrite listen_loop_eof by assumption. eauto.
    + rewrite listen_loop_broken by assumption. eauto.
  - rewrite (listen_loop_byte fuel afp fed_id socket_id s p b later Hclosed Hbytes).
    destruct (b =? P2P_TIMED_MESSAGE).
    + destruct (handle_timed_message afp (with_incoming later s) (log (SysRead socket_id 1) p))
        as [[s2 p2] | p2 | p2 | p2] eqn:Hhandled; eauto.
      apply handle_timed_message_shorter in Hhandled. destruct Hhandled as [_ Hshorter].
      apply IH. simpl in Hfuel, Hshorter. lia.
    + destruct fuel as [| fuel']; [simpl in Hfuel; lia |].
      rewrite listen_loop_closed by reflexivity. eauto.
Qed.

End ReaderStreamFacts.

(** ** The RTI reader and the start time *)
Section RtiFacts.
Import Sys Coordinator Rti.
Context `{rti_h} `{rti_h_types}.

Lemma read_from_socket_nothing (n : nat) (s : socket) :
  incoming s = [] -> n <> O -> read_from_socket n s = None.
Proof.
  intros Hbytes Hn. unfold read_from_socket, read_from_socket2. rewrite Hbytes.
  destruct (closed s).
  - destruct (Z.eqb_spec (-1) (Z.of_nat n)); [lia | reflexivity].
  - destruct n as [| k]; [congruence |]. simpl.
    destruct (at_end s); reflexivity.
Qed.

Lemma can_write_open (s : socket) : can_write s = true -> closed s = false.
Proof.
  unfold can_write. destruct (closed s); [| reflexivity].
  now rewrite andb_false_r.
Qed.

(** One frame carrying a time, at the head of the stream. *)
Lemma read_type_and_time (s : socket) (type t : Z) (later : list Wire.byte) :
  closed s = false -> incoming s = (type :: Wire.encode_ll t) ++ later ->
  read_from_socket 1 s = Some ([type], with_incoming (Wire.encode_ll t ++ later) s)
  /\ read_from_socket 8 (with_incoming (Wire.encode_ll t ++ later) s)
     = Some (Wire.encode_ll t, with_incoming later s).
Proof.
  intros Hopen Hbytes. split.
  - now apply (read_from_socket_exact 1 s [type]).
  - rewrite (read_from_socket_exact 8 _ (Wire.encode_ll t) later);
      [reflexivity | assumption | reflexivity | apply length_encode_le].
Qed.

(** X9: the RTI reader turns the frames of the RTI into the actions
    the coordinator is modelled with.  On a stream made of
    TIME_ADVANCE_GRANT and STOP frames it applies the corresponding
    handlers in the order of the frames, schedules nothing, and, when the
    stream ends, ends the process. *)
Theorem listen_to_rti_applies_frames (afp : Z -> option trigger_t) (acts : list env_action) :
  forall (fuel : nat) (s : socket) (p : process) (st : fed_state),
    TIME_ADVANCE_GRANT <> TIMED_MESSAGE -> STOP <> TIMED_MESSAGE ->
    STOP <> TIME_ADVANCE_GRANT ->
    Forall from_rti acts ->
    closed s = false -> incoming s = concat (map frame_of_action acts) ->
    (length acts < fuel)%nat ->
    listen_to_rti fuel afp s p st = Some (RtiExit p (run_wake acts st)).
Proof.
  induction acts as [| a rest IH]; intros fuel s p st Htag Hstop Hdiff Hall Hopen Hbytes Hfuel;
    (destruct fuel as [| fuel]; [simpl in Hfuel; lia |]).
  - cbn [listen_to_rti]. now rewrite read_from_socket_nothing.
  - pose proof (Forall_inv Hall) as Ha. apply Forall_inv_tail in Hall.
    cbn [map concat] in Hbytes. cbn [listen_to_rti].
    assert (Hnext : forall st2,
               listen_to_rti fuel afp
                 (with_incoming (concat (map frame_of_action rest)) s) p st2
               = Some (RtiExit p (run_wake rest st2))).
    { intros st2. apply IH; try assumption; try reflexivity. simpl in Hfuel. lia. }
    destruct a as [g | t | q]; [| | contradiction]; cbn [frame_of_action] in Hbytes.
    + destruct (read_type_and_time s _ _ _ Hopen Hbytes) as [-> Htime].
      cbn [hd].
      destruct (Z.eqb_spec TIME_ADVANCE_GRANT TIMED_MESSAGE); [contradiction |].
      rewrite Z.eqb_refl. unfold handle_time_advance_grant_from. rewrite Htime.
      rewrite <- (app_nil_r (Wire.encode_ll g)), extract_ll_encode by exact Ha.
      apply Hnext.
    + destruct (read_type_and_time s _ _ _ Hopen Hbytes) as [-> Htime].
      cbn [hd].
      destruct (Z.eqb_spec STOP TIMED_MESSAGE); [contradiction |].
      destruct (Z.eqb_spec STOP TIME_ADVANCE_GRANT); [contradiction |].
      rewrite Z.eqb_refl. unfold handle_incoming_stop_message_from. rewrite Htime.
      apply Hnext.
Qed.

(** X10: the RTI reader always ends, and always with the process
    (its loop has no way out but [error_print_and_exit], a failed
    assertion or a fault inside a handler): whatever the socket delivers,
    the loop is left within as many iterations as there are bytes to
    come, plus one. *)
Theorem listen_to_rti_terminates (afp : Z -> option trigger_t) (fuel : nat) :
  forall (s : socket) (p : process) (st : fed_state),
    (length (incoming s) < fuel)%nat ->
    exists e, listen_to_rti fuel afp s p st = Some e.
Proof.
  induction fuel as [| fuel IH]; intros s p st Hfuel; [lia |].
  cbn [listen_to_rti].
  destruct (read_from_socket 1 s) as [[buffer s1] |] eqn:Htype; [| eauto].
  apply read_from_socket_shorter in Htype. destruct Htype as [_ Hs1].
  destruct (hd 0 buffer =? TIMED_MESSAGE).
  { destruct (Reader.handle_timed_message afp s1 p) as [[s2 p2] | p2 | p2 | p2] eqn:Hmsg;
      eauto.
    apply handle_timed_message_shorter in Hmsg. apply IH. lia. }
  destruct (hd 0 buffer =? TIME_ADVANCE_GRANT).
  { unfold handle_time_advance_grant_from.
    destruct (read_from_socket 8 s1) as [[c s2] |] eqn:Hread; eauto.
    apply read_from_socket_shorter in Hread. apply IH. lia. }
  destruct (hd 0 buffer =? STOP); [| eauto].
  unfold handle_incoming_stop_message_from.
  destruct (read_from_socket 8 s1) as [[c s2] |] eqn:Hread; eauto.
  apply read_from_socket_shorter in Hread. apply IH. lia.
Qed.

(** X11: [get_start_time_from_rti] writes the TIMESTAMP marker and
    the eight bytes of its own physical time, and returns the time carried
    by a TIMESTAMP reply; a reply of nine bytes that starts with any other
    byte ends the process. *)
Theorem get_start_time_from_rti_reply
    (my_physical_time : Z) (s : socket) (p : process)
    (type start : Z) (later : list Wire.byte) :
  can_write s = true -> Wire.in_ll start ->
  incoming s = (type :: Wire.encode_ll start) ++ later ->
  let p' := log (SysWrite (_lf_rti_socket p) (Wire.encode_ll my_physical_time))
              (log (SysWrite (_lf_rti_socket p) [TIMESTAMP]) p) in
  length (Wire.encode_ll my_physical_time) = 8%nat
  /\ (type = TIMESTAMP ->
      get_start_time_from_rti my_physical_time s p = Done (start, p'))
  /\ (type <> TIMESTAMP ->
      get_start_time_from_rti my_physical_time s p = Exit p').
Proof.
  intros Hwrite Hstart Hbytes p'.
  split; [apply length_encode_le |].
  assert (Hread : read_from_socket 9 s
                  = Some (type :: Wire.encode_ll start, with_incoming later s)).
  { apply read_from_socket_exact; [now apply can_write_open | assumption |].
    cbn [length]. unfold Wire.encode_ll. now rewrite length_encode_le. }
  unfold get_start_time_from_rti. rewrite Hwrite, Hread. cbn [negb hd tl].
  split; intros Htype.
  - subst type. rewrite Z.eqb_refl. cbn [negb].
    rewrite <- (app_nil_r (Wire.encode_ll start)), extract_ll_encode by exact Hstart.
    reflexivity.
  - destruct (Z.eqb_spec type TIMESTAMP); [contradiction | reflexivity].
Qed.

End RtiFacts.

(** ** The server socket for peers *)
Section ServerFacts.
Import Sys Server Connect.
Context `{rti_h} `{rti_h_types}.

Lemma binds_of_app (l1 l2 : list server_call) : binds_of (l1 ++ l2) = binds_of l1 ++ binds_of l2.
Proof.
  induction l1 as [| c rest IH]; [reflexivity |].
  destruct c; simpl; now rewrite ?IH.
Qed.

(** Failed [bind()] calls inside the range move the port on until one
    succeeds. *)
Lemma bind_next_finds (fd : Z) (rest : list bool) (j : nat) :
  forall (port : Z) (st : server_state),
    STARTING_PORT <= port -> port + Z.of_nat j <= STARTING_PORT + PORT_RANGE_LIMIT ->
    bind_next 0 fd (repeat false j ++ true :: rest) port st
    = Some (true, port + Z.of_nat j + 1,
            {| _lf_server_port := _lf_server_port st;
               _lf_server_socket := _lf_server_socket st;
               server_calls := server_calls st
                                 ++ map (SrvBind fd) (ports_from (port + 1) (S j)) |}).
Proof.
  induction j as [| j IH]; intros port st Hlow Hhigh.
  - cbn [repeat app bind_next]. change (Z.of_nat 0) with 0 in *.
    rewrite Z.add_0_r in *.
    destruct (Z.geb_spec port STARTING_PORT); [| lia].
    destruct (Z.leb_spec port (STARTING_PORT + PORT_RANGE_LIMIT)); [| lia].
    change (0 =? 0) with true. cbn [andb].
    unfold server_log, ports_from. cbn [seq map].
    change (Z.of_nat 0) with 0. rewrite Z.add_0_r. reflexivity.
  - rewrite Nat2Z.inj_succ in Hhigh |- *. cbn [repeat app bind_next].
    destruct (Z.geb_spec port STARTING_PORT); [| lia].
    destruct (Z.leb_spec port (STARTING_PORT + PORT_RANGE_LIMIT)); [| lia].
    change (0 =? 0) with true. cbn [andb].
    rewrite IH by lia. rewrite (ports_from_cons (port + 1) (S j)).
    unfold server_log. cbn [server_calls _lf_server_port _lf_server_socket map].
    rewrite <- app_assoc. cbn [app].
    replace (port + 1 + Z.of_nat j + 1) with (port + Z.succ (Z.of_nat j) + 1) by lia.
    reflexivity.
Qed.

(** Failed [bind()] calls only: the loop stops one port past the range. *)
Lemma bind_next_exhausts (fd : Z) (j : nat) :
  forall (binds : list bool) (port : Z) (st : server_state),
    STARTING_PORT <= port ->
    port + Z.of_nat j = STARTING_PORT + PORT_RANGE_LIMIT + 1 ->
    Forall (fun ok => ok = false) binds -> (j <= length binds)%nat ->
    exists st',
      bind_next 0 fd binds port st = Some (false, STARTING_PORT + PORT_RANGE_LIMIT + 1, st')
      /\ _lf_server_port st' = _lf_server_port st
      /\ server_calls st' = server_calls st ++ map (SrvBind fd) (ports_from (port + 1) j).
Proof.
  induction j as [| j IH]; intros binds port st Hlow Hhigh Hall Hlen.
  - simpl Z.of_nat in Hhigh. exists st.
    assert (Hstop : bind_next 0 fd binds port st = Some (false, port, st)).
    { destruct binds; cbn [bind_next];
        destruct (Z.leb_spec port (STARTING_PORT + PORT_RANGE_LIMIT)); try lia;
        now rewrite andb_false_r. }
    rewrite Hstop. simpl. rewrite app_nil_r. repeat split. f_equal. f_equal. f_equal. lia.
  - rewrite Nat2Z.inj_succ in Hhigh.
    destruct binds as [| ok rest]; [simpl in Hlen; lia |].
    pose proof (Forall_inv Hall) as Hok. simpl in Hok. subst ok.
    apply Forall_inv_tail in Hall.
    destruct (IH rest (port + 1) (server_log (SrvBind fd (port + 1)) st))
      as (st' & Hrun & Hport & Hcalls); try assumption; try lia.
    { simpl in Hlen. lia. }
    exists st'. cbn [bind_next].
    destruct (Z.geb_spec port STARTING_PORT); [| lia].
    destruct (Z.leb_spec port (STARTING_PORT + PORT_RANGE_LIMIT)); [| lia].
    simpl andb. cbv iota. split; [exact Hrun | split; [exact Hport |]].
    rewrite Hcalls, ports_from_cons. simpl. now rewrite <- app_assoc.
Qed.

(** X12: [create_server] with no port specified, when the [bind()]
    calls fail [k] times and then succeed ([k] at most
    [PORT_RANGE_LIMIT + 1]): the ports tried are [STARTING_PORT] and the
    [k] following ones, in order; the server listens with backlog 128 on
    the last of them, which becomes [_lf_server_port] and is sent to the
    RTI in an ADDRESS_AD message of five bytes; the descriptor becomes
    [_lf_server_socket]. *)
Theorem create_server_finds_port
    (fd : Z) (k : nat) (rest : list bool) (rti : socket) (st : server_state) :
  0 <= fd -> Z.of_nat k <= PORT_RANGE_LIMIT + 1 -> can_write rti = true ->
  create_server 0 fd (repeat false k ++ true :: rest) rti st
  = Some (ServerUp
            {| _lf_server_port := STARTING_PORT + Z.of_nat k;
               _lf_server_socket := fd;
               server_calls :=
                 server_calls st ++ map (SrvBind fd) (ports_from STARTING_PORT (S k))
                   ++ [SrvListen fd 128;
                       SrvWriteRti (ADDRESS_AD
                                      :: Wire.encode_int (STARTING_PORT + Z.of_nat k))] |})
  /\ length (ADDRESS_AD :: Wire.encode_int (STARTING_PORT + Z.of_nat k)) = 5%nat.
Proof.
  intros Hfd Hk Hrti. split.
  - unfold create_server. simpl (0 =? 0). cbv iota.
    destruct (Z.ltb_spec fd 0); [lia |].
    destruct k as [| j].
    + cbn [repeat app]. rewrite Hrti. simpl. unfold server_log. simpl.
      rewrite Z.add_0_r. rewrite <- !app_assoc. reflexivity.
    + cbn [repeat app]. rewrite Nat2Z.inj_succ in Hk |- *.
      rewrite bind_next_finds by lia. rewrite Hrti. simpl negb. cbv iota.
      unfold server_log. cbn [server_calls _lf_server_port _lf_server_socket].
      rewrite (ports_from_cons STARTING_PORT (S j)).
      replace (STARTING_PORT + Z.of_nat j + 1) with (STARTING_PORT + Z.succ (Z.of_nat j)) by lia.
      cbn [map app]. rewrite <- !app_assoc. reflexivity.
  - cbn [length]. unfold Wire.encode_int. now rewrite length_encode_le.
Qed.

(** X13: when every [bind()] fails, [create_server] ends the process
    without listening, leaving [_lf_server_port] as it was.  With no port
    specified it has then tried [PORT_RANGE_LIMIT + 2] ports, from
    [STARTING_PORT] to [STARTING_PORT + PORT_RANGE_LIMIT + 1]; with a
    port specified it has tried that port only. *)
Theorem create_server_gives_up
    (specified_port fd : Z) (binds : list bool) (rti : socket) (st : server_state) :
  0 <= fd -> 0 <= PORT_RANGE_LIMIT ->
  Forall (fun ok => ok = false) binds ->
  (Z.to_nat (PORT_RANGE_LIMIT + 2) <= length binds)%nat ->
  exists st',
    create_server specified_port fd binds rti st = Some (ServerExit st')
    /\ _lf_server_port st' = _lf_server_port st
    /\ server_calls st' = server_calls st ++
         map (SrvBind fd)
           (if specified_port =? 0
            then ports_from STARTING_PORT (Z.to_nat (PORT_RANGE_LIMIT + 2))
            else [specified_port]).
Proof.
  intros Hfd Hrange Hall Hlen. unfold create_server.
  destruct (Z.ltb_spec fd 0); [lia |].
  destruct binds as [| ok rest]; [simpl in Hlen; lia |].
  pose proof (Forall_inv Hall) as Hok. simpl in Hok. subst ok.
  apply Forall_inv_tail in Hall.
  destruct (Z.eqb_spec specified_port 0) as [-> | Hspecified].
  - destruct (bind_next_exhausts fd (Z.to_nat (PORT_RANGE_LIMIT + 1)) rest STARTING_PORT
                (server_log (SrvBind fd STARTING_PORT) st))
      as (st' & Hrun & Hport & Hcalls); try assumption; try lia.
    { simpl in Hlen. lia. }
    exists st'. rewrite Hrun. split; [reflexivity | split; [exact Hport |]].
    rewrite Hcalls. simpl. rewrite <- app_assoc.
    replace (Z.to_nat (PORT_RANGE_LIMIT + 2)) with (S (Z.to_nat (PORT_RANGE_LIMIT + 1))) by lia.
    now rewrite ports_from_cons.
  - exists (server_log (SrvBind fd specified_port) st).
    assert (Hstop : forall l p0 s0, bind_next specified_port fd l p0 s0 = Some (false, p0, s0)).
    { intros l p0 s0. destruct l; cbn [bind_next];
        destruct (Z.eqb_spec specified_port 0); try contradiction; reflexivity. }
    rewrite Hstop. split; [reflexivity | split; reflexivity].
Qed.

End ServerFacts.

(** ** More on connecting to the RTI *)
Section ConnectRtiMoreFacts.
Import Sys Connect.
Context `{rti_h}.

(** The RTI answers the FED_ID message with another byte than REJECT. *)
Lemma rti_handshake_taken (id fd : Z) (s : socket) (p : process)
    (response : Wire.byte) (later : list Wire.byte) :
  can_write s = true -> incoming s = response :: later -> response <> REJECT ->
  rti_handshake id fd s p
  = Some (response, 0,
          log (SysWrite fd (firstn (strnlen (federation_id p) 255) (federation_id p)))
            (log (SysWrite fd (FED_ID :: Wire.encode_ushort id
                                 ++ [Z.land (Z.of_nat (strnlen (federation_id p) 255)) 255])) p)).
Proof.
  intros Hwrite Hbytes Hother. unfold rti_handshake. rewrite Hwrite.
  rewrite (read_from_socket_exact 1 s [response] later)
    by (try apply can_write_open; auto).
  cbn [negb hd]. destruct (Z.eqb_spec response REJECT); [contradiction |].
  now rewrite Nat2Z.id.
Qed.

(** The RTI answers with REJECT and a cause. *)
Lemma rti_handshake_rejected (id fd : Z) (s : socket) (p : process)
    (cause : Wire.byte) (later : list Wire.byte) :
  can_write s = true -> incoming s = REJECT :: cause :: later ->
  rti_handshake id fd s p
  = Some (REJECT, cause,
          log (SysWrite fd (firstn (strnlen (federation_id p) 255) (federation_id p)))
            (log (SysWrite fd (FED_ID :: Wire.encode_ushort id
                                 ++ [Z.land (Z.of_nat (strnlen (federation_id p) 255)) 255])) p)).
Proof.
  intros Hwrite Hbytes. unfold rti_handshake. rewrite Hwrite.
  pose proof (can_write_open s Hwrite) as Hopen.
  rewrite (read_from_socket_exact 1 s [REJECT] (cause :: later)) by auto.
  cbn [negb hd]. rewrite Z.eqb_refl.
  rewrite (read_from_socket_exact 1 _ [cause] later) by auto.
  now rewrite Nat2Z.id.
Qed.

(** The scan over failed attempts, with what it leaves untouched. *)
Lemma connect_rti_loop_scan_keeps (id : Z) (firsts : list attempt) :
  forall (rest : list attempt) (port c : Z) (p : process),
    Forall connect_fails firsts ->
    STARTING_PORT <= port ->
    port + Z.of_nat (length firsts) <= STARTING_PORT + PORT_RANGE_LIMIT + 1 ->
    exists p' trace,
      connect_rti_loop id false (firsts ++ rest) port c p
      = connect_rti_loop id false rest (port + Z.of_nat (length firsts)) c p'
      /\ calls p' = calls p ++ trace
      /\ scan_of trace = map Some (ports_from port (length firsts))
      /\ federation_id p' = federation_id p.
Proof.
  induction firsts as [| a firsts IH]; intros rest port c p Hall Hlow Hhigh.
  - exists p, []. simpl. rewrite Z.add_0_r, app_nil_r. auto.
  - pose proof (Forall_inv Hall) as (Hfd & Hhost & Hconn). apply Forall_inv_tail in Hall.
    cbn [length] in Hhigh. rewrite Nat2Z.inj_succ in Hhigh.
    destruct (IH rest (port + 1) c
                (log (SysConnect (socket_fd a) port) (set_rti_socket (socket_fd a) p))
                Hall) as (p' & trace & Hrun & Hcalls & Hscan & Hfid); [lia | lia |].
    exists p', (SysConnect (socket_fd a) port :: trace).
    split; [| split; [| split]].
    + rewrite <- app_comm_cons. cbn [connect_rti_loop length].
      rewrite Hhost, Hconn.
      destruct (Z.ltb_spec (socket_fd a) 0); [lia |].
      destruct (Z.geb_spec port STARTING_PORT); [| lia].
      destruct (Z.leb_spec port (STARTING_PORT + PORT_RANGE_LIMIT)); [| lia].
      simpl. rewrite Hrun. f_equal. lia.
    + rewrite Hcalls. simpl. now rewrite <- app_assoc.
    + cbn [scan_of length]. rewrite Hscan, ports_from_cons. reflexivity.
    + exact Hfid.
Qed.

(** X14: [connect_to_rti] with no port specified finds an RTI that
    listens on the [k]-th port after [STARTING_PORT] ([k] at most
    [PORT_RANGE_LIMIT + 1]): it makes [k + 1] connects on consecutive
    ports without sleeping, sends the FED_ID message and the federation
    id on the first socket that connects, and, the answer not being REJECT,
    returns with that port and with [_lf_rti_socket] set to that socket. *)
Theorem connect_to_rti_finds_rti
    (id : Z) (fails : list attempt) (a : attempt) (rest : list attempt) (p : process)
    (response : Wire.byte) (later : list Wire.byte) :
  Forall connect_fails fails ->
  Z.of_nat (length fails) <= PORT_RANGE_LIMIT + 1 ->
  0 <= socket_fd a -> host_found a = true -> connected a = true ->
  can_write (remote a) = true -> incoming (remote a) = response :: later ->
  response <> REJECT ->
  exists p' trace,
    connect_to_rti id 0 (fails ++ a :: rest) p
    = Some (Done (STARTING_PORT + Z.of_nat (length fails), p'))
    /\ _lf_rti_socket p' = socket_fd a
    /\ calls p' = calls p ++ trace
         ++ [SysConnect (socket_fd a) (STARTING_PORT + Z.of_nat (length fails));
             SysWrite (socket_fd a)
               (FED_ID :: Wire.encode_ushort id
                  ++ [Z.land (Z.of_nat (strnlen (federation_id p) 255)) 255]);
             SysWrite (socket_fd a)
               (firstn (strnlen (federation_id p) 255) (federation_id p))]
    /\ scan_of trace = map Some (ports_from STARTING_PORT (length fails)).
Proof.
  intros Hfails Hk Hfd Hhost Hconn Hwrite Hbytes Hother.
  destruct (connect_rti_loop_scan_keeps id fails (a :: rest) STARTING_PORT 0 p Hfails)
    as (p1 & trace & Hrun & Hcalls & Hscan & Hfid); [lia | lia |].
  set (port := STARTING_PORT + Z.of_nat (length fails)) in *.
  eexists. exists trace. unfold connect_to_rti. simpl (0 =? 0). cbv iota.
  rewrite Hrun. cbn [connect_rti_loop]. rewrite Hhost, Hconn.
  destruct (Z.ltb_spec (socket_fd a) 0); [lia |].
  cbn [negb andb].
  rewrite (rti_handshake_taken id (socket_fd a) (remote a) _ response later Hwrite Hbytes Hother).
  destruct (Z.eqb_spec response REJECT); [contradiction |].
  split; [reflexivity | split; [reflexivity | split; [| exact Hscan]]].
  simpl. rewrite Hcalls, Hfid. now rewrite <- !app_assoc.
Qed.

(** Failed attempts on a port from which the scan does not move: a
    specified port, or a port outside the scanned range. *)
Lemma connect_rti_loop_same_port (id : Z) (specific : bool) (port : Z) (n : nat) :
  forall (attempts : list attempt) (c : Z) (p : process),
    specific = true \/ STARTING_PORT + PORT_RANGE_LIMIT + 1 < port ->
    c + Z.of_nat n = CONNECT_NUM_RETRIES ->
    Forall connect_fails attempts -> (n < length attempts)%nat ->
    exists p' trace,
      connect_rti_loop id specific attempts port c p = Some (Exit p')
      /\ calls p' = calls p ++ trace
      /\ scan_of trace = scan_passes port 1 n.
Proof.
  induction n as [| m IH]; intros attempts c p Hstuck Hc Hall Hlen;
    (destruct attempts as [| a rest]; [simpl in Hlen; lia |]);
    pose proof (Forall_inv Hall) as (Hfd & Hhost & Hconn); apply Forall_inv_tail in Hall;
    cbn [connect_rti_loop]; rewrite Hhost, Hconn;
    (destruct (Z.ltb_spec (socket_fd a) 0); [lia |]);
    cbn [negb];
    assert (Hnoscan : true && negb specific && (port >=? STARTING_PORT)
                      && (port <=? STARTING_PORT + PORT_RANGE_LIMIT) = false)
      by (destruct specific; [reflexivity |];
          destruct (Z.geb_spec port STARTING_PORT);
          destruct (Z.leb_spec port (STARTING_PORT + PORT_RANGE_LIMIT)); try reflexivity;
          destruct Hstuck as [Hs | Hs]; try discriminate; lia);
    assert (Hnowrap : negb specific && (port =? STARTING_PORT + PORT_RANGE_LIMIT + 1) = false)
      by (destruct specific; [reflexivity |];
          destruct (Z.eqb_spec port (STARTING_PORT + PORT_RANGE_LIMIT + 1)); try reflexivity;
          destruct Hstuck as [Hs | Hs]; try discriminate; lia);
    rewrite Hnoscan, Hnowrap.
  - destruct (Z.gtb_spec (c + 1) CONNECT_NUM_RETRIES); [| lia].
    eexists. exists [SysConnect (socket_fd a) port].
    split; [reflexivity | split; [reflexivity |]].
    simpl. unfold ports_from. simpl. now rewrite Z.add_0_r.
  - destruct (Z.gtb_spec (c + 1) CONNECT_NUM_RETRIES); [lia |].
    destruct (IH rest (c + 1)
                (log (SysSleep CONNECT_RETRY_INTERVAL 0)
                   (log (SysConnect (socket_fd a) port) (set_rti_socket (socket_fd a) p)))
                Hstuck ltac:(lia) Hall) as (p' & trace & Hrun & Hcalls & Hscan).
    { simpl in Hlen. lia. }
    exists p', (SysConnect (socket_fd a) port :: SysSleep CONNECT_RETRY_INTERVAL 0 :: trace).
    split; [exact Hrun | split].
    + rewrite Hcalls. simpl. now rewrite <- !app_assoc.
    + cbn [scan_of scan_passes]. rewrite Hscan.
      unfold ports_from. simpl. now rewrite Z.add_0_r.
Qed.

(** With a port specified, failed attempts while retries are left: a
    connect to that port and a sleep for each, then the attempt that uses
    up the retries. *)
Lemma connect_rti_loop_specified (id port : Z) (retried : list attempt) :
  forall (last : attempt) (unused : list attempt) (c : Z) (p : process),
    c + Z.of_nat (length retried) = CONNECT_NUM_RETRIES ->
    Forall connect_fails (retried ++ [last]) ->
    exists p',
      connect_rti_loop id true (retried ++ last :: unused) port c p = Some (Exit p')
      /\ calls p'
         = calls p
             ++ concat (map (fun a => [SysConnect (socket_fd a) port;
                                       SysSleep CONNECT_RETRY_INTERVAL 0]) retried)
             ++ [SysConnect (socket_fd last) port]
      /\ _lf_rti_socket p' = socket_fd last.
Proof.
  induction retried as [| a retried IH]; intros last unused c p Hc Hall.
  - pose proof (Forall_inv Hall) as (Hfd & Hhost & Hconn).
    cbn [app connect_rti_loop]. rewrite Hhost, Hconn.
    destruct (Z.ltb_spec (socket_fd last) 0); [lia |].
    cbn [negb andb]. simpl in Hc.
    destruct (Z.gtb_spec (c + 1) CONNECT_NUM_RETRIES); [| lia].
    eexists. split; [reflexivity | split; reflexivity].
  - pose proof (Forall_inv Hall) as (Hfd & Hhost & Hconn). apply Forall_inv_tail in Hall.
    cbn [length] in Hc. rewrite Nat2Z.inj_succ in Hc.
    destruct (IH last unused (c + 1)
                (log (SysSleep CONNECT_RETRY_INTERVAL 0)
                   (log (SysConnect (socket_fd a) port) (set_rti_socket (socket_fd a) p)))
                ltac:(lia) Hall) as (p' & Hrun & Hcalls & Hsocket).
    exists p'. split; [| split; [| exact Hsocket]].
    + rewrite <- app_comm_cons. cbn [connect_rti_loop]. rewrite Hhost, Hconn.
      destruct (Z.ltb_spec (socket_fd a) 0); [lia |].
      cbn [negb andb].
      destruct (Z.gtb_spec (c + 1) CONNECT_NUM_RETRIES); [lia |].
      exact Hrun.
    + rewrite Hcalls. cbn [map concat calls log set_rti_socket].
      rewrite <- !app_assoc. reflexivity.
Qed.

(** X15: [connect_to_rti] with a port specified (a port number, from
    1 to 65535), when every [connect()] fails: it connects
    [CONNECT_NUM_RETRIES + 1] times, every time to the specified port,
    sleeps [CONNECT_RETRY_INTERVAL] seconds after each failure but the
    last, and then ends the process; these are all its calls.  It does
    not keep to the specified port in every case: when the first connect
    reaches an RTI that answers REJECT with the cause
    FEDERATION_ID_DOES_NOT_MATCH or WRONG_SERVER, all the attempts that
    follow are made on the next port. *)
Theorem connect_to_rti_specified_port
    (id port : Z) (retried : list attempt) (last : attempt) (unused : list attempt)
    (p : process) :
  0 < port < 65536 -> 0 <= CONNECT_NUM_RETRIES ->
  Forall connect_fails (retried ++ [last]) ->
  length retried = Z.to_nat CONNECT_NUM_RETRIES ->
  (exists p',
      connect_to_rti id port (retried ++ last :: unused) p = Some (Exit p')
      /\ calls p'
         = calls p
             ++ concat (map (fun a => [SysConnect (socket_fd a) port;
                                       SysSleep CONNECT_RETRY_INTERVAL 0]) retried)
             ++ [SysConnect (socket_fd last) port]
      /\ _lf_rti_socket p' = socket_fd last)
  /\ (forall (wrong : attempt) (cause : Wire.byte) (more : list Wire.byte),
        port + 1 < 65536 ->
        0 <= socket_fd wrong -> host_found wrong = true -> connected wrong = true ->
        can_write (remote wrong) = true -> incoming (remote wrong) = REJECT :: cause :: more ->
        cause = FEDERATION_ID_DOES_NOT_MATCH \/ cause = WRONG_SERVER ->
        exists p' trace,
          connect_to_rti id port (wrong :: retried ++ [last]) p = Some (Exit p')
          /\ calls p' = calls p ++ trace
          /\ split_at_sleeps (scan_of trace)
             = [port; port + 1] :: repeat [port + 1] (Z.to_nat CONNECT_NUM_RETRIES)).
Proof.
  intros Hport Hretries Hall Hlen. unfold connect_to_rti.
  destruct (Z.eqb_spec port 0); [lia |]. split.
  - apply connect_rti_loop_specified; [lia | exact Hall].
  - intros wrong cause more _ Hfd Hhost Hconn Hwrite Hbytes Hcause.
    set (p2 := log (SysConnect (socket_fd wrong) port) (set_rti_socket (socket_fd wrong) p)).
    pose proof (rti_handshake_rejected id (socket_fd wrong) (remote wrong) p2 cause more
                  Hwrite Hbytes) as Hshake.
    set (p3 := log (SysWrite (socket_fd wrong)
                      (firstn (strnlen (federation_id p2) 255) (federation_id p2)))
                 (log (SysWrite (socket_fd wrong)
                         (FED_ID :: Wire.encode_ushort id
                            ++ [Z.land (Z.of_nat (strnlen (federation_id p2) 255)) 255])) p2))
      in *.
    destruct (connect_rti_loop_same_port id true (port + 1) (Z.to_nat CONNECT_NUM_RETRIES)
                (retried ++ [last]) 0 p3)
      as (p' & trace2 & Hrun2 & Hcalls2 & Hscan2); try assumption; [now left | lia | |].
    { rewrite length_app. simpl. lia. }
    exists p'. eexists. cbn [connect_rti_loop]. rewrite Hhost, Hconn.
    destruct (Z.ltb_spec (socket_fd wrong) 0); [lia |].
    cbn [negb andb]. fold p2. rewrite Hshake, Z.eqb_refl.
    assert (Hmoves : (cause =? FEDERATION_ID_DOES_NOT_MATCH) || (cause =? WRONG_SERVER) = true).
    { destruct Hcause as [-> | ->]; rewrite Z.eqb_refl; [reflexivity | apply orb_true_r]. }
    rewrite Hmoves. fold p3. split; [exact Hrun2 | split].
    + rewrite Hcalls2. unfold p3, p2. simpl. rewrite <- !app_assoc. reflexivity.
    + cbn [scan_of app]. rewrite Hscan2.
      cbn [split_at_sleeps]. rewrite split_at_sleeps_passes.
      unfold ports_from. simpl. now rewrite Z.add_0_r.
Qed.

(** X16: the scan does not always come back to [STARTING_PORT].
    With no port specified, if the connects fail on [STARTING_PORT]
    through [STARTING_PORT + PORT_RANGE_LIMIT], succeed on the next port
    with an RTI that rejects the federate as belonging to another
    federation, and fail from then on, every later attempt is made on
    [STARTING_PORT + PORT_RANGE_LIMIT + 2] until the retries are used up
    and the process ends. *)
Theorem connect_to_rti_leaves_range
    (id : Z) (fails : list attempt) (wrong : attempt) (later : list attempt) (p : process)
    (cause : Wire.byte) (more : list Wire.byte) :
  0 <= PORT_RANGE_LIMIT -> 0 <= CONNECT_NUM_RETRIES ->
  Forall connect_fails fails -> Z.of_nat (length fails) = PORT_RANGE_LIMIT + 1 ->
  0 <= socket_fd wrong -> host_found wrong = true -> connected wrong = true ->
  can_write (remote wrong) = true -> incoming (remote wrong) = REJECT :: cause :: more ->
  cause = FEDERATION_ID_DOES_NOT_MATCH \/ cause = WRONG_SERVER ->
  Forall connect_fails later -> (Z.to_nat CONNECT_NUM_RETRIES < length later)%nat ->
  exists p' trace,
    connect_to_rti id 0 (fails ++ wrong :: later) p = Some (Exit p')
    /\ calls p' = calls p ++ trace
    /\ split_at_sleeps (scan_of trace)
       = (ports_from STARTING_PORT (Z.to_nat (PORT_RANGE_LIMIT + 2))
            ++ [STARTING_PORT + PORT_RANGE_LIMIT + 2])
         :: repeat [STARTING_PORT + PORT_RANGE_LIMIT + 2] (Z.to_nat CONNECT_NUM_RETRIES).
Proof.
  intros Hrange Hretries Hfails Hk Hfd Hhost Hconn Hwrite Hbytes Hcause Hlater Hlen.
  destruct (connect_rti_loop_scan_keeps id fails (wrong :: later) STARTING_PORT 0 p Hfails)
    as (p1 & trace1 & Hrun1 & Hcalls1 & Hscan1 & _); [lia | lia |].
  rewrite Hk in Hrun1.
  set (p2 := log (SysConnect (socket_fd wrong) (STARTING_PORT + (PORT_RANGE_LIMIT + 1)))
               (set_rti_socket (socket_fd wrong) p1)) in *.
  pose proof (rti_handshake_rejected id (socket_fd wrong) (remote wrong) p2 cause more
                Hwrite Hbytes) as Hshake.
  set (p3 := log (SysWrite (socket_fd wrong)
                    (firstn (strnlen (federation_id p2) 255) (federation_id p2)))
               (log (SysWrite (socket_fd wrong)
                       (FED_ID :: Wire.encode_ushort id
                          ++ [Z.land (Z.of_nat (strnlen (federation_id p2) 255)) 255])) p2))
    in *.
  destruct (connect_rti_loop_same_port id false (STARTING_PORT + (PORT_RANGE_LIMIT + 1) + 1)
              (Z.to_nat CONNECT_NUM_RETRIES) later 0 p3)
    as (p' & trace2 & Hrun2 & Hcalls2 & Hscan2); try assumption; [right; lia | lia |].
  exists p'. eexists. unfold connect_to_rti. simpl (0 =? 0). cbv iota.
  rewrite Hrun1. cbn [connect_rti_loop]. rewrite Hhost, Hconn.
  destruct (Z.ltb_spec (socket_fd wrong) 0); [lia |].
  cbn [negb andb]. fold p2. rewrite Hshake, Z.eqb_refl.
  assert (Hmoves : (cause =? FEDERATION_ID_DOES_NOT_MATCH) || (cause =? WRONG_SERVER) = true).
  { destruct Hcause as [-> | ->]; rewrite Z.eqb_refl; [reflexivity | apply orb_true_r]. }
  rewrite Hmoves. fold p3. split; [exact Hrun2 | split].
  - rewrite Hcalls2. unfold p3, p2. simpl. rewrite Hcalls1.
    rewrite <- !app_assoc. reflexivity.
  - rewrite !scan_of_app, Hscan1, Hscan2. cbn [scan_of app].
    replace (Z.to_nat (PORT_RANGE_LIMIT + 2)) with (S (length fails)) by lia.
    rewrite ports_from_snoc, Hk.
    replace (STARTING_PORT + PORT_RANGE_LIMIT + 2)
      with (STARTING_PORT + (PORT_RANGE_LIMIT + 1) + 1) by lia.
    set (last := STARTING_PORT + (PORT_RANGE_LIMIT + 1) + 1).
    assert (Hstuck : forall n, split_at_sleeps (scan_passes last 1 n)
                               = [last] :: repeat [last] n).
    { intros n. rewrite split_at_sleeps_passes. unfold ports_from. simpl.
      now rewrite Z.add_0_r. }
    change (Some (STARTING_PORT + (PORT_RANGE_LIMIT + 1)) :: scan_passes last 1
              (Z.to_nat CONNECT_NUM_RETRIES))
      with (map Some [STARTING_PORT + (PORT_RANGE_LIMIT + 1)]
              ++ scan_passes last 1 (Z.to_nat CONNECT_NUM_RETRIES)).
    rewrite app_assoc, <- map_app.
    generalize (ports_from STARTING_PORT (length fails)
                  ++ [STARTING_PORT + (PORT_RANGE_LIMIT + 1)]).
    intros ports. specialize (Hstuck (Z.to_nat CONNECT_NUM_RETRIES)).
    revert Hstuck. generalize (scan_passes last 1 (Z.to_nat CONNECT_NUM_RETRIES)).
    intros scan Hscan. induction ports as [| x ports IH]; simpl.
    + exact Hscan.
    + now rewrite IH.
Qed.

End ConnectRtiMoreFacts.

(** ** More on connecting to a peer *)
Section ConnectFederateMoreFacts.
Import Sys Connect Trace.
Context `{rti_h}.

(** Replies of -1 while tries are left: a query and a sleep for each. *)
Lemma query_address_unknown (id : Z) (rest : list Z) (k : nat) :
  forall (c : Z) (p : process),
    c + Z.of_nat k <= CONNECT_NUM_RETRIES ->
    exists p',
      query_address id (repeat (-1) k ++ rest) c p
      = query_address id rest (c + Z.of_nat k) p'
      /\ _lf_rti_socket p' = _lf_rti_socket p
      /\ calls p' = calls p ++
           concat (repeat [SysWrite (_lf_rti_socket p)
                             (ADDRESS_QUERY :: Wire.encode_ushort id);
                           SysSleep 0 ADDRESS_QUERY_RETRY_INTERVAL] k).
Proof.
  induction k as [| k IH]; intros c p Hc.
  - exists p. simpl. rewrite Z.add_0_r, app_nil_r. auto.
  - rewrite Nat2Z.inj_succ in Hc |- *. cbn [repeat app query_address].
    change (-1 =? -1) with true. cbv iota.
    destruct (Z.geb_spec c CONNECT_NUM_RETRIES); [lia |].
    destruct (IH (c + 1)
                (log (SysSleep 0 ADDRESS_QUERY_RETRY_INTERVAL)
                   (log (SysWrite (_lf_rti_socket p) (ADDRESS_QUERY :: Wire.encode_ushort id)) p))
                ltac:(lia)) as (p' & Hrun & Hsock & Hcalls).
    exists p'. split; [| split].
    + rewrite Hrun. f_equal. lia.
    + exact Hsock.
    + rewrite Hcalls. simpl. now rewrite <- !app_assoc.
Qed.

(** X17: the address query of [connect_to_federate].  While the RTI
    answers -1 the query is sent again after a sleep of
    [ADDRESS_QUERY_RETRY_INTERVAL]; a port that arrives after at most
    [CONNECT_NUM_RETRIES] such answers is taken; the answer -1 number
    [CONNECT_NUM_RETRIES + 1] ends the process, without a further sleep. *)
Theorem query_address_retries (id : Z) (p : process) :
  0 <= CONNECT_NUM_RETRIES ->
  let query := SysWrite (_lf_rti_socket p) (ADDRESS_QUERY :: Wire.encode_ushort id) in
  let pause := SysSleep 0 ADDRESS_QUERY_RETRY_INTERVAL in
  (forall (k : nat) (port : Z) (rest : list Z),
      Z.of_nat k <= CONNECT_NUM_RETRIES -> port <> -1 -> port < 65536 ->
      exists p',
        query_address id (repeat (-1) k ++ port :: rest) 0 p = Some (Done (port, p'))
        /\ calls p' = calls p ++ concat (repeat [query; pause] k) ++ [query])
  /\ (forall rest : list Z,
        exists p',
          query_address id (repeat (-1) (S (Z.to_nat CONNECT_NUM_RETRIES)) ++ rest) 0 p
          = Some (Exit p')
          /\ calls p' = calls p
               ++ concat (repeat [query; pause] (Z.to_nat CONNECT_NUM_RETRIES)) ++ [query]).
Proof.
  intros Hretries query pause. split.
  - intros k port rest Hk Hport Hsmall.
    destruct (query_address_unknown id (port :: rest) k 0 p ltac:(lia))
      as (p1 & Hrun & Hsock & Hcalls).
    eexists. rewrite Hrun. cbn [query_address].
    destruct (Z.eqb_spec port (-1)); [contradiction |].
    destruct (Z.ltb_spec port 65536); [| lia].
    split; [reflexivity |]. simpl. rewrite Hsock, Hcalls. now rewrite <- app_assoc.
  - intros rest.
    replace (repeat (-1) (S (Z.to_nat CONNECT_NUM_RETRIES)))
      with (repeat (-1) (Z.to_nat CONNECT_NUM_RETRIES) ++ [-1])
      by (rewrite <- repeat_cons; reflexivity).
    rewrite <- app_assoc.
    destruct (query_address_unknown id ([-1] ++ rest) (Z.to_nat CONNECT_NUM_RETRIES) 0 p
                ltac:(lia)) as (p1 & Hrun & Hsock & Hcalls).
    eexists. rewrite Hrun. cbn [app query_address].
    change (-1 =? -1) with true. cbv iota.
    destruct (Z.geb_spec (0 + Z.of_nat (Z.to_nat CONNECT_NUM_RETRIES)) CONNECT_NUM_RETRIES);
      [| lia].
    split; [reflexivity |]. simpl. rewrite Hsock, Hcalls. now rewrite <- app_assoc.
Qed.

Lemma read_from_socket2_exact (n : nat) (s : socket) (pre rest : list Wire.byte) :
  closed s = false -> incoming s = pre ++ rest -> length pre = n ->
  read_from_socket2 n s = (Z.of_nat n, pre, with_incoming rest s).
Proof.
  intros Hopen Hbytes Hlen. unfold read_from_socket2. rewrite Hopen, Hbytes.
  destruct (Nat.leb_spec n (length (pre ++ rest))) as [_ | Hshort].
  - now rewrite firstn_exact, skipn_exact.
  - rewrite length_app in Hshort. lia.
Qed.

Lemma strncmp_same_prefix (pre a b : list Wire.byte) (n : nat) :
  (n <= length pre)%nat -> strncmp (pre ++ a) (pre ++ b) n = 0.
Proof.
  revert n. induction pre as [| c pre IH]; intros n Hn.
  - simpl in Hn. now replace n with O by lia.
  - destruct n as [| k]; [reflexivity |].
    simpl in Hn |- *. rewrite Z.eqb_refl.
    destruct (c =? 0); [reflexivity |]. apply IH. lia.
Qed.

(** The federation identifier as the connecting side writes it, compared
    the way the accepting side compares it. *)
Lemma strncmp_written_id (fid after : list Wire.byte) :
  length (firstn (strnlen fid 255) fid) = strnlen fid 255
  /\ strncmp fid (firstn (strnlen fid 255) fid ++ after) (strnlen fid 255) = 0.
Proof.
  assert (Hn : (strnlen fid 255 <= length fid)%nat).
  { unfold strnlen. pose proof (c_strlen_le_length fid). lia. }
  assert (Hlen : length (firstn (strnlen fid 255) fid) = strnlen fid 255).
  { rewrite length_firstn. lia. }
  split; [exact Hlen |].
  rewrite <- (firstn_skipn (strnlen fid 255) fid) at 1.
  apply strncmp_same_prefix. lia.
Qed.

(** The peer answers the handshake with ACK. *)
Lemma p2p_handshake_acked (fd : Z) (s : socket) (p : process) (later : list Wire.byte) :
  can_write s = true -> incoming s = ACK :: later ->
  p2p_handshake fd s p
  = Some (ACK,
          log (SysWrite fd (firstn (strnlen (federation_id p) 255) (federation_id p)))
            (log (SysWrite fd (P2P_SENDING_FED_ID :: Wire.encode_ushort (_lf_my_fed_id p)
                                 ++ [Z.of_nat (strnlen (federation_id p) 255)])) p)).
Proof.
  intros Hwrite Hbytes. unfold p2p_handshake. rewrite Hwrite.
  rewrite (read_from_socket_exact 1 s [ACK] later) by (try apply can_write_open; auto).
  cbn [negb hd]. rewrite Z.eqb_refl. cbn [negb]. now rewrite Nat2Z.id.
Qed.

(** X18: two federates of one federation connect.  The connecting
    side, told the port by the RTI and getting through at its first
    attempt, writes a P2P_SENDING_FED_ID header and the federation
    identifier, and on ACK returns with the socket in its outbound table.
    The accepting side, reading exactly these bytes on a connection it has
    accepted, stores that connection for the id of the connecting
    federate, answers ACK, starts a reader thread for it and counts the
    peer. *)
Theorem peers_of_one_federation_connect
    (id port : Z) (replies : list Z) (a : attempt) (attempts : list attempt) (p : process)
    (later : list Wire.byte) :
  (Z.to_nat id < length (_lf_federate_sockets_for_outbound_physical_connections p))%nat ->
  port <> -1 -> port < 65536 ->
  0 <= socket_fd a -> connected a = true ->
  can_write (remote a) = true -> incoming (remote a) = ACK :: later ->
  0 <= _lf_my_fed_id p < 65536 ->
  exists header name,
    (exists p',
        connect_to_federate id (port :: replies) (a :: attempts) p = Some (Done p')
        /\ outbound_socket id p' = Some (socket_fd a)
        /\ calls p' = calls p ++
             [SysWrite (_lf_rti_socket p) (ADDRESS_QUERY :: Wire.encode_ushort id);
              SysConnect (socket_fd a) port;
              SysWrite (socket_fd a) header;
              SysWrite (socket_fd a) name])
    /\ forall (c : Accept.connection) (conns : list Accept.connection)
              (received : Z) (q : process),
         federation_id q = federation_id p ->
         received < _lf_number_of_inbound_physical_connections q ->
         0 <= Accept.socket_id c -> can_write (Accept.peer c) = true ->
         incoming (Accept.peer c) = header ++ name ->
         Accept.thread_created c = true ->
         Accept.accept_loop (c :: conns) received q
         = Accept.accept_loop conns (received + 1)
             (log (SysSpawn listen_to_federates_fn (_lf_my_fed_id p))
                (log (SysWrite (Accept.socket_id c) [ACK])
                   (set_inbound (_lf_my_fed_id p) (Accept.socket_id c) q))).
Proof.
  intros Hid Hport Hsmall Hfd Hconn Hwrite Hbytes Hmine.
  set (n := strnlen (federation_id p) 255).
  exists (P2P_SENDING_FED_ID :: Wire.encode_ushort (_lf_my_fed_id p) ++ [Z.of_nat n]),
    (firstn n (federation_id p)).
  split.
  - eexists. unfold connect_to_federate. cbn [query_address].
    destruct (Z.eqb_spec port (-1)); [contradiction |].
    destruct (Z.ltb_spec port 65536); [| lia].
    cbn [connect_loop]. rewrite Hconn.
    destruct (Z.ltb_spec (socket_fd a) 0); [lia |].
    cbn [negb]. rewrite (p2p_handshake_acked _ _ _ later Hwrite Hbytes).
    rewrite Z.eqb_refl. cbn [negb].
    split; [reflexivity | split].
    + unfold outbound_socket. simpl. now apply list_lookup_insert_eq.
    + simpl. rewrite <- !app_assoc. reflexivity.
  - intros c conns received q Hfid Hmore Hsock Hcwrite Hcbytes Hthread.
    pose proof (can_write_open _ Hcwrite) as Hopen.
    destruct (strncmp_written_id (federation_id p) (Accept.stack_after c)) as [Hlen Hcmp].
    fold n in Hlen, Hcmp.
    cbn [Accept.accept_loop].
    destruct (Z.ltb_spec received (_lf_number_of_inbound_physical_connections q)); [| lia].
    destruct (Z.ltb_spec (Accept.socket_id c) 0); [lia |].
    rewrite (read_from_socket2_exact 4 (Accept.peer c)
               (P2P_SENDING_FED_ID :: Wire.encode_ushort (_lf_my_fed_id p) ++ [Z.of_nat n])
               (firstn n (federation_id p)) Hopen Hcbytes)
      by (cbn [length]; rewrite length_app; unfold Wire.encode_ushort;
          rewrite length_encode_le; reflexivity).
    cbn [hd]. rewrite !Z.eqb_refl. cbn [negb orb].
    change (nth 3 (P2P_SENDING_FED_ID
                     :: Wire.encode_ushort (_lf_my_fed_id p) ++ [Z.of_nat n]) 0)
      with (Z.of_nat n).
    rewrite Nat2Z.id.
    rewrite (read_from_socket2_exact n _ (firstn n (federation_id p)) [])
      by (auto; cbn [incoming with_incoming]; now rewrite app_nil_r).
    rewrite Z.eqb_refl, Hfid. fold n. rewrite Hcmp. cbn [negb orb Z.eqb].
    change (skipn 1 (P2P_SENDING_FED_ID
                       :: Wire.encode_ushort (_lf_my_fed_id p) ++ [Z.of_nat n]))
      with (Wire.encode_ushort (_lf_my_fed_id p) ++ [Z.of_nat n]).
    rewrite extract_ushort_encode by assumption.
    assert (Hstill : can_write (with_incoming [] (with_incoming (firstn n (federation_id p))
                                                     (Accept.peer c))) = true) by exact Hcwrite.
    rewrite Hstill, Hthread. reflexivity.
Qed.

Lemma closes_of_app (l1 l2 : list sys_call) :
  closes_of (l1 ++ l2) = closes_of l1 ++ closes_of l2.
Proof.
  induction l1 as [| c rest IH]; [reflexivity |].
  destruct c; simpl; now rewrite ?IH.
Qed.

Lemma p2p_handshake_closes_nothing (fd : Z) (s : socket) (p p' : process) (r : Wire.byte) :
  p2p_handshake fd s p = Some (r, p') -> closes_of (calls p') = closes_of (calls p).
Proof.
  unfold p2p_handshake. destruct (negb (can_write s)); [discriminate |].
  destruct (read_from_socket 1 s) as [[buffer s1] |]; [| discriminate].
  destruct (negb (hd 0 buffer =? ACK)).
  - destruct (read_from_socket 1 s1); [| discriminate].
    intros [= _ <-]. simpl. rewrite !closes_of_app. simpl. now rewrite !app_nil_r.
  - intros [= _ <-]. simpl. rewrite !closes_of_app. simpl. now rewrite !app_nil_r.
Qed.

Lemma rti_handshake_closes_nothing (id fd : Z) (s : socket) (p p' : process) (r c : Wire.byte) :
  rti_handshake id fd s p = Some (r, c, p') -> closes_of (calls p') = closes_of (calls p).
Proof.
  unfold rti_handshake. destruct (negb (can_write s)); [discriminate |].
  destruct (read_from_socket 1 s) as [[buffer s1] |]; [| discriminate].
  destruct (hd 0 buffer =? REJECT).
  - destruct (read_from_socket 1 s1) as [[cause s2] |]; [| discriminate].
    intros [= _ _ <-]. simpl. rewrite !closes_of_app. simpl. now rewrite !app_nil_r.
  - intros [= _ _ <-]. simpl. rewrite !closes_of_app. simpl. now rewrite !app_nil_r.
Qed.

Lemma query_address_closes_nothing (id : Z) (replies : list Z) :
  forall (c : Z) (p : process) (r : run (Z * process)),
    query_address id replies c p = Some r ->
    closes_of (calls (end_state_with snd r)) = closes_of (calls p).
Proof.
  induction replies as [| reply rest IH]; intros c p r Hrun; [discriminate |].
  cbn [query_address] in Hrun.
  assert (Hlog : forall x q, closes_of (calls (log (SysWrite (_lf_rti_socket p) x) q))
                             = closes_of (calls q)).
  { intros x q. simpl. rewrite closes_of_app. simpl. now rewrite app_nil_r. }
  destruct (reply =? -1).
  - destruct (c >=? CONNECT_NUM_RETRIES).
    + injection Hrun as <-. simpl. rewrite closes_of_app. simpl. now rewrite app_nil_r.
    + apply IH in Hrun. rewrite Hrun. simpl. rewrite !closes_of_app. simpl.
      now rewrite !app_nil_r.
  - destruct (reply <? 65536); injection Hrun as <-; simpl;
      rewrite closes_of_app; simpl; now rewrite app_nil_r.
Qed.

Lemma connect_loop_closes_nothing (id port : Z) (attempts : list attempt) :
  forall (c : Z) (p : process) (r : run process),
    connect_loop id port attempts c p = Some r ->
    closes_of (calls (end_state r)) = closes_of (calls p).
Proof.
  induction attempts as [| a rest IH]; intros c p r Hrun; [discriminate |].
  cbn [connect_loop] in Hrun.
  destruct (socket_fd a <? 0); [injection Hrun as <-; reflexivity |].
  destruct (negb (connected a)).
  - destruct (c + 1 >? CONNECT_NUM_RETRIES).
    + injection Hrun as <-. simpl. rewrite closes_of_app. simpl. now rewrite app_nil_r.
    + apply IH in Hrun. rewrite Hrun. simpl. rewrite !closes_of_app. simpl.
      now rewrite !app_nil_r.
  - destruct (p2p_handshake (socket_fd a) (remote a)
                (log (SysConnect (socket_fd a) port) (set_outbound id (socket_fd a) p)))
      as [[response p3] |] eqn:Hshake.
    + apply p2p_handshake_closes_nothing in Hshake.
      assert (Hp3 : closes_of (calls p3) = closes_of (calls p)).
      { rewrite Hshake. simpl. rewrite closes_of_app. simpl. now rewrite app_nil_r. }
      destruct (negb (response =? ACK)).
      * apply IH in Hrun. now rewrite Hrun.
      * injection Hrun as <-. exact Hp3.
    + injection Hrun as <-. simpl. rewrite closes_of_app. simpl. now rewrite app_nil_r.
Qed.

Lemma connect_rti_loop_closes_nothing (id : Z) (specific : bool) (attempts : list attempt) :
  forall (port c : Z) (p : process) (r : run (Z * process)),
    connect_rti_loop id specific attempts port c p = Some r ->
    closes_of (calls (end_state_with snd r)) = closes_of (calls p).
Proof.
  induction attempts as [| a rest IH]; intros port c p r Hrun; [discriminate |].
  cbn [connect_rti_loop] in Hrun.
  destruct (socket_fd a <? 0); [injection Hrun as <-; reflexivity |].
  destruct (negb (host_found a)); [injection Hrun as <-; reflexivity |].
  assert (Hp2 : closes_of (calls (log (SysConnect (socket_fd a) port)
                                    (set_rti_socket (socket_fd a) p)))
                = closes_of (calls p)).
  { simpl. rewrite closes_of_app. simpl. now rewrite app_nil_r. }
  destruct (negb (connected a) && negb specific && (port >=? STARTING_PORT)
            && (port <=? STARTING_PORT + PORT_RANGE_LIMIT)).
  { apply IH in Hrun. now rewrite Hrun. }
  destruct (negb (connected a)).
  - destruct (c + 1 >? CONNECT_NUM_RETRIES).
    + injection Hrun as <-. exact Hp2.
    + apply IH in Hrun. rewrite Hrun. rewrite <- Hp2. simpl. rewrite !closes_of_app. simpl.
      now rewrite !app_nil_r.
  - destruct (rti_handshake id (socket_fd a) (remote a)
                (log (SysConnect (socket_fd a) port) (set_rti_socket (socket_fd a) p)))
      as [[[response cause] p3] |] eqn:Hshake.
    + apply rti_handshake_closes_nothing in Hshake. rewrite Hp2 in Hshake.
      destruct (response =? REJECT).
      * destruct ((cause =? FEDERATION_ID_DOES_NOT_MATCH) || (cause =? WRONG_SERVER)).
        -- apply IH in Hrun. now rewrite Hrun.
        -- injection Hrun as <-. exact Hshake.
      * injection Hrun as <-. exact Hshake.
    + injection Hrun as <-. exact Hp2.
Qed.

(** X19: neither [connect_to_federate] nor [connect_to_rti] ever
    closes a descriptor.  However they end, the sockets of the attempts
    that failed, or that the other side refused, are still open: every
    attempt takes a new socket and none is given back. *)
Theorem connecting_closes_nothing
    (id port : Z) (replies : list Z) (attempts : list attempt) (p : process) :
  (forall r, connect_to_federate id replies attempts p = Some r ->
             closes_of (calls (end_state r)) = closes_of (calls p))
  /\ (forall r, connect_to_rti id port attempts p = Some r ->
                closes_of (calls (end_state_with snd r)) = closes_of (calls p)).
Proof.
  split.
  - intros r. unfold connect_to_federate.
    destruct (query_address id replies 0 p) as [[[port0 p1] | p1 | p1 | p1] |] eqn:Hquery;
      try discriminate.
    + intros Hrun. apply connect_loop_closes_nothing in Hrun. rewrite Hrun.
      now apply (query_address_closes_nothing _ _ _ _ _ Hquery).
    + intros [= <-]. now apply (query_address_closes_nothing _ _ _ _ _ Hquery).
    + intros [= <-]. now apply (query_address_closes_nothing _ _ _ _ _ Hquery).
    + intros [= <-]. now apply (query_address_closes_nothing _ _ _ _ _ Hquery).
  - intros r. unfold connect_to_rti.
    destruct (port =? 0); apply connect_rti_loop_closes_nothing.
Qed.

End ConnectFederateMoreFacts.

(** ** More on accepting peer connections *)
Section AcceptMoreFacts.
Import Sys Accept Trace.
Context `{rti_h}.

Lemma c_strlen_nul_free (s : list Wire.byte) : nul_free s -> c_strlen s = length s.
Proof.
  induction s as [| c rest IH]; intros Hfree; [reflexivity |].
  pose proof (Forall_inv Hfree) as Hc. apply Forall_inv_tail in Hfree. simpl.
  destruct (Z.eqb_spec c 0); [contradiction |]. now rewrite IH.
Qed.

(** Over identifiers of the same length, [strncmp] tells equality. *)
Lemma strncmp_zero_same (l : list Wire.byte) :
  forall (r after : list Wire.byte),
    length r = length l -> nul_free l ->
    strncmp l (r ++ after) (length l) = 0 -> r = l.
Proof.
  induction l as [| c l IH]; intros r after Hlen Hfree Hcmp.
  - now destruct r.
  - destruct r as [| d r]; [discriminate |].
    pose proof (Forall_inv Hfree) as Hc. apply Forall_inv_tail in Hfree.
    simpl in Hcmp, Hlen.
    destruct (Z.eqb_spec c d) as [-> | Hne].
    + destruct (Z.eqb_spec d 0); [contradiction |].
      f_equal. apply (IH r after); [lia | assumption | assumption].
    + lia.
Qed.

(** X20: a peer that announces a federation identifier of the same
    length as the local one but with other bytes is turned away: the
    accepting side answers REJECT with FEDERATION_ID_DOES_NOT_MATCH,
    closes the socket, stores nothing, starts no thread, and goes on
    waiting for the same number of peers. *)
Theorem accept_rejects_other_federation
    (c : connection) (conns : list connection) (received : Z) (q : process)
    (remote_id : list Wire.byte) (low high : Wire.byte) :
  received < _lf_number_of_inbound_physical_connections q ->
  0 <= socket_id c -> closed (peer c) = false ->
  nul_free (federation_id q) -> (length (federation_id q) <= 255)%nat ->
  length remote_id = length (federation_id q) -> remote_id <> federation_id q ->
  incoming (peer c)
  = [P2P_SENDING_FED_ID; low; high; Z.of_nat (length remote_id)] ++ remote_id ->
  accept_loop (c :: conns) received q
  = accept_loop conns received
      (log (SysClose (socket_id c))
         (log (SysWrite (socket_id c) [REJECT; FEDERATION_ID_DOES_NOT_MATCH]) q)).
Proof.
  intros Hmore Hsock Hopen Hfree Hshort Hlen Hother Hbytes.
  cbn [accept_loop].
  destruct (Z.ltb_spec received (_lf_number_of_inbound_physical_connections q)); [| lia].
  destruct (Z.ltb_spec (socket_id c) 0); [lia |].
  rewrite (read_from_socket2_exact 4 (peer c) _ remote_id Hopen Hbytes) by reflexivity.
  cbn [hd]. rewrite !Z.eqb_refl. cbn [negb orb].
  change (nth 3 [P2P_SENDING_FED_ID; low; high; Z.of_nat (length remote_id)] 0)
    with (Z.of_nat (length remote_id)).
  rewrite Nat2Z.id.
  rewrite (read_from_socket2_exact (length remote_id) _ remote_id [])
    by (auto; cbn [incoming with_incoming]; now rewrite app_nil_r).
  rewrite Z.eqb_refl. cbn [negb orb].
  assert (Hn : strnlen (federation_id q) 255 = length (federation_id q)).
  { unfold strnlen. rewrite c_strlen_nul_free by assumption. lia. }
  rewrite Hn.
  destruct (Z.eqb_spec (strncmp (federation_id q) (remote_id ++ stack_after c)
                          (length (federation_id q))) 0) as [Hsame | Hdiffer].
  - apply strncmp_zero_same in Hsame; [contradiction | assumption | assumption].
  - cbn [negb]. unfold reject.
    destruct (Z.geb_spec (Z.of_nat (length remote_id)) 0); [reflexivity | lia].
Qed.

Lemma spawns_of_app (l1 l2 : list sys_call) :
  spawns_of (l1 ++ l2) = spawns_of l1 + spawns_of l2.
Proof.
  induction l1 as [| c rest IH]; [reflexivity |].
  destruct c; simpl; rewrite ?IH; lia.
Qed.

Lemma reject_keeps (fd bytes_read : Z) (cause : Wire.byte) (p : process) :
  _lf_number_of_inbound_physical_connections (reject fd bytes_read cause p)
  = _lf_number_of_inbound_physical_connections p
  /\ spawns_of (calls (reject fd bytes_read cause p)) = spawns_of (calls p).
Proof.
  unfold reject. destruct (bytes_read >=? 0); [| auto].
  simpl. rewrite !spawns_of_app. simpl. split; [reflexivity | lia].
Qed.

Lemma accept_loop_spawns (conns : list connection) :
  forall (received : Z) (p : process) (r : run process),
    accept_loop conns received p = Some r ->
    spawns_of (calls (end_state r))
    <= spawns_of (calls p)
       + Z.max 0 (_lf_number_of_inbound_physical_connections p - received).
Proof.
  induction conns as [| c rest IH]; intros received p r Hrun.
  - simpl in Hrun.
    destruct (received <? _lf_number_of_inbound_physical_connections p); [discriminate |].
    injection Hrun as <-. simpl. lia.
  - cbn [accept_loop] in Hrun.
    destruct (Z.ltb_spec received (_lf_number_of_inbound_physical_connections p));
      [| injection Hrun as <-; simpl; lia].
    destruct (socket_id c <? 0); [injection Hrun as <-; simpl; lia |].
    destruct (read_from_socket2 4 (peer c)) as [[bytes_read buffer] s1].
    destruct (negb (bytes_read =? Z.of_nat 4) || negb (hd 0 buffer =? P2P_SENDING_FED_ID)).
    { apply IH in Hrun.
      destruct (reject_keeps (socket_id c) bytes_read WRONG_SERVER p) as [Hn Hs].
      rewrite Hn, Hs in Hrun. lia. }
    destruct (read_from_socket2 (Z.to_nat (nth 3 buffer 0)) s1)
      as [[bytes_read2 remote_federation_id] s2].
    destruct (negb (bytes_read2 =? nth 3 buffer 0)
              || negb (strncmp (federation_id p) (remote_federation_id ++ stack_after c)
                         (strnlen (federation_id p) 255) =? 0)).
    { apply IH in Hrun.
      destruct (reject_keeps (socket_id c) bytes_read2 FEDERATION_ID_DOES_NOT_MATCH p)
        as [Hn Hs].
      rewrite Hn, Hs in Hrun. lia. }
    destruct (negb (can_write s2)); [injection Hrun as <-; simpl; lia |].
    destruct (negb (thread_created c)).
    { injection Hrun as <-. simpl. rewrite !spawns_of_app. simpl. lia. }
    apply IH in Hrun. simpl in Hrun. rewrite !spawns_of_app in Hrun. simpl in Hrun. lia.
Qed.

(** X21: [handle_p2p_connections_from_federates] never starts more
    reader threads than [_lf_number_of_inbound_physical_connections],
    whatever connects to it and however it ends; connections that it
    rejects do not count. *)
Theorem accept_starts_at_most_expected_readers (conns : list connection) (p : process)
    (r : run process) :
  handle_p2p_connections_from_federates conns p = Some r ->
  spawns_of (calls (end_state r)) - spawns_of (calls p)
  <= Z.max 0 (_lf_number_of_inbound_physical_connections p).
Proof.
  intros Hrun. apply accept_loop_spawns in Hrun. lia.
Qed.

End AcceptMoreFacts.

(** ** More on the time-advance coordinator *)
Section CoordinatorMoreFacts.
Import Coordinator.
Context `{rti_h}.

(** X22: what a call of [__next_event_time(t)] that returns has
    done to the shared state, whatever happened while it waited: the two
    topology flags are as before, a stop request is still recorded if it
    was, and the RTI has been sent exactly one frame, NEXT_EVENT_TIME
    with [t], unless the federate is isolated or [__tag >= t], in which
    case nothing was sent. *)
Theorem next_event_time_footprint
    (t : instant_t) (wakes : list wake) (st st' : fed_state) (r : instant_t) :
  __next_event_time t wakes st = Some (r, st') ->
  __fed_has_upstream st' = __fed_has_upstream st
  /\ __fed_has_downstream st' = __fed_has_downstream st
  /\ (stop_requested st = true -> stop_requested st' = true)
  /\ rti_socket_out st'
     = if (negb (__fed_has_downstream st) && negb (__fed_has_upstream st)) || (__tag st >=? t)
       then rti_socket_out st
       else rti_socket_out st ++ [NEXT_EVENT_TIME :: Wire.encode_ll t].
Proof.
  unfold __next_event_time.
  destruct (negb (__fed_has_downstream st) && negb (__fed_has_upstream st)).
  { intros [= _ <-]. auto. }
  destruct (__tag st >=? t).
  { intros [= _ <-]. auto. }
  cbn [orb].
  destruct (negb (__fed_has_upstream (send_time NEXT_EVENT_TIME t st))).
  { intros [= _ <-]. auto. }
  intros Hrun. apply wait_for_tag_keeps in Hrun.
  destruct Hrun as (Hup & Hdown & Hout & Hstop). auto.
Qed.

(** X23: a STOP message does not end the wait for a grant.  A
    federate with upstream federates that has asked for [t] and whose
    event queue holds nothing earlier than [t] stays blocked in
    [__next_event_time] through any number of wake-ups caused by
    [handle_incoming_stop_message] alone. *)
Theorem stop_does_not_end_the_wait (t : instant_t) (wakes : list wake) (st : fed_state) :
  __fed_has_upstream st = true -> __tag st < t ->
  (forall h, pqueue_peek (event_q st) = Some h -> t <= time h) ->
  Forall (Forall (fun a => exists stop_time, a = StopArrives stop_time)) wakes ->
  __next_event_time t wakes st = None.
Proof.
  intros Hup Hlt Hqueue Hstops. rewrite next_event_time_waits by assumption.
  set (st0 := set_tag (__tag st) true (send_time NEXT_EVENT_TIME t st)).
  assert (Hp : __tag_pending st0 = true) by reflexivity.
  assert (Hq : event_q st0 = event_q st) by reflexivity.
  clearbody st0. revert st0 Hp Hq.
  induction wakes as [| w rest IH]; intros st0 Hp Hq.
  - now apply wait_for_tag_blocked.
  - pose proof (Forall_inv Hstops) as Hw. apply Forall_inv_tail in Hstops.
    assert (Hsame : __tag_pending (run_wake w st0) = true
                    /\ event_q (run_wake w st0) = event_q st).
    { clear - Hw Hp Hq. revert st0 Hp Hq.
      induction w as [| a w IHw]; intros st0 Hp Hq; [auto |].
      pose proof (Forall_inv Hw) as [s ->]. apply Forall_inv_tail in Hw.
      unfold run_wake in *. cbn [fold_left]. apply IHw; assumption. }
    destruct Hsame as [Hp' Hq'].
    rewrite wait_for_tag_wake by assumption. cbv zeta. rewrite Hp', Hq'.
    destruct (pqueue_peek (event_q st)) as [h |] eqn:Hpeek.
    + specialize (Hqueue h eq_refl).
      destruct (Z.ltb_spec (time h) t); [lia |]. now apply IH.
    + now apply IH.
Qed.

(** X24: a grant ends the wait, and the grant decides the result.
    A federate with upstream federates that has asked for [t] returns at
    the first wake-up during which grants have arrived, with the last of
    them as result and as value of [__tag], and with no grant pending; an
    earlier event put on the queue during the same wake-up does not
    change that. *)
Theorem grant_ends_the_wait
    (t : instant_t) (w : wake) (rest : list wake) (st : fed_state)
    (earlier : list instant_t) (g : instant_t) :
  __fed_has_upstream st = true -> __tag st < t ->
  grants w = earlier ++ [g] ->
  exists st',
    __next_event_time t (w :: rest) st = Some (g, st')
    /\ __tag st' = g /\ __tag_pending st' = false.
Proof.
  intros Hup Hlt Hg. rewrite next_event_time_waits by assumption.
  set (st0 := set_tag (__tag st) true (send_time NEXT_EVENT_TIME t st)).
  destruct (run_wake_last_grant w st0 earlier g Hg) as [Htag Hpending].
  exists (run_wake w st0).
  rewrite wait_for_tag_wake by reflexivity. cbv zeta. rewrite Hpending.
  rewrite wait_for_tag_not_pending by assumption. rewrite Htag. auto.
Qed.

End CoordinatorMoreFacts.

(* ===================================================================== *)
(** * Part IV: the further properties on concrete runs                    *)
(* ===================================================================== *)

(** Six calls from reset, one [LeaveSection] too many in the middle: the
    counter ends at 1 with interrupts off. *)
Lemma critical_sections_mask_interrupts_witness :
  let st := snd (Platform.run_section_calls Scenario.section_calls Platform.power_on) in
  0 <= Platform._lf_num_nested_critical_sections st
  /\ Platform.interrupts_on st = (Platform._lf_num_nested_critical_sections st =? 0).
Proof.
  apply (critical_sections_mask_interrupts Scenario.section_calls). reflexivity.
Defined.

(** Three nested sections entered and left from reset; and one section
    entered and left with the counter at 0 and interrupts already off. *)
Lemma nested_sections_restore_witness :
  Platform.run_section_calls
    (repeat Platform.EnterSection 3 ++ repeat Platform.LeaveSection 3) Platform.power_on
  = ([0; 0; 0; 0; 0; 0], Platform.power_on)
  /\ Platform.interrupts_on
       (snd (Platform.run_section_calls
               (repeat Platform.EnterSection 1 ++ repeat Platform.LeaveSection 1)
               (Platform.with_sections 0 false Platform.power_on)))
     = true.
Proof.
  split.
  - destruct (nested_sections_restore 3 Platform.power_on) as (_ & _ & Hback).
    + simpl. lia.
    + simpl. lia.
    + apply Hback. reflexivity.
  - destruct (nested_sections_restore 1 (Platform.with_sections 0 false Platform.power_on))
      as (_ & Hboth & _).
    + simpl. lia.
    + simpl. lia.
    + rewrite Hboth. reflexivity.
Defined.


(** A sleep until the first nanosecond after the 32-bit period, and a
    sleep of that duration begun at start-up, are still running after
    any reads without a notification. *)
Lemma sleep_past_first_period_never_expires_witness :
  Platform.lf_sleep_until_locked 4294967296000
    [ {| Platform.elapsed_us := 1; Platform.notified := false |};
      {| Platform.elapsed_us := 4294967297; Platform.notified := false |} ]
    false Platform.power_on
  = None
  /\ Platform.lf_sleep 4294967296000 0
       [ {| Platform.elapsed_us := 1; Platform.notified := false |};
         {| Platform.elapsed_us := 4294967297; Platform.notified := false |} ]
       false Platform.power_on
     = None.
Proof.
  destruct (sleep_past_first_period_never_expires 4294967296000
              [ {| Platform.elapsed_us := 1; Platform.notified := false |};
                {| Platform.elapsed_us := 4294967297; Platform.notified := false |} ]
              false Platform.power_on) as (_ & Hrunning & Hsleep).
  - reflexivity.
  - lia.
  - split.
    + apply Hrunning. repeat constructor.
    + destruct (Hsleep 4294967296000 0) as [_ Hsleeping]; [lia |].
      apply Hsleeping. repeat constructor.
Defined.

(** Three reads within the first period. *)
Lemma clock_exact_in_first_period_witness :
  exists t1 t2 ts,
    Arduino.clock_reads [10; 20; 4000000000] Arduino.clock_init = t1 :: ts ++ [t2]
    /\ t1 = 10000 /\ t2 = 4000000000000.
Proof.
  destruct (clock_exact_in_first_period 10 4000000000 [20])
    as (t1 & t2 & ts & Hreads & Hfirst & Hlast & _).
  - lia.
  - lia.
  - lia.
  - exists t1, t2, ts. split; [exact Hreads | split; [exact Hfirst | exact Hlast]].
Defined.

(** Federate 2, at logical time 400, sends two bytes to port 3 of
    federate 1, which is at logical time 1000. *)
Lemma timed_message_round_trip_witness :
  exists header receiver',
    Send.send_message_timed 8 (Sample.stream []) 16 3 1 [7; 9] Scenario.upstream_federate
    = Sys.Done (Sys.log (Sys.SysWrite 8 [7; 9])
                  (Sys.log (Sys.SysWrite 8 header) Scenario.upstream_federate))
    /\ Reader.handle_timed_message Sample.action_for_port
         (Sample.stream (tl header ++ [7; 9] ++ [])) Sample.federate
       = Sys.Done (Sample.stream [], receiver')
    /\ Sys.scheduled receiver'
       = [{| Sys.sc_trigger := {| Sys.trigger_id := 4288; Sys.element_size := 1 |};
             Sys.sc_extra_delay := -600; Sys.sc_element_size := 1;
             Sys.sc_value := [7; 9]; Sys.sc_length := 2 |}].
Proof.
  destruct (timed_message_round_trip Sample.action_for_port 8 (Sample.stream []) 16 3 [7; 9]
              Scenario.upstream_federate Sample.federate)
    as (header & Hsend & _ & _ & Hreceive).
  - simpl. lia.
  - simpl. lia.
  - simpl. lia.
  - unfold Wire.in_ll. simpl. lia.
  - reflexivity.
  - destruct (Hreceive (Sample.stream (tl header ++ [7; 9] ++ [])) [] eq_refl eq_refl)
      as [Haction _].
    destruct (Haction {| Sys.trigger_id := 4288; Sys.element_size := 1 |} eq_refl)
      as (receiver' & Hrun & Hcalls).
    exists header, receiver'. split; [exact Hsend | split; [exact Hrun | exact Hcalls]].
Defined.

(** The reader of federate 1 for its peer 2 gets the two messages of
    [Scenario.two_messages], then the end of the stream. *)
Lemma reader_schedules_in_order_witness :
  exists s' p',
    Reader.listen_loop (H := sample_rti_h) 3 Sample.action_for_port 2 7
      (Sample.stream (concat (map (Send.frame_of 16 1) Scenario.two_messages)))
      Sample.federate_with_peer
    = Some (Sys.Done (s', p'))
    /\ Sys.scheduled p'
       = [{| Sys.sc_trigger := {| Sys.trigger_id := 4288; Sys.element_size := 1 |};
             Sys.sc_extra_delay := -600; Sys.sc_element_size := 1;
             Sys.sc_value := [7; 9]; Sys.sc_length := 2 |};
          {| Sys.sc_trigger := {| Sys.trigger_id := 4096; Sys.element_size := 1 |};
             Sys.sc_extra_delay := 1000; Sys.sc_element_size := 1;
             Sys.sc_value := []; Sys.sc_length := 0 |}].
Proof.
  destruct (reader_schedules_in_order (H := sample_rti_h) Sample.action_for_port 2 7
              Scenario.two_messages
              [ {| Sys.trigger_id := 4288; Sys.element_size := 1 |};
                {| Sys.trigger_id := 4096; Sys.element_size := 1 |} ]
              3
              (Sample.stream (concat (map (Send.frame_of 16 1) Scenario.two_messages)))
              Sample.federate_with_peer)
    as (s' & p' & Hrun & Hcalls & _).
  - simpl. lia.
  - repeat constructor; unfold Wire.in_ll; simpl; lia.
  - repeat constructor.
  - simpl. lia.
  - reflexivity.
  - reflexivity.
  - reflexivity.
  - simpl. lia.
  - exists s', p'. split; [exact Hrun | exact Hcalls].
Defined.

(** Three bytes that are no message, and fuel for five rounds. *)
Lemma listen_loop_terminates_witness :
  exists r,
    Reader.listen_loop (H := sample_rti_h) 5 Sample.action_for_port 2 7
      (Sample.stream [0; 1; 2]) Sample.federate_with_peer = Some r.
Proof.
  apply (listen_loop_terminates (H := sample_rti_h) Sample.action_for_port 2 7 5).
  simpl. lia.
Defined.

(** The RTI sends a grant of 10, a stop request for 50 and a grant of 25,
    then closes the connection. *)
Lemma listen_to_rti_applies_frames_witness :
  Rti.listen_to_rti (H := sample_rti_h) (H0 := sample_rti_h_types) 4 Sample.action_for_port
    (Sample.stream
       (concat (map (Rti.frame_of_action (H := sample_rti_h) (H0 := sample_rti_h_types))
                  Scenario.rti_actions)))
    Sample.federate (Coordinator.initial_state true false)
  = Some (Rti.RtiExit Sample.federate
            (Coordinator.run_wake Scenario.rti_actions (Coordinator.initial_state true false))).
Proof.
  apply (listen_to_rti_applies_frames (H := sample_rti_h) (H0 := sample_rti_h_types)
           Sample.action_for_port Scenario.rti_actions).
  - discriminate.
  - discriminate.
  - discriminate.
  - repeat constructor; unfold Wire.in_ll; simpl; lia.
  - reflexivity.
  - reflexivity.
  - simpl. lia.
Defined.

(** A grant cut short after two of its eight bytes. *)
Lemma listen_to_rti_terminates_witness :
  exists e,
    Rti.listen_to_rti (H := sample_rti_h) (H0 := sample_rti_h_types) 4 Sample.action_for_port
      (Sample.stream [7; 1; 2]) Sample.federate (Coordinator.initial_state true false)
    = Some e.
Proof.
  apply (listen_to_rti_terminates (H := sample_rti_h) (H0 := sample_rti_h_types)
           Sample.action_for_port 4).
  simpl. lia.
Defined.

(** The RTI answers TIMESTAMP with the start time 5000. *)
Lemma get_start_time_from_rti_reply_witness :
  Rti.get_start_time_from_rti (H0 := sample_rti_h_types) 123
    (Sample.stream (2 :: Wire.encode_ll 5000)) Sample.federate
  = Sys.Done (5000,
              Sys.log (Sys.SysWrite 3 (Wire.encode_ll 123))
                (Sys.log (Sys.SysWrite 3 [2]) Sample.federate)).
Proof.
  pose proof (get_start_time_from_rti_reply (H0 := sample_rti_h_types) 123
                (Sample.stream (2 :: Wire.encode_ll 5000)) Sample.federate 2 5000 [])
    as Hreply.
  destruct Hreply as (_ & Hstart & _).
  - reflexivity.
  - unfold Wire.in_ll. lia.
  - reflexivity.
  - apply Hstart. reflexivity.
Defined.

(** With [STARTING_PORT = 15045]: two ports are taken, the third is free. *)
Lemma create_server_finds_port_witness :
  Server.create_server (H := sample_rti_h) (H0 := sample_rti_h_types) 0 4
    [false; false; true] (Sample.stream []) Server.no_server
  = Some (Server.ServerUp
            {| Server._lf_server_port := 15047;
               Server._lf_server_socket := 4;
               Server.server_calls :=
                 [Server.SrvBind 4 15045; Server.SrvBind 4 15046; Server.SrvBind 4 15047;
                  Server.SrvListen 4 128; Server.SrvWriteRti [14; 199; 58; 0; 0]] |}).
Proof.
  destruct (create_server_finds_port (H := sample_rti_h) (H0 := sample_rti_h_types) 4 2 []
              (Sample.stream []) Server.no_server) as [Hrun _].
  - lia.
  - simpl. lia.
  - reflexivity.
  - exact Hrun.
Defined.

(** With [PORT_RANGE_LIMIT = 2]: four failed [bind()] calls. *)
Lemma create_server_gives_up_witness :
  exists st',
    Server.create_server (H := sample_rti_h) (H0 := sample_rti_h_types) 0 4
      [false; false; false; false] (Sample.stream []) Server.no_server
    = Some (Server.ServerExit st')
    /\ Server._lf_server_port st' = -1
    /\ Server.binds_of (Server.server_calls st') = [15045; 15046; 15047; 15048].
Proof.
  destruct (create_server_gives_up (H := sample_rti_h) (H0 := sample_rti_h_types) 0 4
              [false; false; false; false] (Sample.stream []) Server.no_server)
    as (st' & Hrun & Hport & Hcalls).
  - lia.
  - simpl. lia.
  - repeat constructor.
  - simpl. lia.
  - exists st'. split; [exact Hrun | split; [exact Hport |]].
    rewrite Hcalls. reflexivity.
Defined.

(** The RTI listens on the third port of the range and answers ACK. *)
Lemma connect_to_rti_finds_rti_witness :
  exists p',
    Connect.connect_to_rti (H := sample_rti_h) 1 0
      (map Sample.refused [4; 5] ++ [Scenario.answered 6 [255]]) Sample.federate
    = Some (Sys.Done (15047, p'))
    /\ Sys._lf_rti_socket p' = 6.
Proof.
  destruct (connect_to_rti_finds_rti (H := sample_rti_h) 1 (map Sample.refused [4; 5])
              (Scenario.answered 6 [255]) [] Sample.federate 255 [])
    as (p' & trace & Hrun & Hsocket & _).
  - repeat constructor; simpl; lia.
  - simpl. lia.
  - simpl. lia.
  - reflexivity.
  - reflexivity.
  - reflexivity.
  - reflexivity.
  - discriminate.
  - exists p'. split; [exact Hrun | exact Hsocket].
Defined.

(** With [CONNECT_NUM_RETRIES = 1] and the port 15050 given: two attempts. *)
Lemma connect_to_rti_specified_port_witness :
  exists p',
    Connect.connect_to_rti (H := sample_rti_h) 1 15050
      ([Sample.refused 4] ++ [Sample.refused 5]) Sample.federate
    = Some (Sys.Exit p')
    /\ Sys.calls p' = [Sys.SysConnect 4 15050; Sys.SysSleep 2 0; Sys.SysConnect 5 15050].
Proof.
  destruct (connect_to_rti_specified_port (H := sample_rti_h) 1 15050
              [Sample.refused 4] (Sample.refused 5) [] Sample.federate)
    as [(p' & Hrun & Hcalls & _) _].
  - lia.
  - simpl. lia.
  - repeat constructor; simpl; lia.
  - reflexivity.
  - exists p'. split; [exact Hrun | exact Hcalls].
Defined.

(** With [PORT_RANGE_LIMIT = 2]: another program answers on the last port
    of the range with REJECT and WRONG_SERVER. *)
Lemma connect_to_rti_leaves_range_witness :
  exists p' trace,
    Connect.connect_to_rti (H := sample_rti_h) 1 0
      (map Sample.refused [4; 5; 6] ++ Scenario.answered 7 [0; 4] :: map Sample.refused [8; 9])
      Sample.federate
    = Some (Sys.Exit p')
    /\ Sys.calls p' = trace
    /\ Connect.split_at_sleeps (Connect.scan_of trace)
       = [[15045; 15046; 15047; 15048; 15049]; [15049]].
Proof.
  destruct (connect_to_rti_leaves_range (H := sample_rti_h) 1 (map Sample.refused [4; 5; 6])
              (Scenario.answered 7 [0; 4]) (map Sample.refused [8; 9]) Sample.federate 4 [])
    as (p' & trace & Hrun & Hcalls & Hpasses).
  - simpl. lia.
  - simpl. lia.
  - repeat constructor; simpl; lia.
  - reflexivity.
  - simpl. lia.
  - reflexivity.
  - reflexivity.
  - reflexivity.
  - reflexivity.
  - right. reflexivity.
  - repeat constructor; simpl; lia.
  - simpl. lia.
  - exists p', trace. split; [exact Hrun | split; [exact Hcalls | exact Hpasses]].
Defined.

(** The RTI does not know the port of federate 2 at first, and tells
    15046 when asked again. *)
Lemma query_address_retries_witness :
  exists p',
    Connect.query_address (H := sample_rti_h) 2 [-1; 15046] 0 Sample.federate
    = Some (Sys.Done (15046, p'))
    /\ Sys.calls p'
       = [Sys.SysWrite 3 [13; 2; 0]; Sys.SysSleep 0 100000000; Sys.SysWrite 3 [13; 2; 0]].
Proof.
  destruct (query_address_retries (H := sample_rti_h) 2 Sample.federate) as [Hfound _].
  - simpl. lia.
  - destruct (Hfound 1%nat 15046 []) as (p' & Hrun & Hcalls).
    + simpl. lia.
    + lia.
    + lia.
    + exists p'. split; [exact Hrun | exact Hcalls].
Defined.

(** Federate 1 connects to federate 2, which answers ACK. *)
Lemma peers_of_one_federation_connect_witness :
  exists p',
    Connect.connect_to_federate (H := sample_rti_h) 2 [15046] [Scenario.answered 6 [255]]
      Sample.federate
    = Some (Sys.Done p')
    /\ Sys.outbound_socket 2 p' = Some 6.
Proof.
  destruct (peers_of_one_federation_connect (H := sample_rti_h) 2 15046 []
              (Scenario.answered 6 [255]) [] Sample.federate [])
    as (header & name & (p' & Hrun & Hentry & _) & _).
  - simpl. lia.
  - lia.
  - lia.
  - simpl. lia.
  - reflexivity.
  - reflexivity.
  - reflexivity.
  - simpl. lia.
  - exists p'. split; [exact Hrun | exact Hentry].
Defined.

(** Federate 1, of the federation "abc", is called by a federate of
    "abd". *)
Lemma accept_rejects_other_federation_witness :
  Accept.accept_loop (H := sample_rti_h) [Scenario.caller 7 Scenario.hello_abd] 0
    Sample.federate
  = Accept.accept_loop (H := sample_rti_h) [] 0
      (Sys.log (Sys.SysClose 7) (Sys.log (Sys.SysWrite 7 [0; 1]) Sample.federate)).
Proof.
  apply (accept_rejects_other_federation (H := sample_rti_h)
           (Scenario.caller 7 Scenario.hello_abd) [] 0 Sample.federate [97; 98; 100] 2 0).
  - simpl. lia.
  - simpl. lia.
  - reflexivity.
  - repeat constructor; lia.
  - simpl. lia.
  - reflexivity.
  - discriminate.
  - reflexivity.
Defined.

(** Federate 1 expects one peer; two of its federation call. *)
Lemma accept_starts_at_most_expected_readers_witness :
  exists r,
    Accept.handle_p2p_connections_from_federates (H := sample_rti_h)
      [Scenario.caller 7 Scenario.hello_abc; Scenario.caller 8 Scenario.hello_abc]
      Sample.federate
    = Some r
    /\ Trace.spawns_of (Sys.calls (Trace.end_state r)) <= 1.
Proof.
  eexists. split; [reflexivity |].
  pose proof (accept_starts_at_most_expected_readers (H := sample_rti_h)
                [Scenario.caller 7 Scenario.hello_abc; Scenario.caller 8 Scenario.hello_abc]
                Sample.federate _ eq_refl) as Hbound.
  simpl in Hbound. simpl. lia.
Defined.

(** A federate with upstream federates asks for 100 and is granted 100. *)
Lemma next_event_time_footprint_witness :
  exists r st',
    Coordinator.__next_event_time (H := sample_rti_h) 100 [[Coordinator.TagArrives 100]]
      (Coordinator.initial_state true false)
    = Some (r, st')
    /\ Coordinator.rti_socket_out st' = [6 :: Wire.encode_ll 100].
Proof.
  eexists. eexists. split; [reflexivity |].
  destruct (next_event_time_footprint (H := sample_rti_h) 100 [[Coordinator.TagArrives 100]]
              (Coordinator.initial_state true false) _ _ eq_refl)
    as (_ & _ & _ & Hout).
  exact Hout.
Defined.

(** A federate with upstream federates and an event at 200 asks for 100;
    two stop requests arrive. *)
Lemma stop_does_not_end_the_wait_witness :
  Coordinator.__next_event_time (H := sample_rti_h) 100
    [[Coordinator.StopArrives 50]; [Coordinator.StopArrives 60]]
    (Coordinator.set_event_q [{| Coordinator.time := 200 |}]
       (Coordinator.initial_state true false))
  = None.
Proof.
  apply (stop_does_not_end_the_wait (H := sample_rti_h)).
  - reflexivity.
  - reflexivity.
  - intros h [= <-]. simpl. lia.
  - repeat constructor; eexists; reflexivity.
Defined.

(** While a federate waits for 100, an event at 50 is scheduled and the
    grants 70 and 80 arrive before it runs again. *)
Lemma grant_ends_the_wait_witness :
  exists st',
    Coordinator.__next_event_time (H := sample_rti_h) 100
      [[Coordinator.QueueChanged [{| Coordinator.time := 50 |}];
        Coordinator.TagArrives 70; Coordinator.TagArrives 80]]
      (Coordinator.initial_state true false)
    = Some (80, st')
    /\ Coordinator.__tag st' = 80.
Proof.
  destruct (grant_ends_the_wait (H := sample_rti_h) 100
              [Coordinator.QueueChanged [{| Coordinator.time := 50 |}];
               Coordinator.TagArrives 70; Coordinator.TagArrives 80]
              [] (Coordinator.initial_state true false) [70] 80)
    as (st' & Hrun & Htag & _).
  - reflexivity.
  - reflexivity.
  - reflexivity.
  - exists st'. split; [exact Hrun | exact Htag].
Defined.
